(** * PolicyChecker: the concurrent evidence-matching pipeline

    A shallow embedding of the JavaScript services of the PolicyChecker
    backend (the batch orchestrator [ParallelProcessor], the Drive content
    store [OptimizedDriveService], the relevance ranker
    [OptimizedPolicyService] and the reasoning dispatcher
    [OptimizedGeminiService]) together with the properties the specification
    states about them.

    Conventions of the embedding.
    - A JavaScript string is a sequence of code units; the embedding uses
      [string] (code units below 256).  Lengths and positions are [nat].
    - A JavaScript number that only ever holds an integer (a counter, a
      score, a rank, a time stamp) is a [Z] or a [nat]; a number obtained by
      a division or by a product with a decimal constant is an exact rational
      [Q].  The quotients that are compared with a constant here are
      quotients of two integers below 2^31 and the constants are 0.7, 3000
      and 8000: IEEE-754 rounding is monotone and cannot move such a quotient
      across the constant, so the comparison of the rationals is the
      comparison the program performs.  The threshold
      [start + chunkSize * 0.7] of [splitTextIntoChunks] is compared with an
      integer that it can meet: there the constant, the product and the sum
      are rounded as the program rounds them ([Js.binary64]).
    - A promise that has settled is a [settled A]: [fulfilled v] or
      [rejected reason].  [null]/[undefined] is [None].
    - JavaScript runs every callback to completion: tasks that run
      "concurrently" interleave only at their [await]s.  A run of concurrent
      tasks is a schedule, an interleaving of the atomic steps of the tasks;
      properties are proved for every schedule.
    - The external collaborators (the Drive API, the reasoning model, the
      clock) are arguments of the functions that call them: what they
      answer is not constrained. *)

From Stdlib Require Import Ascii QArith Qminmax Qround FunInd Recdef.
From stdpp Require Import gmap strings list fin_maps sorting pretty.

Local Open Scope nat_scope.

(** ** JavaScript primitives *)

(** A thrown value: an [Error] with its message, or an [ApiError] which
    also carries a status code. *)
Record JsError := mkError {
  statusCode : option nat;
  message : string;
}.
Definition Error (message : string) : JsError := mkError None message.
Definition ApiError (statusCode : nat) (message : string) : JsError :=
  mkError (Some statusCode) message.

(** The outcome of a settled promise ([Promise.allSettled] yields one per
    task: [{status: 'fulfilled', value}] or [{status: 'rejected', reason}]);
    also the outcome of a [try] block. *)
Inductive settled (A : Type) : Type :=
| fulfilled (value : A)
| rejected (reason : JsError).
Arguments fulfilled {A} value.
Arguments rejected {A} reason.

Module Js.

(** [s.length] *)
Definition length (s : string) : nat := String.length s.

(** [s.charAt(i)]: the empty string ([None]) out of range. *)
Definition charAt (s : string) (i : nat) : option ascii := String.get i s.

(** [s.indexOf(sub, from)]: the first position at or after [from] where
    [sub] occurs; [from] is clamped to the length of [s] (so the empty
    string is found at [min from s.length]); [None] is [-1]. *)
Definition indexOf (s sub : string) (from : nat) : option nat :=
  String.index (from `min` String.length s) sub s.

(** [s.includes(sub)] *)
Definition includes (s sub : string) : bool :=
  match indexOf s sub 0 with Some _ => true | None => false end.

(** [s.substring(start, end)]: both ends clamped to the length, swapped
    when [start > end]. *)
Definition substring (s : string) (start end_ : nat) : string :=
  let a := start `min` String.length s in
  let b := end_ `min` String.length s in
  String.substring (a `min` b) ((a `max` b) - (a `min` b)) s.

(** [toLowerCase] on one code unit below 256: A-Z and the Latin-1 capitals
    (0xC0-0xDE except the multiplication sign 0xD7) move up by 32. *)
Definition lower_char (c : ascii) : ascii :=
  let n := nat_of_ascii c in
  if ((65 <=? n) && (n <=? 90)) || ((192 <=? n) && (n <=? 222) && negb (n =? 215))
  then ascii_of_nat (n + 32) else c.

(** [s.toLowerCase()] *)
Fixpoint toLowerCase (s : string) : string :=
  match s with
  | EmptyString => EmptyString
  | String c r => String (lower_char c) (toLowerCase r)
  end.

(** [s.split(sep)] for a one-character separator: the pieces between the
    separators, empty pieces included. *)
Fixpoint split_go (sep : ascii) (cur : string) (s : string) : list string :=
  match s with
  | EmptyString => [String.rev cur]
  | String c r =>
      if Ascii.eqb c sep then String.rev cur :: split_go sep EmptyString r
      else split_go sep (String c cur) r
  end.
Definition split (s : string) (sep : ascii) : list string :=
  split_go sep EmptyString s.

(** [parts.join(sep)] *)
Fixpoint join (sep : string) (parts : list string) : string :=
  match parts with
  | [] => EmptyString
  | [p] => p
  | p :: rest => p +:+ sep +:+ join sep rest
  end.

(** [array.slice(i, i + n)] *)
Definition slice {A} (l : list A) (i n : nat) : list A := take n (drop i l).

(** [array.slice(-n)]: the last [n] elements (all of them when there are
    fewer). *)
Definition slice_last {A} (l : list A) (n : nat) : list A :=
  drop (List.length l - n) l.

(** [array[j] = v] on a dense array: overwrite in range, append at the
    length; beyond the length JavaScript leaves holes, which never arise in
    this program and are filled with [hole] here. *)
Definition array_set {A} (hole : A) (l : list A) (j : nat) (v : A) : list A :=
  if j <? List.length l then <[j:=v]> l
  else l ++ replicate (j - List.length l) hole ++ [v].

(** [Array.prototype.sort(cmp)].  ECMAScript requires the sort to be stable
    and, for a consistent comparator, leaves no freedom in the result; the
    embedding is the stable insertion sort.  The comparator's result is
    [None] for NaN, which the sort reads as 0.  For a comparator that is
    not consistent (one that answers NaN for some pairs only) the language
    leaves the order to the engine, and the embedding gives one of the
    orders allowed.  An array whose neighbours all compare as NaN, in
    either order, is left as it is by the embedding, as it is by an engine
    whose merge sort first looks for a run that is sorted already. *)
Section Sort.
Context {A : Type} (cmp : A → A → option Z).

Definition cmp_le (x y : A) : bool :=
  match cmp x y with Some d => (d <=? 0)%Z | None => true end.

Fixpoint sort_insert (x : A) (l : list A) : list A :=
  match l with
  | [] => [x]
  | y :: r => if cmp_le x y then x :: y :: r else y :: sort_insert x r
  end.

Definition sort (l : list A) : list A := foldr sort_insert [] l.

(** [x] may stand before [y] in the sorted array. *)
Definition precedes (x y : A) : Prop := cmp_le x y = true.
End Sort.

(** [s.replace(pattern, replacement)] with a string pattern: the first
    occurrence is replaced. *)
Definition replace (s pattern replacement : string) : string :=
  match indexOf s pattern 0 with
  | Some i =>
      substring s 0 i +:+ replacement +:+ substring s (i + length pattern) (length s)
  | None => s
  end.

(** A plain object [{}] used as a dictionary whose values are objects
    (arrays, here): its own properties, and the value that an assignment to
    ["__proto__"] has made its prototype ([None]: the prototype is still
    [Object.prototype]). *)
Record object (V : Type) := mkObject {
  own : gmap string V;
  prototype : option V;
}.
Arguments mkObject {V} own prototype.
Arguments own {V} o.
Arguments prototype {V} o.

(** [{}] *)
Definition object_empty {V} : object V := mkObject ∅ None.

(** [obj[key] = v].  The assignment creates or overwrites an own property,
    except for the key ["__proto__"]: that is the accessor inherited from
    [Object.prototype], whose setter makes the object [v] the prototype of
    [obj] and creates no property. *)
Definition object_set {V} (obj : object V) (key : string) (v : V) : object V :=
  if decide (key = "__proto__") then mkObject (own obj) (Some v)
  else mkObject (<[key := v]> (own obj)) (prototype obj).

(** [obj[key]], for a key that has been assigned: the own property, and
    for ["__proto__"] what the getter returns, the prototype.  (What a
    key that was never assigned inherits from [Object.prototype], or from
    an array that has become the prototype, is not a value stored in the
    dictionary and is not modelled.) *)
#[global] Instance object_lookup {V} : Lookup string V (object V) :=
  λ key obj, if decide (key = "__proto__") then prototype obj else own obj !! key.

(** [Object.keys(obj)], as a set: the own properties, which are what
    [JSON.stringify] writes. *)
Definition object_keys {V} (obj : object V) : gset string := dom (own obj).

(** *** Numbers

    A Number is an IEEE 754 double: a constant, a product or a sum that is
    not a double is rounded to the nearest one, to the one with the even
    significand when two are as near. *)

(** The integer nearest to [x], the even one of the two when [x] lies
    half-way. *)
Definition roundHalfEven (x : Q) : Z :=
  let n := Qfloor x in
  match (x - inject_Z n ?= 1 # 2)%Q with
  | Lt => n
  | Gt => (n + 1)%Z
  | Eq => if Z.even n then n else (n + 1)%Z
  end.

(** The exponent of [x > 0]: the [e] with [2^e <= x < 2^(e+1)]. *)
Definition exponent (x : Q) : Z :=
  let d := (Z.log2 (Qnum x) - Z.log2 (Zpos (Qden x)))%Z in
  if Qle_bool (2 ^ d) x then d else (d - 1)%Z.

(** The double nearest to [x], for [0 < x < 2^53]: the significand has 53
    bits, so [x] is rounded to a multiple of [2^(e - 52)], where [e] is its
    exponent.  (Between 2^-1022 and 2^53 nothing under- or overflows.)  The
    numbers that the program rounds are sums and products of positions in
    a text and of a chunk size smaller than the text; a String has at most
    2^53 - 1 elements, so they are below 2^53.  Zero is a double.  For the
    numbers from 2^53 on, which no text reaches, the embedding computes
    exactly. *)
Definition binary64 (x : Q) : Q :=
  if Qle_bool x 0 then x
  else if Qle_bool (2 ^ 53) x then x
  else
    let k := Z.max 0 (52 - exponent x) in
    Qmake (roundHalfEven (x * inject_Z (2 ^ k))) (Z.to_pos (2 ^ k)).

End Js.

(** ** RelevanceRanker: edit distance and fuzzy matching
    ([OptimizedPolicyService.levenshteinDistance], [fuzzyMatch]) *)

Module Ranker.

(** The [matrix] of [levenshteinDistance]: an array of rows. *)
Abbreviation Matrix := (list (list nat)).

(** [matrix[i][j]] (read). *)
Definition mget (m : Matrix) (i j : nat) : nat :=
  default 0 (m !! i ≫= λ row, row !! j).

(** [matrix[i][j] = v].  Row [i] exists whenever the program writes to it:
    the first loop creates the rows [0..str2.length]. *)
Definition mset (m : Matrix) (i j v : nat) : Matrix :=
  match m !! i with
  | Some row => <[i := Js.array_set 0 row j v]> m
  | None => m
  end.

(** [for (let i = 0; i <= str2.length; i++) matrix[i] = [i];] *)
Definition init_rows (n2 : nat) : Matrix := (λ i, [i]) <$> seq 0 (S n2).

(** [for (let j = 0; j <= str1.length; j++) matrix[0][j] = j;] *)
Definition init_row0 (n1 : nat) (m : Matrix) : Matrix :=
  foldl (λ m j, mset m 0 j j) m (seq 0 (S n1)).

(** The body of the inner loop at [(i, j)]. *)
Definition fill_cell (str1 str2 : string) (m : Matrix) (i j : nat) : Matrix :=
  if decide (Js.charAt str2 (i - 1) = Js.charAt str1 (j - 1)) then
    mset m i j (mget m (i - 1) (j - 1))
  else
    mset m i j
      ((mget m (i - 1) (j - 1) + 1) `min`
       ((mget m i (j - 1) + 1) `min` (mget m (i - 1) j + 1))).

(** The double loop [for i in 1..str2.length, for j in 1..str1.length]. *)
Definition fill (str1 str2 : string) (m : Matrix) : Matrix :=
  foldl (λ m i, foldl (λ m j, fill_cell str1 str2 m i j) m
                      (seq 1 (Js.length str1)))
        m (seq 1 (Js.length str2)).

Definition levenshteinDistance (str1 str2 : string) : nat :=
  let matrix := init_rows (Js.length str2) in
  let matrix := init_row0 (Js.length str1) matrix in
  let matrix := fill str1 str2 matrix in
  mget matrix (Js.length str2) (Js.length str1).

(** [fuzzyMatch(str1, str2, threshold = 0.7)].  The result is used as a
    condition only; the [1.0] returned for two empty strings is truthy. *)
Definition fuzzyMatch_with (threshold : Q) (str1 str2 : string) : bool :=
  let longer := if Js.length str2 <? Js.length str1 then str1 else str2 in
  let shorter := if Js.length str2 <? Js.length str1 then str2 else str1 in
  if Js.length longer =? 0 then true
  else
    let editDistance := levenshteinDistance longer shorter in
    Qle_bool threshold
      ((inject_Z (Z.of_nat (Js.length longer)) - inject_Z (Z.of_nat editDistance))
       / inject_Z (Z.of_nat (Js.length longer))).

Definition fuzzyMatch : string → string → bool := fuzzyMatch_with (7 # 10).

(** The result of [normalizeQuestion]. *)
Module NQuestion.
Record t := mk {
  keywords : list string;
  category : string;
  text : string;
  description : string;
}.
End NQuestion.

(** The result of [normalizePolicy]. *)
Module NPolicy.
Record t := mk {
  keywords : list string;
  category : string;
  description : string;
  name : string;
}.
End NPolicy.

(** The body of the two nested [forEach] loops over the keyword pairs. *)
Definition scoreKeywordPair (qKeyword : string) (score : Z) (pKeyword : string) : Z :=
  let score :=
    if Js.includes pKeyword qKeyword || Js.includes qKeyword pKeyword
    then (score + 20)%Z else score in
  let score := if decide (pKeyword = qKeyword) then (score + 30)%Z else score in
  let score := if fuzzyMatch pKeyword qKeyword then (score + 15)%Z else score in
  score.

Definition scoreKeywordPairs (qKeywords pKeywords : list string) (score : Z) : Z :=
  foldl (λ score qKeyword, foldl (scoreKeywordPair qKeyword) score pKeywords)
        score qKeywords.

Definition calculateRelevanceScore (question : NQuestion.t) (policy : NPolicy.t) : Z :=
  let score := 0%Z in
  (* Category match (high weight) *)
  let score :=
    if decide (NPolicy.category policy = NQuestion.category question)
    then (score + 50)%Z else score in
  (* Keyword matching with fuzzy matching *)
  let score :=
    scoreKeywordPairs (NQuestion.keywords question) (NPolicy.keywords policy) score in
  (* Description similarity with keyword presence *)
  let score :=
    foldl (λ score keyword,
             if Js.includes (NPolicy.description policy) keyword
             then (score + 10)%Z else score)
          score (NQuestion.keywords question) in
  (* Text content matching in policy name *)
  let score :=
    foldl (λ score keyword,
             if Js.includes (NPolicy.description policy) keyword
                || Js.includes (NPolicy.name policy) keyword
             then (score + 5)%Z else score)
          score (NQuestion.keywords question) in
  (* Question text relevance to policy description *)
  let questionWords :=
    filter (λ word, 3 < Js.length word) (Js.split (NQuestion.text question) " ") in
  let score :=
    foldl (λ score word,
             if Js.includes (NPolicy.description policy) word
             then (score + 3)%Z else score)
          score questionWords in
  score.

(** The description, name and text bonuses, as the specification words
    them: +10 for each question keyword contained in the document
    description, +5 for each question keyword contained in the description
    or the name, +3 for each word of the question text longer than 3
    characters found in the description. *)
Definition count_if {A} (f : A → bool) (l : list A) : Z :=
  Z.of_nat (length (List.filter f l)).

Definition otherBonuses (question : NQuestion.t) (policy : NPolicy.t) : Z :=
  (10 * count_if (Js.includes (NPolicy.description policy))
                 (NQuestion.keywords question)
   + 5 * count_if (λ k, Js.includes (NPolicy.description policy) k
                        || Js.includes (NPolicy.name policy) k)
                  (NQuestion.keywords question)
   + 3 * count_if (Js.includes (NPolicy.description policy))
                  (filter (λ word, (3 < Js.length word)%nat)
                          (Js.split (NQuestion.text question) " ")))%Z.

(** The scenario of the scoring example: question keywords "privacy" and
    "security", document keywords "privacy" and "secur", equal categories. *)
Definition exampleQuestion (category text description : string) : NQuestion.t :=
  NQuestion.mk ["privacy"; "security"] category text description.
Definition examplePolicy (category description name : string) : NPolicy.t :=
  NPolicy.mk ["privacy"; "secur"] category description name.

(** The score the specification's example announces: 50 + 30 + 20 + 20 plus
    the description, name and text bonuses. *)
Definition announcedScore (question : NQuestion.t) (policy : NPolicy.t) : Z :=
  (50 + 30 + 20 + 20 + otherBonuses question policy)%Z.

(** The classic dynamic-programming recurrence for the edit distance
    (Wagner-Fischer): [lev_table a b i j] is the distance between the first
    [j] characters of [a] and the first [i] characters of [b],
    [d(i,0) = i], [d(0,j) = j], and
    [d(i,j) = min (d(i-1,j) + 1, d(i,j-1) + 1, d(i-1,j-1) + [a_j ≠ b_i])]. *)
Fixpoint lev_table (a b : string) (i : nat) : nat → nat :=
  match i with
  | 0 => λ j, j
  | S i' =>
      fix row (j : nat) : nat :=
        match j with
        | 0 => S i'
        | S j' =>
            (lev_table a b i' (S j') + 1) `min`
            ((row j' + 1) `min`
             (lev_table a b i' j' +
                (if decide (String.get i' b = String.get j' a) then 0 else 1)))
        end
  end.

(** The Levenshtein distance between [a] and [b]. *)
Definition levenshtein (a b : string) : nat :=
  lev_table a b (String.length b) (String.length a).

(** Edit scripts: [edits s t n] when [s] can be turned into [t] with [n]
    single-character edits.  The two strings are read from left to right;
    at each step a common character is kept, a character of [s] is
    replaced, a character of [s] is deleted, or a character of [t] is
    inserted. *)
Inductive edits : string → string → nat → Prop :=
| edits_empty : edits EmptyString EmptyString 0
| edits_keep s t c n :
    edits s t n → edits (s +:+ String c EmptyString) (t +:+ String c EmptyString) n
| edits_substitute s t c d n :
    edits s t n →
    edits (s +:+ String c EmptyString) (t +:+ String d EmptyString) (S n)
| edits_delete s t c n :
    edits s t n → edits (s +:+ String c EmptyString) t (S n)
| edits_insert s t d n :
    edits s t n → edits s (t +:+ String d EmptyString) (S n).

(** The first [n] characters of [s]. *)
Fixpoint take_chars (n : nat) (s : string) : string :=
  match s with
  | EmptyString => EmptyString
  | String c r =>
      match n with
      | 0 => EmptyString
      | S n => String c (take_chars n r)
      end
  end.

(** The normalized similarity of two strings:
    [(longer.length − distance) / longer.length]. *)
Definition similarity (a b : string) : Q :=
  let longest := String.length a `max` String.length b in
  (inject_Z (Z.of_nat longest) - inject_Z (Z.of_nat (levenshtein a b)))
  / inject_Z (Z.of_nat longest).

(** The matrix in which row [r] holds the first [w r] entries of row [r] of
    the table: the shape of [matrix] at every point of [levenshteinDistance]. *)
Definition table_upto (a b : string) (n2 : nat) (w : nat → nat) : Matrix :=
  (λ r, lev_table a b r <$> seq 0 (w r)) <$> seq 0 (S n2).

(** [w] with the width of row [i] set to [c]. *)
Definition widen (w : nat → nat) (i c : nat) : nat → nat :=
  λ r, if decide (r = i) then c else w r.

End Ranker.

(** ** ReasoningDispatcher ([OptimizedGeminiService]) *)

Module Dispatcher.

(** The constructor's constants. *)
Definition maxRetries : nat := 3.
Definition baseDelay : Z := 1000.

(** What one attempt meets inside the [try] block of [makeGeminiRequest]. *)
Inductive ModelReply :=
| ReplyThrows (error : JsError)
    (* [getGeminiModel], [generateContent] or [response.text] throws *)
| ReplyEmpty
    (* [!result || !result.response] *)
| ReplyText (text : string).

(** The [try] block. *)
Definition attempt (reply : ModelReply) : settled string :=
  match reply with
  | ReplyThrows error => rejected error
  | ReplyEmpty => rejected (Error "No response received from Gemini API")
  | ReplyText text => fulfilled text
  end.

(** The effects of the request that the outside can see: an attempt (one
    run of the [try] block, [model.generateContent(prompt)]) and a pause
    ([this.sleep(delay)]). *)
Inductive Effect :=
| GenerateContent (prompt : string)
| Sleep (ms : Z).

(** [makeGeminiRequest(prompt, retryCount = 0)].  [replies r] is what the
    attempt made with [retryCount = r] meets. *)
Function makeGeminiRequest (replies : nat → ModelReply) (prompt : string)
    (retryCount : nat) {measure (λ retryCount, maxRetries - retryCount) retryCount}
    : list Effect * settled string :=
  match attempt (replies retryCount) with
  | fulfilled text => ([GenerateContent prompt], fulfilled text)
  | rejected error =>
      match lt_dec retryCount maxRetries with
      | left _ =>
          let delay := (baseDelay * 2 ^ Z.of_nat retryCount)%Z in
          let r := makeGeminiRequest replies prompt (retryCount + 1) in
          (GenerateContent prompt :: Sleep delay :: r.1, r.2)
      | right _ =>
          ([GenerateContent prompt],
           rejected (ApiError 500
             ("Gemini API error after " +:+ pretty maxRetries +:+ " retries: "
              +:+ message error)))
      end
  end.
Proof. intros. lia. Defined.

(** The effects of a request that ends at attempt [k]: [k] failed attempts,
    each followed by its back-off pause, then the last attempt. *)
Fixpoint retrySchedule (prompt : string) (from k : nat) : list Effect :=
  match k with
  | 0 => [GenerateContent prompt]
  | S k' =>
      GenerateContent prompt :: Sleep (1000 * 2 ^ Z.of_nat from)%Z
        :: retrySchedule prompt (S from) k'
  end.

(** The number of attempts in a list of effects. *)
Definition is_attempt (e : Effect) : bool :=
  match e with GenerateContent _ => true | Sleep _ => false end.
Definition attempts (effects : list Effect) : nat :=
  length (List.filter is_attempt effects).

(** The pauses in a list of effects, in order. *)
Definition pauses (effects : list Effect) : list Z :=
  omap (λ e, match e with Sleep ms => Some ms | _ => None end) effects.

(** *** Excerpt selection: [smartTruncatePolicyText] *)

(** [findKeywordPositions(text, keyword)]: the [while (index !== -1)] loop.
    The loop need not end (with the empty keyword [indexOf] never answers
    -1), so the embedding counts iterations: [None] means that [fuel]
    iterations were not enough. *)
Fixpoint findKeywordPositions_loop (fuel : nat) (text keyword : string)
    (index : option nat) (positions : list nat) : option (list nat) :=
  match index with
  | None => Some positions
  | Some i =>
      match fuel with
      | 0 => None
      | S fuel =>
          findKeywordPositions_loop fuel text keyword
            (Js.indexOf text keyword (i + 1)) (positions ++ [i])
      end
  end.

Definition findKeywordPositions (fuel : nat) (text keyword : string) : option (list nat) :=
  findKeywordPositions_loop fuel text keyword (Js.indexOf text keyword 0) [].

Definition maxLength : nat := 18 * 1000.

(** ['\n...\n'] *)
Definition sectionSeparator : string :=
  String "010" ("..." +:+ String "010" EmptyString).

Definition truncationMarker : string := "...[truncated]".

(** The section cut around position [pos]:
    [text.substring(Math.max(0, pos - 500), Math.min(text.length, pos + 1500))]. *)
Definition sectionAround (text : string) (pos : nat) : string :=
  let start := Z.to_nat (Z.max 0 (Z.of_nat pos - 500)) in
  let end_ := Z.to_nat (Z.min (Z.of_nat (Js.length text)) (Z.of_nat pos + 1500)) in
  Js.substring text start end_.

(** [text.substring(0, maxLength) + '...[truncated]'] *)
Definition truncatedHead (text : string) : string :=
  Js.substring text 0 maxLength +:+ truncationMarker.

Definition smartTruncatePolicyText (fuel : nat) (text : string)
    (keywords : list string) : option string :=
  if Js.length text <=? maxLength then Some text
  else
    (* Try to find the most relevant sections based on keywords *)
    keywordPositions ←
      foldl (λ acc keyword,
               keywordPositions ← acc;
               positions ← findKeywordPositions fuel (Js.toLowerCase text)
                                                (Js.toLowerCase keyword);
               Some (keywordPositions ++ positions))
            (Some []) keywords;
    let fallback := Some (truncatedHead text) in
    if 0 <? length keywordPositions then
      (* Sort positions and extract relevant sections *)
      let keywordPositions :=
        Js.sort (λ a b, Some (Z.of_nat a - Z.of_nat b)%Z) keywordPositions in
      let relevantSections := sectionAround text <$> keywordPositions in
      let combinedText := Js.join sectionSeparator relevantSections in
      if Js.length combinedText <=? maxLength then Some combinedText
      else fallback
    else fallback.

(** The positions at which [keyword] occurs in [text], ascending; [p] is
    the position of the first character of [text]. *)
Fixpoint occurrences_go (keyword text : string) (p : nat) : list nat :=
  match text with
  | EmptyString =>
      match keyword with EmptyString => [p] | String _ _ => [] end
  | String _ rest =>
      (if String.prefix keyword text then [p] else [])
      ++ occurrences_go keyword rest (S p)
  end.
Definition occurrences (text keyword : string) : list nat :=
  occurrences_go keyword text 0.

(** Every occurrence of every keyword, case-insensitively, keyword by
    keyword. *)
Definition allOccurrences (text : string) (keywords : list string) : list nat :=
  concat ((λ keyword, occurrences (Js.toLowerCase text) (Js.toLowerCase keyword))
            <$> keywords).

(** The excerpt the specification announces for a long text: the windows
    around the occurrences in ascending order, each distinct window once;
    the head of the text when there is no window or the excerpt is over
    budget. *)
Definition announcedExcerpt (text : string) (keywords : list string) : string :=
  if Js.length text <=? maxLength then text
  else
    let positions := merge_sort (≤) (allOccurrences text keywords) in
    let windows := remove_dups (sectionAround text <$> positions) in
    let combined := Js.join sectionSeparator windows in
    if (0 <? length windows) && (Js.length combined <=? maxLength)
    then combined else truncatedHead text.

(** A long text in which the keywords "ab" and "a" occur at the same place. *)
Fixpoint repeat_char (c : ascii) (n : nat) : string :=
  match n with 0 => EmptyString | S n => String c (repeat_char c n) end.
Definition longText : string := "ab" +:+ repeat_char "x" (18 * 1000 - 1).

(** An entry of [requestHistory]. *)
Module HistoryEntry.
Record t := mk {
  type : string;
  duration : Z;
  timestamp : Z;
  success : bool;
  error : option string;
}.
End HistoryEntry.

(** The part of the service's state that the adaptive delay reads and
    writes. *)
Record DelayState := mkDelayState {
  requestHistory : list HistoryEntry.t;
  adaptiveDelay : Q;
}.

(** [history.reduce((sum, h) => sum + h.duration, 0) / history.length];
    [None] is the NaN of an empty history (0 / 0). *)
Definition averageOf (history : list HistoryEntry.t) : option Q :=
  let sum := foldl (λ sum h, (sum + HistoryEntry.duration h)%Z) 0%Z history in
  if length history =? 0 then None
  else Some (inject_Z sum / inject_Z (Z.of_nat (length history)))%Q.

(** [x > c] and [x < c] on numbers; false when [x] is NaN. *)
Definition num_gt (x : option Q) (c : Q) : bool :=
  match x with Some q => negb (Qle_bool q c) | None => false end.
Definition num_lt (x : option Q) (c : Q) : bool :=
  match x with Some q => negb (Qle_bool c q) | None => false end.

Definition adjustAdaptiveDelay (st : DelayState) : DelayState :=
  (* Keep only recent history (last 10 requests) *)
  let requestHistory := Js.slice_last (requestHistory st) 10 in
  let recentFailures :=
    length (filter (λ h, HistoryEntry.success h = false) requestHistory) in
  let avgDuration := averageOf requestHistory in
  let adaptiveDelay :=
    if 2 <? recentFailures then Qmin (adaptiveDelay st * 1.5) 5000
    else if num_gt avgDuration 8000 then Qmin (adaptiveDelay st * 1.2) 3000
    else if (recentFailures =? 0) && num_lt avgDuration 3000
         then Qmax (adaptiveDelay st * 0.9) 500
    else adaptiveDelay st in
  mkDelayState requestHistory adaptiveDelay.

(** The bookkeeping of [executeRequest] once the call has completed (either
    way): push the record of the call, then [adjustAdaptiveDelay]. *)
Definition recordCompletion (st : DelayState) (entry : HistoryEntry.t) : DelayState :=
  adjustAdaptiveDelay
    (mkDelayState (requestHistory st ++ [entry]) (adaptiveDelay st)).

(** The quantities the specification names: the last (at most 10) recorded
    calls, how many of them failed, and their average duration. *)
Definition recentCalls (history : list HistoryEntry.t) : list HistoryEntry.t :=
  drop (length history - 10) history.
Definition failuresIn (calls : list HistoryEntry.t) : nat :=
  length (List.filter (λ h, negb (HistoryEntry.success h)) calls).
Definition totalDuration (calls : list HistoryEntry.t) : Z :=
  foldr (λ h sum, (HistoryEntry.duration h + sum)%Z) 0%Z calls.
Definition averageDuration (calls : list HistoryEntry.t) : Q :=
  (inject_Z (totalDuration calls) / inject_Z (Z.of_nat (length calls)))%Q.

(** Sample histories: a fast successful call and a failed one. *)
Definition fastCall : HistoryEntry.t :=
  HistoryEntry.mk "policy_analysis" 1200 0 true None.
Definition failedCall : HistoryEntry.t :=
  HistoryEntry.mk "policy_analysis" 9000 0 false (Some "boom").

End Dispatcher.

(** ** ContentStore ([OptimizedDriveService]): resolving descriptors *)

Module Store.

(** A listed file: [{id, name, size}]. *)
Module DriveFile.
Record t := mk {
  id : string;
  name : string;
}.
End DriveFile.

(** A request of [batchFindPolicyFiles]: [{policyName, subfolderId}]. *)
Module PolicyRequest.
Record t := mk {
  policyName : string;
  subfolderId : string;
}.
End PolicyRequest.

#[global] Instance DriveFile_eq_dec : EqDecision DriveFile.t.
Proof. solve_decision. Defined.
#[global] Instance PolicyRequest_eq_dec : EqDecision PolicyRequest.t.
Proof. solve_decision. Defined.

(** [`${req.subfolderId}_${req.policyName}`] *)
Definition resultKey (req : PolicyRequest.t) : string :=
  PolicyRequest.subfolderId req +:+ "_" +:+ PolicyRequest.policyName req.

(** [s.split('.')[0]] *)
Definition firstSegment (s : string) : string :=
  default EmptyString (head (Js.split s ".")).

(** The predicate of [allFiles.find(...)]. *)
Definition fileMatches (req : PolicyRequest.t) (file : DriveFile.t) : bool :=
  Js.includes (Js.toLowerCase (DriveFile.name file))
              (Js.toLowerCase (PolicyRequest.policyName req))
  || Js.includes (Js.toLowerCase (PolicyRequest.policyName req))
                 (firstSegment (Js.toLowerCase (DriveFile.name file))).

(** [allFiles.find(...) || null] *)
Definition matchingFile (req : PolicyRequest.t) (allFiles : list DriveFile.t)
    : option DriveFile.t :=
  List.find (fileMatches req) allFiles.

(** [requestsByFolder]: a [Map] from folder id to the requests of that
    folder, in insertion order. *)
Fixpoint pushRequest (groups : list (string * list PolicyRequest.t))
    (req : PolicyRequest.t) : list (string * list PolicyRequest.t) :=
  match groups with
  | [] => [(PolicyRequest.subfolderId req, [req])]
  | (folder, requests) :: rest =>
      if decide (folder = PolicyRequest.subfolderId req)
      then (folder, requests ++ [req]) :: rest
      else (folder, requests) :: pushRequest rest req
  end.

Definition groupByFolder (policyRequests : list PolicyRequest.t)
    : list (string * list PolicyRequest.t) :=
  foldl pushRequest [] policyRequests.

(** The task of one folder once its listing has settled: it runs to its end
    without interruption. *)
Definition processFolder (listPDFFilesWithCache : string → settled (list DriveFile.t))
    (results : gmap string (option DriveFile.t))
    (group : string * list PolicyRequest.t) : gmap string (option DriveFile.t) :=
  match listPDFFilesWithCache group.1 with
  | fulfilled allFiles =>
      foldl (λ results req, <[resultKey req := matchingFile req allFiles]> results)
            results group.2
  | rejected _ =>
      foldl (λ results req, <[resultKey req := None]> results) results group.2
  end.

(** [batchFindPolicyFiles] with the folder tasks completing in the order
    [order] (the service is initialised). *)
Definition batchFindPolicyFiles_in (listPDFFilesWithCache : string → settled (list DriveFile.t))
    (order : list (string * list PolicyRequest.t)) : gmap string (option DriveFile.t) :=
  foldl (processFolder listPDFFilesWithCache) ∅ order.

(** [batchFindPolicyFiles] with the folder tasks completing in the order of
    the [Map]. *)
Definition batchFindPolicyFiles (listPDFFilesWithCache : string → settled (list DriveFile.t))
    (policyRequests : list PolicyRequest.t) : gmap string (option DriveFile.t) :=
  batchFindPolicyFiles_in listPDFFilesWithCache (groupByFolder policyRequests).

(** [findPolicyFileOptimized(policyName, subfolderId)]; the outer [None] is
    [undefined], [Some None] is [null]. *)
Definition findPolicyFileOptimized (listPDFFilesWithCache : string → settled (list DriveFile.t))
    (policyName subfolderId : string) : option (option DriveFile.t) :=
  let request := PolicyRequest.mk policyName subfolderId in
  let results := batchFindPolicyFiles listPDFFilesWithCache [request] in
  results !! (subfolderId +:+ "_" +:+ policyName).

(** The name without its extension: what precedes the last ['.']. *)
Definition withoutExtension (s : string) : string :=
  let parts := Js.split s "." in
  if length parts <=? 1 then s else Js.join "." (removelast parts).

(** The match the specification announces: the descriptor's name without
    its extension and the listed name contain each other, ignoring case. *)
Definition announcedMatch (req : PolicyRequest.t) (file : DriveFile.t) : bool :=
  let descriptor := Js.toLowerCase (withoutExtension (PolicyRequest.policyName req)) in
  let listed := Js.toLowerCase (DriveFile.name file) in
  Js.includes listed descriptor || Js.includes descriptor listed.

(** The predicate of [folderFiles.find(...)] in [preloadPolicyMetadata],
    which resolves the same names against the same listings. *)
Definition preloadMatches (pdf_name : string) (file : DriveFile.t) : bool :=
  let fileName := Js.toLowerCase (DriveFile.name file) in
  let policyName := Js.toLowerCase pdf_name in
  Js.includes fileName (Js.replace policyName ".pdf" EmptyString)
  || Js.includes policyName (Js.replace fileName ".pdf" EmptyString).

(** A sample folder. *)
Definition sampleListing (files : list DriveFile.t) (folderId : string)
    : settled (list DriveFile.t) :=
  if decide (folderId = "folder1") then fulfilled files
  else rejected (ApiError 500 "Failed to list PDF files: not found").

End Store.

(** ** The caches and their eviction timers *)

Module Cache.

(** The places of the program that write to a cache. *)
Inductive Site :=
| ListFolders       (* [listFoldersWithCache]: [fileListCache], key [folders_<id>] *)
| ListPDFFiles      (* [listPDFFilesWithCache]: [fileListCache], key [pdfs_<id>] *)
| FileMetadata      (* [getFileMetadataWithCache]: [metadataCache] *)
| DownloadedBytes   (* [executeDownload]: [downloadCache], buffers under 5 MB *)
| RelevanceScoring  (* [findRelevantPolicies]: [relevanceScoringCache] *)
| PolicyFileId      (* [getPolicyFileId], [batchGetPolicyFileIds],
                       [preloadPolicyMetadata]: [policyFileIdCache] *)
| PolicyContent     (* [batchDownloadPolicies]: [ParallelProcessor.cache] *)
| AnalysisResult.   (* [analyzyePolicyWithCache]: [ParallelProcessor.cache] *)

(** The delay of the [setTimeout(() => cache.delete(key), ...)] that follows
    the write, in milliseconds; [None] where the write arms no timer. *)
Definition ttl (site : Site) : option Z :=
  match site with
  | ListFolders => Some (10 * 60 * 1000)%Z
  | ListPDFFiles => Some (5 * 60 * 1000)%Z
  | FileMetadata => Some (15 * 60 * 1000)%Z
  | DownloadedBytes => Some (30 * 60 * 1000)%Z
  | RelevanceScoring => Some (30 * 60 * 1000)%Z
  | PolicyFileId => None
  | PolicyContent => None
  | AnalysisResult => None
  end.

(** An entry of a [Map].  The program stores the value only; the site and
    the time of the write are kept here to state the properties. *)
Record Entry (V : Type) := mkEntry {
  value : V;
  writtenBy : Site;
  writtenAt : Z;
}.
Arguments mkEntry {V} value writtenBy writtenAt.
Arguments value {V} e.
Arguments writtenBy {V} e.
Arguments writtenAt {V} e.

(** A [Map] with the timers that are pending on it (due time and key), at
    the time [now] of the clock. *)
Record State (V : Type) := mkState {
  now : Z;
  entries : gmap string (Entry V);
  timers : list (Z * string);
}.
Arguments mkState {V} now entries timers.
Arguments now {V} s.
Arguments entries {V} s.
Arguments timers {V} s.

Definition empty {V} : State V := mkState 0 ∅ [].

(** What happens to a cache. *)
Inductive Action (V : Type) :=
| Write (site : Site) (key : string) (v : V)
    (* [cache.set(key, v)] and, where the site has one, [setTimeout] *)
| Fire (i : nat)
    (* the event loop runs the callback of the pending timer number [i],
       which is due: [cache.delete(key)] *)
| Wait (ms : Z)
    (* time passes *)
| Clear.
    (* [clearCache], [clearCaches], [clearAllCaches]: [cache.clear()] *)
Arguments Write {V} site key v.
Arguments Fire {V} i.
Arguments Wait {V} ms.
Arguments Clear {V}.

Definition armTimer (site : Site) (now : Z) (key : string) : list (Z * string) :=
  match ttl site with
  | Some delay => [((now + delay)%Z, key)]
  | None => []
  end.

(** One action; [None] when it cannot happen (a timer that is not due or
    does not exist, time running backwards). *)
Definition act {V} (s : State V) (a : Action V) : option (State V) :=
  match a with
  | Write site key v =>
      Some (mkState (now s) (<[key := mkEntry v site (now s)]> (entries s))
                    (timers s ++ armTimer site (now s) key))
  | Fire i =>
      match timers s !! i with
      | Some (due, key) =>
          if decide (due ≤ now s)%Z
          then Some (mkState (now s) (delete key (entries s)) (delete i (timers s)))
          else None
      | None => None
      end
  | Wait ms =>
      if decide (0 ≤ ms)%Z
      then Some (mkState (now s + ms) (entries s) (timers s))
      else None
  | Clear => Some (mkState (now s) ∅ (timers s))
  end.

(** [cache.get(key)] *)
Definition read {V} (s : State V) (key : string) : option V :=
  value <$> entries s !! key.

(** Every entry written by a site with a delay has a pending timer on its
    key that is due at the end of the delay at the latest. *)
Definition covered {V} (s : State V) : Prop :=
  ∀ key e delay,
    entries s !! key = Some e → ttl (writtenBy e) = Some delay →
    ∃ due, (due, key) ∈ timers s ∧ (due ≤ writtenAt e + delay)%Z.

(** Entries are written at the time of the clock, which only advances. *)
Definition past {V} (s : State V) : Prop :=
  ∀ key e, entries s !! key = Some e → (writtenAt e ≤ now s)%Z.

(** [cache.set(key, v)] *)
Definition mapSet {V} (site : Site) (key : string) (v : V) (s : State V)
    : State V :=
  mkState (now s) (<[key := mkEntry v site (now s)]> (entries s)) (timers s).

(** [setTimeout(() => cache.delete(key), delay)] *)
Definition setTimeoutDelete {V} (delay : Z) (key : string) (s : State V)
    : State V :=
  mkState (now s) (entries s) (timers s ++ [((now s + delay)%Z, key)]).

(** The writes of the program.  Each function looks the key up, awaits its
    collaborator on a miss, and then runs the statements below in one
    piece; what other functions do to the cache during the wait comes
    before them in the history. *)

(** [listFoldersWithCache]:
    [this.fileListCache.set(cacheKey, folders);
     setTimeout(() => this.fileListCache.delete(cacheKey), 10 * 60 * 1000)]
    with [cacheKey = `folders_${parentFolderId}`]. *)
Definition listFoldersWithCache_stores {V} (parentFolderId : string)
    (folders : V) (s : State V) : State V :=
  let cacheKey := "folders_" +:+ parentFolderId in
  setTimeoutDelete (10 * 60 * 1000) cacheKey
    (mapSet ListFolders cacheKey folders s).

(** [listPDFFilesWithCache]:
    [this.fileListCache.set(cacheKey, files);
     setTimeout(() => this.fileListCache.delete(cacheKey), 5 * 60 * 1000)]
    with [cacheKey = `pdfs_${folderId}`]. *)
Definition listPDFFilesWithCache_stores {V} (folderId : string) (files : V)
    (s : State V) : State V :=
  let cacheKey := "pdfs_" +:+ folderId in
  setTimeoutDelete (5 * 60 * 1000) cacheKey
    (mapSet ListPDFFiles cacheKey files s).

(** [getFileMetadataWithCache]:
    [this.metadataCache.set(fileId, metadata);
     setTimeout(() => this.metadataCache.delete(fileId), 15 * 60 * 1000)]. *)
Definition getFileMetadataWithCache_stores {V} (fileId : string)
    (metadata : V) (s : State V) : State V :=
  setTimeoutDelete (15 * 60 * 1000) fileId
    (mapSet FileMetadata fileId metadata s).

(** [executeDownload]:
    [if (buffer.length < 5 * 1024 * 1024) {
       this.downloadCache.set(fileId, buffer);
       setTimeout(() => this.downloadCache.delete(fileId), 30 * 60 * 1000); }]. *)
Definition executeDownload_stores {V} (fileId : string) (buffer : V)
    (bufferLength : Z) (s : State V) : State V :=
  if decide (bufferLength < 5 * 1024 * 1024)%Z
  then setTimeoutDelete (30 * 60 * 1000) fileId
         (mapSet DownloadedBytes fileId buffer s)
  else s.

(** [findRelevantPolicies]:
    [this.relevanceScoringCache.set(questionSignature, relevantPolicies);
     setTimeout(() => this.relevanceScoringCache.delete(questionSignature),
                30 * 60 * 1000)]. *)
Definition findRelevantPolicies_stores {V} (questionSignature : string)
    (relevantPolicies : V) (s : State V) : State V :=
  setTimeoutDelete (30 * 60 * 1000) questionSignature
    (mapSet RelevanceScoring questionSignature relevantPolicies s).

(** [getPolicyFileId]: [this.policyFileIdCache.set(cacheKey, file.id)] with
    [cacheKey = `${policyInfo.subfolder}_${policyInfo.pdf_name}`]; no
    timer. *)
Definition getPolicyFileId_stores {V} (subfolder pdf_name : string)
    (fileId : V) (s : State V) : State V :=
  mapSet PolicyFileId (subfolder +:+ "_" +:+ pdf_name) fileId s.

(** [batchDownloadPolicies]: [this.cache.set(cacheKey, content)] with
    [cacheKey = `policy_${policy.subfolder}_${policy.pdf_name}`]; no
    timer. *)
Definition batchDownloadPolicies_stores {V} (subfolder pdf_name : string)
    (content : V) (s : State V) : State V :=
  mapSet PolicyContent ("policy_" +:+ subfolder +:+ "_" +:+ pdf_name) content s.

(** [analyzyePolicyWithCache]: [this.cache.set(cacheKey, evidence)]; no
    timer. *)
Definition analyzyePolicyWithCache_stores {V} (cacheKey : string)
    (evidence : V) (s : State V) : State V :=
  mapSet AnalysisResult cacheKey evidence s.

(** What happens to a cache, in the order in which it happens. *)
Inductive Event (V : Type) :=
| FoldersListed (parentFolderId : string) (folders : V)
| FilesListed (folderId : string) (files : V)
| MetadataRead (fileId : string) (metadata : V)
| Downloaded (fileId : string) (buffer : V) (bufferLength : Z)
| Ranked (questionSignature : string) (relevantPolicies : V)
| FileIdResolved (subfolder pdf_name : string) (fileId : V)
| ContentExtracted (subfolder pdf_name : string) (content : V)
| Analysed (cacheKey : string) (evidence : V)
| TimerRuns (i : nat)
    (* the event loop runs the callback of the pending timer number [i] *)
| TimePasses (ms : Z)
| Cleared.
    (* [clearCache], [clearCaches], [clearAllCaches]: [cache.clear()] *)
Arguments FoldersListed {V} parentFolderId folders.
Arguments FilesListed {V} folderId files.
Arguments MetadataRead {V} fileId metadata.
Arguments Downloaded {V} fileId buffer bufferLength.
Arguments Ranked {V} questionSignature relevantPolicies.
Arguments FileIdResolved {V} subfolder pdf_name fileId.
Arguments ContentExtracted {V} subfolder pdf_name content.
Arguments Analysed {V} cacheKey evidence.
Arguments TimerRuns {V} i.
Arguments TimePasses {V} ms.
Arguments Cleared {V}.

(** One event.  The event loop runs a callback only when it is due, and
    the clock does not run backwards: such events change nothing. *)
Definition step {V} (s : State V) (event : Event V) : State V :=
  match event with
  | FoldersListed parentFolderId folders =>
      listFoldersWithCache_stores parentFolderId folders s
  | FilesListed folderId files => listPDFFilesWithCache_stores folderId files s
  | MetadataRead fileId metadata => getFileMetadataWithCache_stores fileId metadata s
  | Downloaded fileId buffer bufferLength =>
      executeDownload_stores fileId buffer bufferLength s
  | Ranked questionSignature relevantPolicies =>
      findRelevantPolicies_stores questionSignature relevantPolicies s
  | FileIdResolved subfolder pdf_name fileId =>
      getPolicyFileId_stores subfolder pdf_name fileId s
  | ContentExtracted subfolder pdf_name content =>
      batchDownloadPolicies_stores subfolder pdf_name content s
  | Analysed cacheKey evidence => analyzyePolicyWithCache_stores cacheKey evidence s
  | TimerRuns i => default s (act s (Fire i))
  | TimePasses ms => default s (act s (Wait ms))
  | Cleared => mkState (now s) ∅ (timers s)
  end.

Definition history {V} (s : State V) (events : list (Event V)) : State V :=
  foldl step s events.

(** The callbacks that are due at time [now], run in the order in which
    their timers were armed: the entries, and the timers that stay. *)
Fixpoint runDue {V} (now : Z) (entries : gmap string (Entry V))
    (timers : list (Z * string))
    : gmap string (Entry V) * list (Z * string) :=
  match timers with
  | [] => (entries, [])
  | (due, key) :: rest =>
      if decide (due ≤ now)%Z
      then runDue now (delete key entries) rest
      else let '(entries', rest') := runDue now entries rest in
           (entries', (due, key) :: rest')
  end.

(** The cache once the event loop has run every callback that is due. *)
Definition runDueTimers {V} (s : State V) : State V :=
  let '(entries', timers') := runDue (now s) (entries s) (timers s) in
  mkState (now s) entries' timers'.

(** What the specification announces: every cache gives its entries a
    lifetime after which no read returns them. *)
Definition announcedExpiry (V : Type) : Prop :=
  ∀ site, ∃ lifetime : Z,
    ∀ events key e,
      entries (history (@empty V) events) !! key = Some e →
      writtenBy e = site →
      (now (history (@empty V) events) < writtenAt e + lifetime)%Z.

End Cache.

(** ** BatchOrchestrator ([ParallelProcessor]) *)

Module Orchestrator.

(** A question id is a number or a string; as the key of the object
    [evidenceByQuestion] it is its property key, a string. *)
Inductive QuestionId :=
| IdNum (n : Z)
| IdStr (s : string).

#[global] Instance QuestionId_eq_dec : EqDecision QuestionId.
Proof. solve_decision. Defined.

Definition propertyKey (id : QuestionId) : string :=
  match id with
  | IdNum n => pretty n
  | IdStr s => s
  end.

Module Question.
Record t := mk {
  id : QuestionId;
  text : string;
  category : string;
  keywords : list string;
  description : string;
  requiresEvidence : bool;
}.
End Question.

(** A scored policy: [{ ...policy, score }]. *)
Module Policy.
Record t := mk {
  subfolder : string;
  pdf_name : string;
  category : string;
  keywords : list string;
  short_description : string;
  score : Z;
}.
End Policy.

(** The object built by [searchForComplianceEvidence].  [answer] and
    [confidence] are whatever strings the model wrote; the data model
    expects yes/no/partial and high/medium/low. *)
Module Evidence.
Record t := mk {
  docName : string;
  subfolder : string;
  answer : string;
  evidence : string;
  pageReference : option string;
  confidence : string;
  explanation : string;
  score : Z;
}.
End Evidence.

Module Stats.
Record t := mk {
  totalQuestions : nat;
  questionsProcessed : nat;
  totalPoliciesChecked : nat;
  evidenceFound : nat;
  compliantAnswers : nat;
  nonCompliantAnswers : nat;
  cacheHits : nat;
  downloadTime : Z;
  analysisTime : Z;
}.
End Stats.

(** The constructor's constants. *)
Definition maxConcurrentQuestions : nat := 3.
Definition maxConcurrentPolicies : nat := 5.
Definition maxConcurrentDownloads : nat := 8.

(** [createBatches(array, batchSize)]:
    [for (let i = 0; i < array.length; i += batchSize)]; with a positive
    [batchSize] the loop ends within [array.length] iterations. *)
Fixpoint createBatches_loop {A} (fuel : nat) (array : list A)
    (batchSize i : nat) : list (list A) :=
  match fuel with
  | 0 => []
  | S fuel =>
      if i <? length array
      then Js.slice array i batchSize
             :: createBatches_loop fuel array batchSize (i + batchSize)
      else []
  end.

Definition createBatches {A} (array : list A) (batchSize : nat) : list (list A) :=
  createBatches_loop (length array) array batchSize 0.

(** The collaborators of a run: the ranker, the content store, the
    reasoning dispatcher and the clock. *)
Record World := mkWorld {
  (* [optimizedPolicyService.findRelevantPolicies(question, 10)] *)
  findRelevantPolicies : Question.t → settled (list Policy.t);
  (* [optimizedPolicyService.batchCheckPolicyExistence(policies)] *)
  batchCheckPolicyExistence : list Policy.t → settled (list bool);
  (* the callback of [batchDownloadPolicies]: the text, or [null] *)
  downloadPolicy : Policy.t → option string;
  (* [analyzyePolicyWithCache(question, policyText, policy)] *)
  analyzyePolicyWithCache :
    Question.t → string → Policy.t → settled (option Evidence.t);
  (* [Date.now() - downloadStartTime] *)
  downloadElapsed : Question.t → Z;
  (* [Date.now() - analysisStartTime] of the policy batch number [b] *)
  analysisElapsed : Question.t → nat → Z;
}.

(** [batchDownloadPolicies(policies)]: batch after batch, the outcome of
    every download ([null] for one that failed). *)
Definition batchDownloadPolicies (w : World) (policies : list Policy.t)
    : list (option string) :=
  let downloadBatches := createBatches policies maxConcurrentDownloads in
  foldl (λ allContents batch, allContents ++ (downloadPolicy w <$> batch))
        [] downloadBatches.

(** What a question task does to the shared [processingStats] between two
    of its [await]s, step by step, and its pauses. *)
Inductive Update :=
| AddDownloadTime (ms : Z)
| AddAnalysisTime (ms : Z)
| PolicyOutcome (result : settled (option Evidence.t))
| Pause (ms : Z).

(** The body of [batchResults.forEach] on the statistics. *)
Definition recordOutcome (stats : Stats.t) (result : settled (option Evidence.t)) : Stats.t :=
  match result with
  | fulfilled (Some value) =>
      let stats :=
        Stats.mk (Stats.totalQuestions stats) (Stats.questionsProcessed stats)
                 (Stats.totalPoliciesChecked stats + 1)
                 (Stats.evidenceFound stats + 1)
                 (Stats.compliantAnswers stats) (Stats.nonCompliantAnswers stats)
                 (Stats.cacheHits stats) (Stats.downloadTime stats)
                 (Stats.analysisTime stats) in
      if decide (Evidence.answer value = "yes") then
        Stats.mk (Stats.totalQuestions stats) (Stats.questionsProcessed stats)
                 (Stats.totalPoliciesChecked stats) (Stats.evidenceFound stats)
                 (Stats.compliantAnswers stats + 1) (Stats.nonCompliantAnswers stats)
                 (Stats.cacheHits stats) (Stats.downloadTime stats)
                 (Stats.analysisTime stats)
      else if decide (Evidence.answer value = "no") then
        Stats.mk (Stats.totalQuestions stats) (Stats.questionsProcessed stats)
                 (Stats.totalPoliciesChecked stats) (Stats.evidenceFound stats)
                 (Stats.compliantAnswers stats) (Stats.nonCompliantAnswers stats + 1)
                 (Stats.cacheHits stats) (Stats.downloadTime stats)
                 (Stats.analysisTime stats)
      else stats
  | fulfilled None =>
      Stats.mk (Stats.totalQuestions stats) (Stats.questionsProcessed stats)
               (Stats.totalPoliciesChecked stats + 1) (Stats.evidenceFound stats)
               (Stats.compliantAnswers stats) (Stats.nonCompliantAnswers stats)
               (Stats.cacheHits stats) (Stats.downloadTime stats)
               (Stats.analysisTime stats)
  | rejected _ => stats
  end.

Definition applyUpdate (stats : Stats.t) (u : Update) : Stats.t :=
  match u with
  | AddDownloadTime ms =>
      Stats.mk (Stats.totalQuestions stats) (Stats.questionsProcessed stats)
               (Stats.totalPoliciesChecked stats) (Stats.evidenceFound stats)
               (Stats.compliantAnswers stats) (Stats.nonCompliantAnswers stats)
               (Stats.cacheHits stats) (Stats.downloadTime stats + ms)
               (Stats.analysisTime stats)
  | AddAnalysisTime ms =>
      Stats.mk (Stats.totalQuestions stats) (Stats.questionsProcessed stats)
               (Stats.totalPoliciesChecked stats) (Stats.evidenceFound stats)
               (Stats.compliantAnswers stats) (Stats.nonCompliantAnswers stats)
               (Stats.cacheHits stats) (Stats.downloadTime stats)
               (Stats.analysisTime stats + ms)
  | PolicyOutcome result => recordOutcome stats result
  | Pause _ => stats
  end.

(** The promises of one policy batch, settled.  The objects of
    [existingPolicies] are pairwise distinct, so
    [existingPolicies.findIndex(p => p === policy)] is the position of the
    policy itself: batch number times batch size plus the index in the
    batch. *)
Definition analyzeBatch (w : World) (question : Question.t)
    (policyContents : list (option string)) (b : nat)
    (policyBatch : list Policy.t) : list (settled (option Evidence.t)) :=
  imap (λ batchIndex policy,
          let globalIndex := b * maxConcurrentPolicies + batchIndex in
          match policyContents !! globalIndex with
          | Some (Some policyText) =>
              if decide (policyText = EmptyString) then fulfilled None
              else analyzyePolicyWithCache w question policyText policy
          | _ => fulfilled None
          end)
       policyBatch.

(** [candidates.push(result.value)] for the results of a batch. *)
Definition candidatesOf (batchResults : list (settled (option Evidence.t)))
    : list Evidence.t :=
  omap (λ result, match result with
                  | fulfilled (Some value) => Some value
                  | _ => None
                  end) batchResults.

(** The loop over the policy batches: the updates of the statistics and the
    candidates, in the order met. *)
Definition analyzePolicies (w : World) (question : Question.t)
    (existingPolicies : list Policy.t) (policyContents : list (option string))
    : list Update * list Evidence.t :=
  let policyBatches := createBatches existingPolicies maxConcurrentPolicies in
  foldl (λ acc item,
           let '(b, policyBatch) := item in
           let batchResults := analyzeBatch w question policyContents b policyBatch in
           (acc.1 ++ [AddAnalysisTime (analysisElapsed w question b)]
                  ++ (PolicyOutcome <$> batchResults)
                  ++ (if b <? length policyBatches - 1 then [Pause 500] else []),
            acc.2 ++ candidatesOf batchResults))
        ([], []) (imap pair policyBatches).

(** [confidenceOrder[c]] and [answerOrder[a]]; [None] is [undefined]. *)
Definition confidenceOrder (c : string) : option Z :=
  if decide (c = "high") then Some 3%Z
  else if decide (c = "medium") then Some 2%Z
  else if decide (c = "low") then Some 1%Z
  else None.
Definition answerOrder (a : string) : option Z :=
  if decide (a = "yes") then Some 3%Z
  else if decide (a = "no") then Some 2%Z
  else if decide (a = "partial") then Some 1%Z
  else None.

(** [x - y] on numbers that may be [undefined]: NaN ([None]) then. *)
Definition num_sub (x y : option Z) : option Z :=
  match x, y with
  | Some a, Some b => Some (a - b)%Z
  | _, _ => None
  end.

(** The comparator of [candidates.sort]; [NaN !== 0] holds. *)
Definition compareCandidates (a b : Evidence.t) : option Z :=
  let confDiff :=
    num_sub (confidenceOrder (Evidence.confidence b))
            (confidenceOrder (Evidence.confidence a)) in
  if decide (confDiff ≠ Some 0%Z) then confDiff
  else
    let answerDiff :=
      num_sub (answerOrder (Evidence.answer b)) (answerOrder (Evidence.answer a)) in
    if decide (answerDiff ≠ Some 0%Z) then answerDiff
    else Some (Evidence.score b - Evidence.score a)%Z.

(** [processQuestionParallel(question, policyIndex, processingStats)]: the
    updates it makes to the shared statistics, in order, and how its
    promise settles. *)
Definition processQuestionParallel (w : World) (question : Question.t)
    : list Update * settled (list Evidence.t) :=
  match findRelevantPolicies w question with
  | rejected error => ([], rejected error)
  | fulfilled relevantPolicies =>
      if length relevantPolicies =? 0 then ([], fulfilled [])
      else
        match batchCheckPolicyExistence w relevantPolicies with
        | rejected error => ([], rejected error)
        | fulfilled policyChecks =>
            let existingPolicies :=
              omap (λ item, if decide (policyChecks !! item.1 = Some true)
                            then Some item.2 else None)
                   (imap pair relevantPolicies) in
            if length existingPolicies =? 0 then ([], fulfilled [])
            else
              let policyContents := batchDownloadPolicies w existingPolicies in
              let '(updates, candidates) :=
                analyzePolicies w question existingPolicies policyContents in
              (AddDownloadTime (downloadElapsed w question) :: updates,
               fulfilled (Js.sort compareCandidates candidates))
        end
  end.

(** The candidates of a question in the order met, before the sort. *)
Definition candidatesMet (w : World) (question : Question.t) : list Evidence.t :=
  match findRelevantPolicies w question with
  | rejected _ => []
  | fulfilled relevantPolicies =>
      match batchCheckPolicyExistence w relevantPolicies with
      | rejected _ => []
      | fulfilled policyChecks =>
          let existingPolicies :=
            omap (λ item, if decide (policyChecks !! item.1 = Some true)
                          then Some item.2 else None)
                 (imap pair relevantPolicies) in
          (analyzePolicies w question existingPolicies
             (batchDownloadPolicies w existingPolicies)).2
      end
  end.

(** The state of a run of [processQuestionsInParallel]. *)
Record RunState := mkRunState {
  evidenceByQuestion : Js.object (list Evidence.t);
  processingStats : Stats.t;
}.

Definition initialState (questions : list Question.t) : RunState :=
  mkRunState Js.object_empty (Stats.mk (length questions) 0 0 0 0 0 0 0 0).

(** The atomic steps of a run: a step of one of the question tasks, the
    collection of one settled result, the pause between two batches. *)
Inductive Event :=
| TaskStep (u : Update)
| Collected (question : Question.t) (result : settled (list Evidence.t))
| Sleep (ms : Z).

Definition countProcessed (stats : Stats.t) : Stats.t :=
  Stats.mk (Stats.totalQuestions stats) (Stats.questionsProcessed stats + 1)
           (Stats.totalPoliciesChecked stats) (Stats.evidenceFound stats)
           (Stats.compliantAnswers stats) (Stats.nonCompliantAnswers stats)
           (Stats.cacheHits stats) (Stats.downloadTime stats)
           (Stats.analysisTime stats).

Definition applyEvent (st : RunState) (e : Event) : RunState :=
  match e with
  | TaskStep u => mkRunState (evidenceByQuestion st) (applyUpdate (processingStats st) u)
  | Collected question result =>
      (* the body of [batchResults.forEach] *)
      match result with
      | fulfilled value =>
          (* [evidenceByQuestion[question.id] = result.value] *)
          mkRunState (Js.object_set (evidenceByQuestion st)
                        (propertyKey (Question.id question)) value)
                     (countProcessed (processingStats st))
      | rejected _ =>
          (* [evidenceByQuestion[question.id] = []] *)
          mkRunState (Js.object_set (evidenceByQuestion st)
                        (propertyKey (Question.id question)) [])
                     (countProcessed (processingStats st))
      end
  | Sleep _ => st
  end.

(** The interleavings of the steps of concurrent tasks. *)
Inductive interleaving {A : Type} : list (list A) → list A → Prop :=
| interleaving_done tasks :
    Forall (λ task, task = []) tasks → interleaving tasks []
| interleaving_step before x task after rest :
    interleaving (before ++ task :: after) rest →
    interleaving (before ++ (x :: task) :: after) (x :: rest).

(** The collection of the settled results of a batch, in the order of the
    batch. *)
Definition collectBatch (w : World) (batch : list Question.t) : list Event :=
  (λ question, Collected question (processQuestionParallel w question).2) <$> batch.

(** The schedules of one batch: the tasks of the batch interleaved, then
    the collection of the results, then the pause unless the batch is the
    last. *)
Definition batchSchedule (w : World) (batch : list Question.t) (last : bool)
    (events : list Event) : Prop :=
  ∃ steps,
    interleaving ((λ question, (processQuestionParallel w question).1) <$> batch) steps ∧
    events = (TaskStep <$> steps) ++ collectBatch w batch
             ++ (if last then [] else [Sleep 1000]).

(** The schedules of a run: batch after batch. *)
Inductive runSchedule (w : World) : list (list Question.t) → list Event → Prop :=
| runSchedule_nil : runSchedule w [] []
| runSchedule_cons batch rest events later :
    batchSchedule w batch (bool_decide (rest = [])) events →
    runSchedule w rest later →
    runSchedule w (batch :: rest) (events ++ later).

(** [processQuestionsInParallel(questions, policyIndex)] under a schedule:
    the [{ evidenceByQuestion, processingStats }] it returns. *)
Definition processQuestionsInParallel_under (questions : list Question.t)
    (events : list Event) : RunState :=
  foldl applyEvent (initialState questions) events.

(** The schedule in which the tasks of a batch run one after the other. *)
Fixpoint sequentialSchedule (w : World) (batches : list (list Question.t)) : list Event :=
  match batches with
  | [] => []
  | batch :: rest =>
      ((TaskStep <$> concat ((λ question, (processQuestionParallel w question).1) <$> batch))
       ++ collectBatch w batch
       ++ (if bool_decide (rest = []) then [] else [Sleep 1000]))
      ++ sequentialSchedule w rest
  end.

Definition processQuestionsInParallel (w : World) (questions : list Question.t) : RunState :=
  processQuestionsInParallel_under questions
    (sequentialSchedule w (createBatches questions maxConcurrentQuestions)).

(** The invariant of the counters. *)
Definition countersConsistent (stats : Stats.t) : Prop :=
  Stats.compliantAnswers stats + Stats.nonCompliantAnswers stats
    ≤ Stats.evidenceFound stats
  ∧ Stats.evidenceFound stats ≤ Stats.totalPoliciesChecked stats.

(** The candidates of the data model: their confidence is one of high,
    medium and low, their answer one of yes, no and partial. *)
Definition inDataModel (e : Evidence.t) : Prop :=
  Evidence.confidence e ∈ ["high"; "medium"; "low"] ∧
  Evidence.answer e ∈ ["yes"; "no"; "partial"].

(** The order the specification announces: high above medium above low,
    yes above no above partial. *)
Inductive confidenceAbove : string → string → Prop :=
| high_above_medium : confidenceAbove "high" "medium"
| high_above_low : confidenceAbove "high" "low"
| medium_above_low : confidenceAbove "medium" "low".

Inductive answerAbove : string → string → Prop :=
| yes_above_no : answerAbove "yes" "no"
| yes_above_partial : answerAbove "yes" "partial"
| no_above_partial : answerAbove "no" "partial".

(** [announcedBefore a b]: [a] may stand before [b]: its confidence is
    above; or the confidences are the same and its answer is above; or
    these are the same too and its score is not lower. *)
Definition announcedBefore (a b : Evidence.t) : Prop :=
  confidenceAbove (Evidence.confidence a) (Evidence.confidence b)
  ∨ (Evidence.confidence a = Evidence.confidence b ∧
     (answerAbove (Evidence.answer a) (Evidence.answer b)
      ∨ (Evidence.answer a = Evidence.answer b ∧
         (Evidence.score b ≤ Evidence.score a)%Z))).

(** The three keys of the order. *)
Definition announcedKey (e : Evidence.t) : string * string * Z :=
  (Evidence.confidence e, Evidence.answer e, Evidence.score e).

(** The numbers the comparator computes with, for a candidate that has
    them. *)
Definition wellFormed (e : Evidence.t) : Prop :=
  is_Some (confidenceOrder (Evidence.confidence e))
  ∧ is_Some (answerOrder (Evidence.answer e)).

Definition sortKey (e : Evidence.t) : Z * Z * Z :=
  (default 0%Z (confidenceOrder (Evidence.confidence e)),
   default 0%Z (answerOrder (Evidence.answer e)),
   Evidence.score e).

Definition rankedBefore (a b : Evidence.t) : Prop :=
  let '(ca, aa, sa) := sortKey a in
  let '(cb, ab, sb) := sortKey b in
  (cb < ca ∨ (cb = ca ∧ (ab < aa ∨ (ab = aa ∧ sb ≤ sa))))%Z.

(** The results collected by a list of events, in order. *)
Definition collections (events : list Event)
    : list (Question.t * settled (list Evidence.t)) :=
  omap (λ e, match e with
             | Collected question result => Some (question, result)
             | _ => None
             end) events.

(** The list stored for a settled task. *)
Definition stored (result : settled (list Evidence.t)) : list Evidence.t :=
  match result with fulfilled value => value | rejected _ => [] end.

(** A sample run: three questions; the ranker fails on question 2; three
    policies are found for the others, of which "c.pdf" cannot be
    downloaded. *)
Definition sampleQuestion (n : Z) : Question.t :=
  Question.mk (IdNum n) "Does the P&P state the retention period?"
              "Privacy & Security" ["privacy"; "retention"] "Retention" true.
Definition samplePolicy (name : string) (score : Z) : Policy.t :=
  Policy.mk "Privacy" name "Privacy & Security" ["privacy"] "Privacy policy" score.
Definition sampleWorld : World :=
  mkWorld
    (λ question,
       if decide (Question.id question = IdNum 2)
       then rejected (ApiError 500 "Policy index not loaded. Call loadPolicyIndex() first.")
       else fulfilled [samplePolicy "a.pdf" 120; samplePolicy "b.pdf" 90;
                       samplePolicy "c.pdf" 60])
    (λ policies, fulfilled ((λ _, true) <$> policies))
    (λ policy, if decide (Policy.pdf_name policy = "c.pdf") then None
               else Some "The retention period is six years.")
    (λ question policyText policy,
       fulfilled (Some (Evidence.mk (Policy.pdf_name policy) (Policy.subfolder policy)
                          (if decide (Policy.pdf_name policy = "a.pdf") then "no" else "yes")
                          "The retention period is six years." None
                          (if decide (Policy.pdf_name policy = "a.pdf")
                           then "medium" else "high")
                          "States the period" (Policy.score policy))))
    (λ _, 40%Z)
    (λ _ _, 900%Z).
Definition sampleQuestions : list Question.t :=
  [sampleQuestion 1; sampleQuestion 2; sampleQuestion 3; sampleQuestion 4].

(** A run in which the model writes the confidence of "b.pdf" in capitals:
    the three policies are met with the confidences low, HIGH and high. *)
Definition capitalsWorld : World :=
  mkWorld
    (λ _, fulfilled [samplePolicy "a.pdf" 120; samplePolicy "b.pdf" 90;
                     samplePolicy "c.pdf" 60])
    (λ policies, fulfilled ((λ _, true) <$> policies))
    (λ _, Some "The retention period is six years.")
    (λ question policyText policy,
       fulfilled (Some (Evidence.mk (Policy.pdf_name policy) (Policy.subfolder policy)
                          "yes" "The retention period is six years." None
                          (if decide (Policy.pdf_name policy = "a.pdf") then "low"
                           else if decide (Policy.pdf_name policy = "b.pdf")
                                then "HIGH" else "high")
                          "States the period" (Policy.score policy))))
    (λ _, 40%Z)
    (λ _ _, 900%Z).

(** A question whose id, as the model wrote it, is the string
    ["__proto__"] (an id has to be truthy, nothing more). *)
Definition protoQuestion : Question.t :=
  Question.mk (IdStr "__proto__") "Does the P&P state the retention period?"
              "Privacy & Security" ["privacy"; "retention"] "Retention" true.

End Orchestrator.

(** ** Sums of scores *)

Module Scoring.
Import Ranker.

(** The sum of [f] over a list. *)
Definition sumZ {A} (f : A → Z) (l : list A) : Z :=
  foldr (λ x acc, (f x + acc)%Z) 0%Z l.

(** The words of the question text that count: longer than 3 characters. *)
Definition questionWords (question : NQuestion.t) : list string :=
  filter (λ word, 3 < Js.length word) (Js.split (NQuestion.text question) " ").

End Scoring.

(** ** [simpleHash] ([ParallelProcessor], [OptimizedPolicyService]) *)

Module Hash.

(** ToInt32: the value of a number as a signed 32-bit integer. *)
Definition toInt32 (z : Z) : Z := ((z + 2 ^ 31) mod 2 ^ 32 - 2 ^ 31)%Z.

(** [str.charCodeAt(i)] *)
Definition charCode (c : ascii) : Z := Z.of_nat (nat_of_ascii c).

(** The body of the loop:
    [hash = ((hash << 5) - hash) + char; hash = hash & hash;].
    [<<] and [&] work on the ToInt32 of their operands and give a signed
    32-bit integer; [-] and [+] are exact on such values. *)
Definition hashStep (hash : Z) (c : ascii) : Z :=
  let char := charCode c in
  let hash := (toInt32 (Z.shiftl (toInt32 hash) 5) - hash + char)%Z in
  Z.land (toInt32 hash) (toInt32 hash).

(** [for (let i = 0; i < str.length; i++)] from the current [hash]. *)
Fixpoint hashLoop (hash : Z) (str : string) : Z :=
  match str with
  | EmptyString => hash
  | String c rest => hashLoop (hashStep hash c) rest
  end.

(** [simpleHash(str)]: [hash.toString()]. *)
Definition simpleHash (str : string) : string := pretty (hashLoop 0 str).

(** Horner's rule with base 31 on the character codes, from [h]. *)
Fixpoint polynomial (h : Z) (str : string) : Z :=
  match str with
  | EmptyString => h
  | String c rest => polynomial (31 * h + charCode c) rest
  end.

End Hash.

(** ** Text preparation: [PDFService.cleanText],
    [OptimizedGeminiService.splitTextIntoChunks], [extractQuestionsFromPDF] *)

Module Text.
Import Orchestrator.

(** The code units below 256 that [\s] and [trim] take for white space:
    TAB, LF, VT, FF, CR, SP and NBSP. *)
Definition isWhiteSpace (c : ascii) : bool :=
  let n := nat_of_ascii c in
  ((9 <=? n) && (n <=? 13)) || (n =? 32) || (n =? 160).

(** [text.replace(/\x00/g, '')] *)
Fixpoint removeNul (text : string) : string :=
  match text with
  | EmptyString => EmptyString
  | String c rest =>
      if Ascii.eqb c "000" then removeNul rest else String c (removeNul rest)
  end.

(** [text.replace(/\r/g, '\n')] *)
Fixpoint crToLf (text : string) : string :=
  match text with
  | EmptyString => EmptyString
  | String c rest =>
      String (if Ascii.eqb c "013" then "010"%char else c) (crToLf rest)
  end.

(** [text.replace(/\s+/g, ' ')]: every maximal run of white space becomes
    one space; [inRun] tells that the previous character was white space. *)
Fixpoint collapse (inRun : bool) (text : string) : string :=
  match text with
  | EmptyString => EmptyString
  | String c rest =>
      if isWhiteSpace c
      then (if inRun then collapse true rest else String " " (collapse true rest))
      else String c (collapse false rest)
  end.

(** [text.trim()] *)
Fixpoint trimStart (text : string) : string :=
  match text with
  | EmptyString => EmptyString
  | String c rest => if isWhiteSpace c then trimStart rest else text
  end.

Fixpoint trimEnd (text : string) : string :=
  match text with
  | EmptyString => EmptyString
  | String c rest =>
      match trimEnd rest with
      | EmptyString => if isWhiteSpace c then EmptyString else String c EmptyString
      | kept => String c kept
      end
  end.

Definition trim (text : string) : string := trimEnd (trimStart text).

(** [cleanText(text)]; [None] is [null] or [undefined]. *)
Definition cleanText (text : option string) : string :=
  match text with
  | None => EmptyString
  | Some text =>
      if decide (text = EmptyString) then EmptyString
      else
        (* Remove null bytes and other problematic characters *)
        let text := crToLf (removeNul text) in
        (* Remove excessive whitespace *)
        let text := trim (collapse false text) in
        text
  end.

(** A text in the form [cleanText] produces: empty, or words of visible
    characters separated by single spaces. [afterSpace] tells that no
    space may come next (at the start and after a space). *)
Fixpoint tidy (afterSpace : bool) (text : string) : bool :=
  match text with
  | EmptyString => negb afterSpace
  | String c rest =>
      if Ascii.eqb c " " then negb afterSpace && tidy true rest
      else negb (isWhiteSpace c) && negb (Ascii.eqb c "000") && tidy false rest
  end.
Definition clean (text : string) : bool :=
  match text with EmptyString => true | _ => tidy true text end.

(** The characters that are neither white space nor NUL, in order. *)
Fixpoint visible (text : string) : list ascii :=
  match text with
  | EmptyString => []
  | String c rest =>
      if isWhiteSpace c || Ascii.eqb c "000" then visible rest
      else c :: visible rest
  end.

(** [text.lastIndexOf(c, from)] for a one-character [c]: the search goes
    down from position [from]; [None] is -1. *)
Fixpoint lastIndexOf (text : string) (c : ascii) (from : nat) : option nat :=
  if decide (String.get from text = Some c) then Some from
  else match from with
       | 0 => None
       | S from => lastIndexOf text c from
       end.

(** [questionBreak > start + chunkSize * 0.7], in the arithmetic of the
    program: [0.7] is the double nearest to 7/10, the product and the sum
    are rounded.  The three numbers are integers that a double holds
    exactly. *)
Definition beyondThreshold (questionBreak start chunkSize : nat) : bool :=
  negb (Qle_bool (inject_Z (Z.of_nat questionBreak))
          (Js.binary64 (inject_Z (Z.of_nat start)
                        + Js.binary64 (inject_Z (Z.of_nat chunkSize)
                                       * Js.binary64 0.7)))).

(** [splitTextIntoChunks(text, chunkSize)]: the [while (start < text.length)]
    loop.  With [chunkSize = 0] the loop does not advance, so the embedding
    counts iterations: [None] means that [fuel] iterations were not enough. *)
Fixpoint splitTextIntoChunks_loop (fuel : nat) (text : string) (chunkSize : nat)
    (start : nat) (chunks : list string) : option (list string) :=
  if start <? Js.length text then
    match fuel with
    | 0 => None
    | S fuel =>
        let end_ := start + chunkSize in
        let end_ :=
          if end_ <? Js.length text then
            match lastIndexOf text "?" end_ with
            | Some questionBreak =>
                if beyondThreshold questionBreak start chunkSize
                then questionBreak + 1 else end_
            | None => end_
            end
          else end_ in
        splitTextIntoChunks_loop fuel text chunkSize end_
          (chunks ++ [Js.substring text start end_])
    end
  else Some chunks.

Definition splitTextIntoChunks (fuel : nat) (text : string) (chunkSize : nat)
    : option (list string) :=
  splitTextIntoChunks_loop fuel text chunkSize 0 [].

(** [const maxTextLength = 30000] *)
Definition maxTextLength : nat := 30 * 1000.

(** A call of [processTextChunk(text, filename, chunkNumber, totalChunks)]. *)
Record ChunkCall := mkChunkCall {
  chunkText : string;
  chunkNumber : nat;
  totalChunks : nat;
}.

(** [q.id = questionIdCounter++] *)
Definition withId (q : Question.t) (id : nat) : Question.t :=
  Question.mk (IdNum (Z.of_nat id)) (Question.text q) (Question.category q)
              (Question.keywords q) (Question.description q)
              (Question.requiresEvidence q).

(** [questions.forEach(q => { q.id = questionIdCounter++; })]: the
    questions with their new ids. *)
Definition renumber (questionIdCounter : nat) (questions : list Question.t)
    : list Question.t :=
  imap (λ i q, withId q (questionIdCounter + i)) questions.

(** [chunks.indexOf(chunk) + 1]; 0 when the chunk is not found (-1 + 1). *)
Definition chunkNumberOf (chunks : list string) (chunk : string) : nat :=
  match list_find (λ c, c = chunk) chunks with
  | Some (i, _) => i + 1
  | None => 0
  end.

(** The body of [batchResults.forEach] in
    [extractQuestionsInChunksParallel]: the state is [allQuestions] and
    [questionIdCounter]. *)
Definition collectChunk (acc : list Question.t * nat)
    (result : settled (list Question.t)) : list Question.t * nat :=
  match result with
  | fulfilled questions =>
      (acc.1 ++ renumber acc.2 questions, acc.2 + length questions)
  | rejected _ => acc
  end.

(** What [processTextChunk] is called with, chunk by chunk. *)
Definition chunkCalls (chunks : list string) (batch : list string) : list ChunkCall :=
  (λ chunk, mkChunkCall chunk (chunkNumberOf chunks chunk) (length chunks)) <$> batch.

(** [extractQuestionsInChunksParallel(pdfText, filename, chunkSize)]: the
    calls of [processTextChunk] it makes, in order, and the questions it
    returns.  [processTextChunk n call] is how the [n]-th call settles (the
    reasoning model behind its queue: what it answers is not constrained).
    The pauses between the batches ([this.sleep(this.adaptiveDelay)]) do
    not bear on the result. *)
Definition extractQuestionsInChunksParallel (fuel : nat)
    (processTextChunk : nat → ChunkCall → settled (list Question.t))
    (pdfText : string) (chunkSize : nat)
    : option (list ChunkCall * list Question.t) :=
  chunks ← splitTextIntoChunks fuel pdfText chunkSize;
  let questionIdCounter := 1 in
  (* 2 chunks at a time to avoid overwhelming API *)
  let chunkBatches := createBatches chunks 2 in
  let '(calls, (allQuestions, _)) :=
    foldl (λ '(calls, acc) batch,
             let batchCalls := chunkCalls chunks batch in
             let batchResults :=
               imap (λ i call, processTextChunk (length calls + i) call) batchCalls in
             (calls ++ batchCalls, foldl collectChunk acc batchResults))
          ([], ([], questionIdCounter)) chunkBatches in
  Some (calls, allQuestions).

(** [extractQuestionsFromPDF(pdfText, filename)]: the calls of
    [processTextChunk] and how the promise settles. *)
Definition extractQuestionsFromPDF (fuel : nat)
    (processTextChunk : nat → ChunkCall → settled (list Question.t))
    (pdfText : string) : option (list ChunkCall * settled (list Question.t)) :=
  if maxTextLength * 2 <? Js.length pdfText then
    r ← extractQuestionsInChunksParallel fuel processTextChunk pdfText maxTextLength;
    Some (r.1, fulfilled r.2)
  else
    let truncatedText :=
      if maxTextLength <? Js.length pdfText
      then Js.substring pdfText 0 maxTextLength +:+ "...[truncated]"
      else pdfText in
    let call := mkChunkCall truncatedText 1 1 in
    Some ([call], processTextChunk 0 call).

(** The questions of a settled chunk, none for one that failed. *)
Definition questionsOf (result : settled (list Question.t)) : list Question.t :=
  match result with fulfilled questions => questions | rejected _ => [] end.

(** Like [tidy], but the text may end with a space. *)
Fixpoint spaced (afterSpace : bool) (text : string) : bool :=
  match text with
  | EmptyString => true
  | String c rest =>
      if Ascii.eqb c " " then negb afterSpace && spaced true rest
      else negb (isWhiteSpace c) && negb (Ascii.eqb c "000") && spaced false rest
  end.

Fixpoint noNul (text : string) : bool :=
  match text with
  | EmptyString => true
  | String c rest => negb (Ascii.eqb c "000") && noNul rest
  end.

(** Where the chunk that starts at [start] ends. *)
Definition chunkEnd (text : string) (chunkSize start : nat) : nat :=
  let end_ := start + chunkSize in
  if end_ <? Js.length text then
    match lastIndexOf text "?" end_ with
    | Some questionBreak =>
        if beyondThreshold questionBreak start chunkSize
        then questionBreak + 1 else end_
    | None => end_
    end
  else end_.

(** A chunk that is not the last is full, or ends after a question mark
    beyond 70% of the chunk size. *)
Definition wholeChunk (chunkSize : nat) (chunk : string) : Prop :=
  7 * chunkSize < 10 * String.length chunk ∧
  (String.length chunk = chunkSize
   ∨ String.get (String.length chunk - 1) chunk = Some "?"%char).

Definition allButLast {A} (P : A → Prop) (l : list A) : Prop :=
  ∀ i x, l !! i = Some x → S i < length l → P x.

(** A text of 164 characters whose only question mark is at position 63:
    with chunks of 90 the threshold [0 + 90 * 0.7] is 62.99999999999999. *)
Definition thresholdText : string :=
  Dispatcher.repeat_char "a" 63 +:+ "?" +:+ Dispatcher.repeat_char "b" 100.

End Text.

(** ** The policy index ([OptimizedPolicyService]) *)

Module Index.
Import Orchestrator Ranker Hash Store.

(** [cache.set(key, v)] followed, where the site has one, by
    [setTimeout(() => cache.delete(key), delay)]. *)
Definition cacheSet {V} (site : Cache.Site) (key : string) (v : V)
    (s : Cache.State V) : Cache.State V :=
  Cache.mkState (Cache.now s)
    (<[key := Cache.mkEntry v site (Cache.now s)]> (Cache.entries s))
    (Cache.timers s ++ Cache.armTimer site (Cache.now s) key).

(** The state of the service. *)
Record Service := mkService {
  policyIndex : list Policy.t;
  isLoaded : bool;
  folderMapping : gmap string string;
  policyFileIdCache : Cache.State string;
  relevanceScoringCache : Cache.State (list Policy.t);
}.

(** The comparison of [Array.prototype.sort()] without a comparator, on
    strings: by code units. *)
Definition compareStrings (a b : string) : option Z :=
  Some (match String.compare a b with Lt => -1 | Eq => 0 | Gt => 1 end)%Z.

(** [createQuestionSignature(question)].  [question.keywords.sort()] sorts
    the array of the question itself: the question is returned with it. *)
Definition createQuestionSignature (question : Question.t) : string * Question.t :=
  let keywords := Js.sort compareStrings (Question.keywords question) in
  let keyData :=
    Js.join "|" [Question.text question; Question.category question;
                 Js.join "," keywords; Question.description question] in
  (simpleHash keyData,
   Question.mk (Question.id question) (Question.text question)
               (Question.category question) keywords
               (Question.description question)
               (Question.requiresEvidence question)).

(** [String(x || 'Other')] *)
Definition orOther (category : string) : string :=
  if decide (category = EmptyString) then "Other" else category.

Definition normalizeQuestion (question : Question.t) : NQuestion.t :=
  NQuestion.mk (Js.toLowerCase <$> Question.keywords question)
               (orOther (Question.category question))
               (Js.toLowerCase (Question.text question))
               (Js.toLowerCase (Question.description question)).

Definition normalizePolicy (policy : Policy.t) : NPolicy.t :=
  NPolicy.mk (Js.toLowerCase <$> Policy.keywords policy)
             (orOther (Policy.category policy))
             (Js.toLowerCase (Policy.short_description policy))
             (Js.toLowerCase (Policy.pdf_name policy)).

(** [{ ...policy, score }] *)
Definition withScore (policy : Policy.t) (score : Z) : Policy.t :=
  Policy.mk (Policy.subfolder policy) (Policy.pdf_name policy)
            (Policy.category policy) (Policy.keywords policy)
            (Policy.short_description policy) score.

(** The score of a policy of the index for a question. *)
Definition scoreOf (question : Question.t) (policy : Policy.t) : Z :=
  calculateRelevanceScore (normalizeQuestion question) (normalizePolicy policy).

(** [(a, b) => b.score - a.score] *)
Definition byScore (a b : Policy.t) : option Z :=
  Some (Policy.score b - Policy.score a)%Z.

Definition setRelevanceScoringCache (service : Service)
    (cache : Cache.State (list Policy.t)) : Service :=
  mkService (policyIndex service) (isLoaded service) (folderMapping service)
            (policyFileIdCache service) cache.

Definition setPolicyFileIdCache (service : Service)
    (cache : Cache.State string) : Service :=
  mkService (policyIndex service) (isLoaded service) (folderMapping service)
            cache (relevanceScoringCache service).

(** [findRelevantPolicies(question, maxResults = 10)]: the service and the
    question afterwards, and the list returned or the error thrown.
    ([policyIndex] is an array in every state of the service.) *)
Definition findRelevantPolicies (service : Service) (question : Question.t)
    (maxResults : nat) : Service * Question.t * settled (list Policy.t) :=
  if negb (isLoaded service) then
    (service, question,
     rejected (ApiError 500 "Policy index not loaded. Call loadPolicyIndex() first."))
  else if length (policyIndex service) =? 0 then (service, question, fulfilled [])
  else
    (* Create cache key for relevance scoring *)
    let '(questionSignature, question) := createQuestionSignature question in
    match Cache.read (relevanceScoringCache service) questionSignature with
    | Some cached => (service, question, fulfilled cached)
    | None =>
        let scoredPolicies :=
          (λ policy, withScore policy (scoreOf question policy))
            <$> policyIndex service in
        (* Sort by score and return top results *)
        let relevantPolicies :=
          take maxResults
            (Js.sort byScore (filter (λ p, (0 < Policy.score p)%Z) scoredPolicies)) in
        (* Cache the result; remove from cache after 30 minutes *)
        (setRelevanceScoringCache service
           (cacheSet Cache.RelevanceScoring questionSignature relevantPolicies
                     (relevanceScoringCache service)),
         question, fulfilled relevantPolicies)
    end.

(** [`${policy.subfolder}_${policy.pdf_name}`] *)
Definition fileIdKey (policy : Policy.t) : string :=
  Policy.subfolder policy +:+ "_" +:+ Policy.pdf_name policy.

(** [this.policyFileIdCache.get(cacheKey)] read as a condition: a file id
    that is not the empty string. *)
Definition cachedFileId (service : Service) (policy : Policy.t) : option string :=
  match Cache.read (policyFileIdCache service) (fileIdKey policy) with
  | Some fileId => if decide (fileId = EmptyString) then None else Some fileId
  | None => None
  end.

(** [getPolicyFileId(policyInfo)]; [None] is a [null] or [undefined]
    argument.  [initialized] is how [ensureInitialized] of the Drive service
    settles, [listPDFFilesWithCache] how its listings do. *)
Definition getPolicyFileId (initialized : settled unit)
    (listPDFFilesWithCache : string → settled (list DriveFile.t))
    (service : Service) (policyInfo : option Policy.t) : Service * settled string :=
  match policyInfo with
  | None => (service, rejected (ApiError 400 "Invalid policy info provided"))
  | Some policyInfo =>
      if decide (Policy.subfolder policyInfo = EmptyString
                 ∨ Policy.pdf_name policyInfo = EmptyString)
      then (service, rejected (ApiError 400 "Invalid policy info provided"))
      else
        match cachedFileId service policyInfo with
        | Some fileId => (service, fulfilled fileId)
        | None =>
            match folderMapping service !! Policy.subfolder policyInfo with
            | Some subfolderId =>
                if decide (subfolderId = EmptyString) then
                  (service,
                   rejected (ApiError 404 ("Subfolder not found: "
                                           +:+ Policy.subfolder policyInfo)))
                else
                  (* try *)
                  let found :=
                    match initialized with
                    | rejected error => rejected error
                    | fulfilled _ =>
                        match findPolicyFileOptimized listPDFFilesWithCache
                                (Policy.pdf_name policyInfo) subfolderId with
                        | Some (Some file) => fulfilled file
                        | _ =>
                            rejected (ApiError 404
                              ("Policy file not found: "
                               +:+ Policy.pdf_name policyInfo +:+ " in "
                               +:+ Policy.subfolder policyInfo))
                        end
                    end in
                  match found with
                  | fulfilled file =>
                      (* Cache the result *)
                      (setPolicyFileIdCache service
                         (cacheSet Cache.PolicyFileId (fileIdKey policyInfo)
                                   (DriveFile.id file) (policyFileIdCache service)),
                       fulfilled (DriveFile.id file))
                  | rejected error =>
                      (* catch: an [ApiError] is thrown again *)
                      match statusCode error with
                      | Some _ => (service, rejected error)
                      | None =>
                          (service,
                           rejected (ApiError 500 ("Error finding policy file: "
                                                   +:+ message error)))
                      end
                  end
            | None =>
                (service,
                 rejected (ApiError 404 ("Subfolder not found: "
                                         +:+ Policy.subfolder policyInfo)))
            end
        end
  end.

(** [checkPolicyExists(policyInfo)] *)
Definition checkPolicyExists (initialized : settled unit)
    (listPDFFilesWithCache : string → settled (list DriveFile.t))
    (service : Service) (policyInfo : option Policy.t) : Service * bool :=
  match getPolicyFileId initialized listPDFFilesWithCache service policyInfo with
  | (service, fulfilled _) => (service, true)
  | (service, rejected _) => (service, false)
  end.

(** [OptimizedDriveService.batchCheckFilesExist(fileIds)]: the [Map] from
    file id to existence.  [metadataCached] is [this.metadataCache.has];
    [driveGet n fileId] tells whether the [files.get] of the request number
    [n] succeeds.  The ids are checked ten at a time. *)
Definition batchCheckFilesExist (initialized : settled unit)
    (metadataCached : string → bool) (driveGet : nat → string → bool)
    (fileIds : list string) : settled (gmap string bool) :=
  match initialized with
  | rejected error => rejected error
  | fulfilled _ =>
      let batches := createBatches fileIds 10 in
      fulfilled
        (foldl (λ '(n, results) batch,
                  let batchResults :=
                    imap (λ i fileId,
                            (fileId,
                             if metadataCached fileId then true
                             else driveGet (n + i) fileId))
                         batch in
                  (n + length batch,
                   foldl (λ results result, <[result.1 := result.2]> results)
                         results batchResults))
               (0, ∅) batches).2
  end.

(** [batchCheckPolicyExistence(policies)] *)
Definition batchCheckPolicyExistence
    (batchCheckFilesExist : list string → settled (gmap string bool))
    (service : Service) (policies : list Policy.t) : settled (list bool) :=
  (* Get file IDs for all policies *)
  let fileIds := omap (cachedFileId service) policies in
  if length fileIds =? 0 then fulfilled ((λ _, false) <$> policies)
  else
    match batchCheckFilesExist fileIds with
    | rejected error => rejected error
    | fulfilled existenceResults =>
        (* Map results back to policies *)
        fulfilled
          ((λ policy,
              match cachedFileId service policy with
              | Some fileId => default false (existenceResults !! fileId)
              | None => false
              end) <$> policies)
    end.

(** A service with its index loaded and nothing cached. *)
Definition loaded (policies : list Policy.t) (folders : gmap string string) : Service :=
  mkService policies true folders Cache.empty Cache.empty.

Definition sampleService : Service :=
  loaded [samplePolicy "c.pdf" 0; samplePolicy "a.pdf" 0;
          Policy.mk "HR" "leave.pdf" "HR" ["leave"] "Leave policy" 0]
         {["Privacy" := "folder1"]}.

(** What [batchCheckFilesExist] writes for the request number [n]. *)
Definition existence (metadataCached : string → bool)
    (driveGet : nat → string → bool) (n : nat) (fileId : string) : string * bool :=
  (fileId, if metadataCached fileId then true else driveGet n fileId).

End Index.

(** ** The analysis of one policy ([analyzyePolicyWithCache],
    [searchForComplianceEvidence]) *)

Module Analysis.
Import Orchestrator Hash Dispatcher.

(** The answer of the model, parsed: [hasAnswer] read as a condition. *)
Record Reply := mkReply {
  hasAnswer : bool;
  confidence : string;
  answer : string;
  evidence : string;
  pageReference : option string;
  explanation : string;
}.

(** The [RangeError] of [positions.push(index)] on an array that is full. *)
Definition RangeError : JsError := Error "Invalid array length".

(** [searchForComplianceEvidence(question, policyText, policyInfo)].  The
    prompt is a fixed text around the question text, the name of the
    document and the truncated policy text; [ask] is how the request and
    the parsing of its answer settle for these three.  [fuel] is the
    number of elements that the array of [findKeywordPositions] takes
    (2^32 - 1 in the language): when the loop goes on beyond it, [push]
    throws, and the truncation, which is called before the [try], leaves
    the function with that error. *)
Definition searchForComplianceEvidence (fuel : nat)
    (ask : string → string → string → settled Reply)
    (question : Question.t) (policyText : string) (policyInfo : Policy.t)
    : settled (option Evidence.t) :=
  match smartTruncatePolicyText fuel policyText (Question.keywords question) with
  | None => rejected RangeError
  | Some smartTruncatedText =>
      match ask (Question.text question) (Policy.pdf_name policyInfo)
                smartTruncatedText with
      | fulfilled analysis =>
          if hasAnswer analysis then
            fulfilled (Some (Evidence.mk (Policy.pdf_name policyInfo)
                               (Policy.subfolder policyInfo)
                               (answer analysis) (evidence analysis)
                               (pageReference analysis) (confidence analysis)
                               (explanation analysis) (Policy.score policyInfo)))
          else fulfilled None
      | rejected error =>
          rejected (ApiError 500 ("Failed to analyze policy: " +:+ message error))
      end
  end.

(** What [ParallelProcessor.cache] holds: the text of a policy (under a
    [policy_...] key) or an evidence object (under an [analysis_...] key). *)
Inductive CacheValue :=
| CachedText (content : string)
| CachedEvidence (evidence : Evidence.t).

(** [`analysis_${questionHash}_${contentHash}`] *)
Definition analysisKey (question : Question.t) (policyText : string) : string :=
  let questionHash := simpleHash (Question.text question) in
  (* Use first 1000 chars for hash *)
  let contentHash := simpleHash (Js.substring policyText 0 1000) in
  "analysis_" +:+ questionHash +:+ "_" +:+ contentHash.

(** [`policy_${policy.subfolder}_${policy.pdf_name}`] *)
Definition contentKey (policy : Policy.t) : string :=
  "policy_" +:+ Policy.subfolder policy +:+ "_" +:+ Policy.pdf_name policy.

(** [analyzyePolicyWithCache(question, policyText, policy)]: the cache
    afterwards and the value the promise is fulfilled with ([None] is
    [null]).  The [catch] turns every error of the search into [null], so
    the promise is always fulfilled: the result is always [Some]. *)
Definition analyzyePolicyWithCache (fuel : nat)
    (ask : string → string → string → settled Reply)
    (cache : Cache.State CacheValue)
    (question : Question.t) (policyText : string) (policy : Policy.t)
    : option (Cache.State CacheValue * option CacheValue) :=
  let cacheKey := analysisKey question policyText in
  match Cache.read cache cacheKey with
  | Some cached => Some (cache, Some cached)
  | None =>
      Some
        match searchForComplianceEvidence fuel ask question policyText policy with
        | fulfilled (Some evidence) =>
            (* Cache the result *)
            (Index.cacheSet Cache.AnalysisResult cacheKey (CachedEvidence evidence) cache,
             Some (CachedEvidence evidence))
        | fulfilled None => (cache, None)
        | rejected _ => (cache, None)
        end
  end.

(** The callback of [batchDownloadPolicies] for one policy, run without
    interruption: the cache afterwards and the value returned. *)
Definition downloadPolicyCached (getPolicyFileId : Policy.t → settled string)
    (extractTextFromDriveFile : string → settled string)
    (cache : Cache.State CacheValue) (policy : Policy.t)
    : Cache.State CacheValue * option CacheValue :=
  let cacheKey := contentKey policy in
  match Cache.read cache cacheKey with
  | Some cached => (cache, Some cached)
  | None =>
      match getPolicyFileId policy with
      | rejected _ => (cache, None)
      | fulfilled fileId =>
          match extractTextFromDriveFile fileId with
          | rejected _ => (cache, None)
          | fulfilled content =>
              (Index.cacheSet Cache.PolicyContent cacheKey (CachedText content) cache,
               Some (CachedText content))
          end
      end
  end.

(** The uses of the cache by the two functions. *)
Inductive Use :=
| Analyze (fuel : nat) (ask : string → string → string → settled Reply)
          (question : Question.t) (policyText : string) (policy : Policy.t)
| Download (getPolicyFileId : Policy.t → settled string)
           (extractTextFromDriveFile : string → settled string)
           (policy : Policy.t)
| Evict (action : Cache.Action CacheValue).
    (* [clearCache], or time passing *)

Definition use (cache : Cache.State CacheValue) (u : Use)
    : option (Cache.State CacheValue) :=
  match u with
  | Analyze fuel ask question policyText policy =>
      fst <$> analyzyePolicyWithCache fuel ask cache question policyText policy
  | Download getPolicyFileId extractTextFromDriveFile policy =>
      Some (downloadPolicyCached getPolicyFileId extractTextFromDriveFile
              cache policy).1
  | Evict action =>
      match action with
      | Cache.Write _ _ _ => None
      | _ => Cache.act cache action
      end
  end.

Fixpoint uses (cache : Cache.State CacheValue) (us : list Use)
    : option (Cache.State CacheValue) :=
  match us with
  | [] => Some cache
  | u :: rest => match use cache u with Some cache => uses cache rest | None => None end
  end.

(** In the one [Map], texts sit under [policy_] keys and evidence under
    [analysis_] keys. *)
Definition sorted (cache : Cache.State CacheValue) : Prop :=
  ∀ key e, Cache.entries cache !! key = Some e →
    match Cache.value e with
    | CachedText _ => ∃ rest, key = "policy_" +:+ rest
    | CachedEvidence _ => ∃ rest, key = "analysis_" +:+ rest
    end.

(** A sample answer of the model, the evidence it gives for "a.pdf", and
    the cache after a download and an analysis of that policy. *)
Definition sampleAsk (text name content : string) : settled Reply :=
  fulfilled (mkReply true "high" "yes" "The retention period is six years."
                     None "States the period").
Definition sampleEvidence : Evidence.t :=
  Evidence.mk "a.pdf" "Privacy" "yes" "The retention period is six years." None
              "high" "States the period" 120.
Definition sampleCache : Cache.State CacheValue :=
  Index.cacheSet Cache.AnalysisResult
    (analysisKey (sampleQuestion 1) "The retention period is six years.")
    (CachedEvidence sampleEvidence)
    (Index.cacheSet Cache.PolicyContent (contentKey (samplePolicy "a.pdf" 120))
       (CachedText "The retention period is six years.") Cache.empty).

End Analysis.

(** ** The request queues ([OptimizedGeminiService.processQueue],
    [OptimizedDriveService.processDownloadQueue]) *)

Module Limiter.

(** The two queues differ by their constants. *)
Record Config := mkConfig {
  initialLimit : Z;   (* [maxConcurrentRequests = 3], [maxConcurrentDownloads = 6] *)
  ceiling : Z;        (* [adjustConcurrencyLimits]: at most 5, at most 10 *)
}.
Definition gemini : Config := mkConfig 3 5.
Definition drive : Config := mkConfig 6 10.

Section Queue.
Context {R : Type}.

(** The queue, the counter of active requests and the limit; the timers
    [setTimeout(() => this.processQueue(), 100)] that are pending.  The
    program keeps no more; [enqueued], [started] and [inFlight] record, to
    state the properties, the requests queued so far, those started so far
    (both in order) and those started whose [finally] callback has not
    run. *)
Record State := mkState {
  requestQueue : list R;
  activeRequests : Z;
  maxConcurrentRequests : Z;
  timers : nat;
  enqueued : list R;
  started : list R;
  inFlight : list R;
}.

Definition initial (c : Config) : State :=
  mkState [] 0 (initialLimit c) 0 [] [] [].

(** The loop of [processQueue]:
    [while (queue.length > 0 && active < max) { request = queue.shift();
    active++; this.executeRequest(request)... }].  The guard before the
    loop returns in the cases where the loop would not run
    ([processingQueue] is false whenever a callback starts: it is set and
    reset within one call). *)
Fixpoint processQueue_loop (queue : list R) (active max : Z)
    (started inFlight : list R) : list R * Z * list R * list R :=
  match queue with
  | [] => ([], active, started, inFlight)
  | request :: rest =>
      if (active <? max)%Z
      then processQueue_loop rest (active + 1)%Z max
             (started ++ [request]) (inFlight ++ [request])
      else (queue, active, started, inFlight)
  end.

Definition processQueue (s : State) : State :=
  let '(queue, active, started, inFlight) :=
    processQueue_loop (requestQueue s) (activeRequests s) (maxConcurrentRequests s)
                      (started s) (inFlight s) in
  mkState queue active (maxConcurrentRequests s) (timers s) (enqueued s)
          started inFlight.

Inductive Event :=
| Enqueue (request : R)
    (* [queuedGeminiRequest], [downloadFileQueued] on a cache miss:
       [queue.push(request); this.processQueue()] *)
| Complete (i : nat)
    (* the request number [i] in flight has settled: the timer is armed
       and the [finally] callback runs, [active--] *)
| Tick
    (* a timer fires: [this.processQueue()] *)
| Adjust (limit : Z).
    (* [adjustConcurrencyLimits(limit)] *)

(** One event; [None] when it cannot happen (no such request in flight, no
    timer pending). *)
Definition step (c : Config) (s : State) (e : Event) : option State :=
  match e with
  | Enqueue request =>
      Some (processQueue
              (mkState (requestQueue s ++ [request]) (activeRequests s)
                       (maxConcurrentRequests s) (timers s)
                       (enqueued s ++ [request]) (started s) (inFlight s)))
  | Complete i =>
      match inFlight s !! i with
      | Some _ =>
          Some (mkState (requestQueue s) (activeRequests s - 1)
                        (maxConcurrentRequests s) (timers s + 1)
                        (enqueued s) (started s) (delete i (inFlight s)))
      | None => None
      end
  | Tick =>
      match timers s with
      | 0 => None
      | S pending =>
          Some (processQueue
                  (mkState (requestQueue s) (activeRequests s)
                           (maxConcurrentRequests s) pending
                           (enqueued s) (started s) (inFlight s)))
      end
  | Adjust limit =>
      Some (mkState (requestQueue s) (activeRequests s)
                    (Z.max 1 (Z.min limit (ceiling c))) (timers s)
                    (enqueued s) (started s) (inFlight s))
  end.

Fixpoint run (c : Config) (s : State) (events : list Event) : option State :=
  match events with
  | [] => Some s
  | e :: rest => match step c s e with Some s => run c s rest | None => None end
  end.

End Queue.
Arguments State R : clear implicits.
Arguments Event R : clear implicits.

(** A sample history: four requests are queued (the fourth waits), the
    second completes, the limit is lowered to 1, the timer fires, and the
    limit is raised to 4. *)
Definition sampleEvents : list (Event string) :=
  [Enqueue "a"; Enqueue "b"; Enqueue "c"; Enqueue "d"; Complete 1; Adjust 1;
   Tick; Adjust 4].
Definition sampleState : State string :=
  mkState ["d"] 2 4 0 ["a"; "b"; "c"; "d"] ["a"; "b"; "c"] ["a"; "c"].

(** What holds of the queue whenever a callback starts or ends. *)
Record steady {R : Type} (c : Config) (s : State R) : Prop := {
  steady_active : activeRequests s = Z.of_nat (length (inFlight s));
  steady_limit : (1 ≤ maxConcurrentRequests s ≤ ceiling c)%Z;
  steady_bound : (activeRequests s ≤ ceiling c)%Z;
  steady_order : enqueued s = started s ++ requestQueue s;
  steady_flight : inFlight s `sublist_of` started s;
}.

(** A waiting request will be looked at again. *)
Definition awake {R : Type} (s : State R) : Prop :=
  requestQueue s = [] ∨ inFlight s ≠ [] ∨ 0 < timers s.

(** The events that change the limit. *)
Definition adjusts {R : Type} (e : Event R) : bool :=
  match e with Adjust _ => true | _ => false end.

(** The requests queued by a list of events, in order. *)
Definition requests {R : Type} (events : list (Event R)) : list R :=
  omap (λ e, match e with Enqueue request => Some request | _ => None end) events.

End Limiter.

(** ** What a run returns, policy by policy *)

Module Outcome.
Import Orchestrator.

(** How the analysis of one existing policy settles: [null] when its text
    could not be downloaded or is empty. *)
Definition outcomeFor (w : World) (question : Question.t) (policy : Policy.t)
    : settled (option Evidence.t) :=
  match downloadPolicy w policy with
  | Some policyText =>
      if decide (policyText = EmptyString) then fulfilled None
      else analyzyePolicyWithCache w question policyText policy
  | None => fulfilled None
  end.

(** The outcomes recorded by a list of updates, and the evidence among
    them. *)
Definition outcomesIn (updates : list Update) : list (settled (option Evidence.t)) :=
  omap (λ u, match u with PolicyOutcome result => Some result | _ => None end) updates.

Definition foundIn (updates : list Update) : list Evidence.t :=
  candidatesOf (outcomesIn updates).

(** All the evidence a run returns, question after question. *)
Definition returned (w : World) (questions : list Question.t) : list Evidence.t :=
  concat ((λ question, stored (processQuestionParallel w question).2) <$> questions).

(** The updates made by an event. *)
Definition updateOf (e : Event) : option Update :=
  match e with TaskStep u => Some u | _ => None end.

(** The evidence counters after a list of updates. *)
Definition tallied (stats : Stats.t) (found : list Evidence.t) (stats' : Stats.t)
    : Prop :=
  Stats.evidenceFound stats' = Stats.evidenceFound stats + length found ∧
  Stats.compliantAnswers stats' =
    Stats.compliantAnswers stats
    + length (filter (λ e, Evidence.answer e = "yes") found) ∧
  Stats.nonCompliantAnswers stats' =
    Stats.nonCompliantAnswers stats
    + length (filter (λ e, Evidence.answer e = "no") found).

End Outcome.

(** ** What a folder's listing makes of a request *)

Module Resolution.
Import Store.

(** The value [batchFindPolicyFiles] writes for a request of the folder
    [folder]: the match in the folder's listing, [null] when the listing
    was rejected. *)
Definition resolutionIn (listPDFFilesWithCache : string → settled (list DriveFile.t))
    (folder : string) (req : PolicyRequest.t) : option DriveFile.t :=
  match listPDFFilesWithCache folder with
  | fulfilled allFiles => matchingFile req allFiles
  | rejected _ => None
  end.

Definition resolution (listPDFFilesWithCache : string → settled (list DriveFile.t))
    (req : PolicyRequest.t) : option DriveFile.t :=
  resolutionIn listPDFFilesWithCache (PolicyRequest.subfolderId req) req.

(** The requests of a folder, in the order of the batch. *)
Definition requestsOf (folder : string) (policyRequests : list PolicyRequest.t)
    : list PolicyRequest.t :=
  filter (λ r, PolicyRequest.subfolderId r = folder) policyRequests.

(** [requestsByFolder] once the requests [policyRequests] have been
    pushed. *)
Definition grouped (policyRequests : list PolicyRequest.t)
    (groups : list (string * list PolicyRequest.t)) : Prop :=
  NoDup groups.*1 ∧
  Forall (λ g, g.2 ≠ [] ∧ g.2 = requestsOf g.1 policyRequests) groups ∧
  ∀ r, r ∈ policyRequests → PolicyRequest.subfolderId r ∈ groups.*1.

End Resolution.

(** * Properties *)

(** ** Loops over [seq] *)

Lemma foldl_seq_invariant {St : Type} (P : nat → St → Prop)
    (f : St → nat → St) (s0 : St) (start n : nat) :
  P 0 s0 →
  (∀ k s, k < n → P k s → P (S k) (f s (start + k))) →
  P n (foldl f s0 (seq start n)).
Proof.
  induction n as [|n IH]; intros H0 Hstep; [done|].
  rewrite seq_S, foldl_app. simpl.
  apply Hstep; [lia|]. apply IH; [done|].
  intros k s Hk. apply Hstep. lia.
Qed.

(** ** [Array.prototype.sort] *)

Module JsFacts.

Section Sort.
Context {A : Type} (cmp : A → A → option Z).
Local Abbreviation le := (Js.precedes cmp).

Lemma sort_insert_perm x l : Js.sort_insert cmp x l ≡ₚ x :: l.
Proof.
  induction l as [|y l IH]; simpl; [done|].
  destruct (Js.cmp_le cmp x y); [done|]. rewrite IH. apply Permutation_swap.
Qed.

Lemma sort_perm l : Js.sort cmp l ≡ₚ l.
Proof.
  induction l as [|x l IH]; simpl; [done|].
  by rewrite sort_insert_perm, IH.
Qed.

(** The comparator is consistent on the elements that satisfy [P]. *)
Context (P : A → Prop).
Context (Htotal : ∀ x y, P x → P y → le x y ∨ le y x).
Context (Htrans : ∀ x y z, P x → P y → P z → le x y → le y z → le x z).

Lemma sort_insert_sorted x l :
  P x → Forall P l → StronglySorted le l → StronglySorted le (Js.sort_insert cmp x l).
Proof.
  intros Hx HP Hl. induction Hl as [|y l Hl IH Hy]; simpl.
  { repeat constructor. }
  apply Forall_cons in HP as [HPy HPl].
  destruct (Js.cmp_le cmp x y) eqn:Hxy.
  - constructor; [by constructor|]. constructor; [done|].
    apply Forall_forall. intros z Hz.
    rewrite Forall_forall in Hy, HPl. eauto.
  - constructor; [by apply IH|].
    rewrite sort_insert_perm. constructor; [|done].
    destruct (Htotal x y) as [?|?]; [done|done|congruence|done].
Qed.

Lemma sort_sorted l : Forall P l → StronglySorted le (Js.sort cmp l).
Proof.
  induction l as [|x l IH]; intros HP; simpl; [constructor|].
  apply Forall_cons in HP as [Hx HP].
  apply sort_insert_sorted; [done| |by apply IH].
  by rewrite sort_perm.
Qed.

(** Stability: the elements with one and the same key keep their order. *)
Context {K : Type} `{EqDecision K} (key : A → K).
Context (Hkey : ∀ x y, P x → P y → key x = key y → le x y).

Lemma sort_insert_stable k x l :
  P x → Forall P l →
  filter (λ a, key a = k) (Js.sort_insert cmp x l) =
  filter (λ a, key a = k) (x :: l).
Proof.
  intros Hx HP. induction l as [|y l IH]; simpl; [done|].
  apply Forall_cons in HP as [Hy HP].
  destruct (Js.cmp_le cmp x y) eqn:Hxy; [done|].
  rewrite (filter_cons _ y), IH, !filter_cons by done.
  destruct (decide (key x = k)) as [Hkx|]; [|done].
  destruct (decide (key y = k)) as [Hky|]; [|done].
  rewrite Hkey in Hxy by congruence. done.
Qed.

Lemma sort_stable k l :
  Forall P l →
  filter (λ a, key a = k) (Js.sort cmp l) = filter (λ a, key a = k) l.
Proof.
  induction l as [|x l IH]; intros HP; simpl; [done|].
  apply Forall_cons in HP as [Hx HP].
  rewrite sort_insert_stable by (by rewrite ?sort_perm).
  by rewrite !filter_cons, IH.
Qed.

End Sort.

Lemma StronglySorted_mono {A} (R R' : relation A) l :
  (∀ x y, R x y → R' x y) → StronglySorted R l → StronglySorted R' l.
Proof.
  intros HR. induction 1 as [|x l _ IH Hx]; constructor; [done|].
  eapply Forall_impl; eauto.
Qed.

Lemma StronglySorted_mono_on {A} (P : A → Prop) (R R' : relation A) l :
  Forall P l → (∀ x y, P x → P y → R x y → R' x y) →
  StronglySorted R l → StronglySorted R' l.
Proof.
  intros HP HR. induction 1 as [|x l _ IH Hx]; [constructor|].
  apply Forall_cons in HP as [Hpx HP]. constructor; [by apply IH|].
  rewrite Forall_forall in Hx, HP |- *. eauto.
Qed.

(** Sorting numbers with [(a, b) => a - b]. *)
Lemma sort_numbers (l : list nat) :
  Js.sort (λ a b, Some (Z.of_nat a - Z.of_nat b)%Z) l = merge_sort (≤) l.
Proof.
  apply (@StronglySorted_unique nat (≤) _).
  - eapply StronglySorted_mono;
      [| apply (sort_sorted _ (λ _, True)); [..| by apply Forall_true]].
    + intros x y. unfold Js.precedes, Js.cmp_le. intros ?%Z.leb_le. lia.
    + intros x y _ _. unfold Js.precedes, Js.cmp_le. rewrite !Z.leb_le. lia.
    + intros x y z _ _ _. unfold Js.precedes, Js.cmp_le. rewrite !Z.leb_le. lia.
  - apply StronglySorted_merge_sort; apply _.
  - by rewrite sort_perm, merge_sort_Permutation.
Qed.

End JsFacts.

(** ** RelevanceRanker: [levenshteinDistance] computes the edit distance *)

Module RankerFacts.
Import Ranker.

Section Table.
Context (a b : string).

Lemma lev_table_0_l j : lev_table a b 0 j = j.
Proof. done. Qed.

Lemma lev_table_0_r i : lev_table a b i 0 = i.
Proof. by destruct i. Qed.

Lemma lev_table_S i j :
  lev_table a b (S i) (S j) =
    (lev_table a b i (S j) + 1) `min`
    ((lev_table a b (S i) j + 1) `min`
     (lev_table a b i j +
        (if decide (String.get i b = String.get j a) then 0 else 1))).
Proof. done. Qed.

(** One more character on either side costs at most one more edit. *)
Lemma lev_table_step_row i j : lev_table a b (S i) j ≤ lev_table a b i j + 1.
Proof.
  destruct j as [|j]; [rewrite !lev_table_0_r; lia|].
  rewrite lev_table_S. lia.
Qed.

Lemma lev_table_step_col i j : lev_table a b i (S j) ≤ lev_table a b i j + 1.
Proof.
  destruct i as [|i]; [rewrite !lev_table_0_l; lia|].
  rewrite lev_table_S. lia.
Qed.

(** ... and saves at most one. *)
Lemma lev_table_back_row i j : lev_table a b i j ≤ lev_table a b (S i) j + 1.
Proof.
  induction j as [|j IH]; [rewrite !lev_table_0_r; lia|].
  rewrite lev_table_S.
  pose proof (lev_table_step_col i j). lia.
Qed.

Lemma lev_table_back_col i j : lev_table a b i j ≤ lev_table a b i (S j) + 1.
Proof.
  induction i as [|i IH]; [rewrite !lev_table_0_l; lia|].
  rewrite lev_table_S.
  pose proof (lev_table_step_row i j). lia.
Qed.

(** The recurrence in the form the program uses: on equal characters the
    diagonal entry is taken without looking at the two neighbours. *)
Lemma lev_table_code i j :
  lev_table a b (S i) (S j) =
    if decide (String.get i b = String.get j a) then lev_table a b i j
    else (lev_table a b i j + 1) `min`
         ((lev_table a b (S i) j + 1) `min` (lev_table a b i (S j) + 1)).
Proof.
  rewrite lev_table_S.
  pose proof (lev_table_back_row i j). pose proof (lev_table_back_col i j).
  case_decide; lia.
Qed.

End Table.

Lemma lev_table_sym a b i j : lev_table a b i j = lev_table b a j i.
Proof.
  revert j. induction i as [|i IHi]; intros j.
  - by rewrite lev_table_0_l, lev_table_0_r.
  - induction j as [|j IHj].
    + by rewrite lev_table_0_l, lev_table_0_r.
    + rewrite !lev_table_S, IHj, !IHi.
      destruct (decide (String.get i b = String.get j a)),
               (decide (String.get j a = String.get i b)); try congruence; lia.
Qed.

Lemma levenshtein_sym a b : levenshtein a b = levenshtein b a.
Proof. apply lev_table_sym. Qed.

Section Matrix.
Context (a b : string) (n2 : nat).

Lemma table_upto_ext w w' :
  (∀ r, r ≤ n2 → w r = w' r) → table_upto a b n2 w = table_upto a b n2 w'.
Proof.
  intros Hw. unfold table_upto. apply list_fmap_ext.
  intros k r Hr. apply lookup_seq in Hr as [-> ?]. simpl. rewrite Hw; [done|lia].
Qed.

Lemma table_upto_row w r :
  r ≤ n2 → table_upto a b n2 w !! r = Some (lev_table a b r <$> seq 0 (w r)).
Proof.
  intros Hr. unfold table_upto. rewrite list_lookup_fmap.
  by rewrite (lookup_seq_lt 0 (S n2) r) by lia.
Qed.

Lemma mget_table_upto w r c :
  r ≤ n2 → c < w r → mget (table_upto a b n2 w) r c = lev_table a b r c.
Proof.
  intros Hr Hc. unfold mget. rewrite table_upto_row by done. simpl.
  rewrite list_lookup_fmap. by rewrite (lookup_seq_lt 0 (w r) c) by lia.
Qed.

(** Writing the next entry of row [r] widens that row by one. *)
Lemma mset_table_upto w r :
  r ≤ n2 →
  mset (table_upto a b n2 w) r (w r) (lev_table a b r (w r)) =
  table_upto a b n2 (widen w r (S (w r))).
Proof.
  intros Hr. unfold mset. rewrite table_upto_row by done.
  unfold Js.array_set. rewrite length_fmap, length_seq.
  rewrite (proj2 (Nat.ltb_ge _ _)) by lia. rewrite Nat.sub_diag. simpl.
  apply list_eq. intros k.
  destruct (decide (k = r)) as [->|Hk].
  - rewrite list_lookup_insert_eq
      by (unfold table_upto; rewrite length_fmap, length_seq; lia).
    rewrite table_upto_row by done. unfold widen. rewrite decide_True by done.
    by rewrite seq_S, fmap_app.
  - rewrite list_lookup_insert_ne by done.
    destruct (decide (k ≤ n2)).
    + rewrite !table_upto_row by done. unfold widen. by rewrite decide_False.
    + unfold table_upto. rewrite !list_lookup_fmap.
      by rewrite !lookup_seq_ge by lia.
Qed.

Lemma mset_table_upto_at w r c :
  r ≤ n2 → w r = c →
  mset (table_upto a b n2 w) r c (lev_table a b r c) =
  table_upto a b n2 (widen w r (S c)).
Proof. intros Hr <-. by apply mset_table_upto. Qed.

(** Overwriting an entry that is already there with the same value. *)
Lemma mset_table_upto_same w r c :
  r ≤ n2 → c < w r →
  mset (table_upto a b n2 w) r c (lev_table a b r c) = table_upto a b n2 w.
Proof.
  intros Hr Hc. unfold mset. rewrite table_upto_row by done.
  unfold Js.array_set. rewrite length_fmap, length_seq.
  rewrite (proj2 (Nat.ltb_lt _ _)) by lia.
  apply list_insert_id. rewrite table_upto_row by done. f_equal.
  symmetry. apply list_insert_id. rewrite list_lookup_fmap.
  by rewrite (lookup_seq_lt 0 (w r) c) by lia.
Qed.

Lemma init_rows_table : init_rows n2 = table_upto a b n2 (λ _, 1).
Proof.
  unfold init_rows, table_upto. apply list_fmap_ext.
  intros k r _. simpl. by rewrite lev_table_0_r.
Qed.

Lemma init_row0_table n1 :
  init_row0 n1 (table_upto a b n2 (λ _, 1)) =
  table_upto a b n2 (widen (λ _, 1) 0 (S n1)).
Proof.
  unfold init_row0. change (seq 0 (S n1)) with (0 :: seq 1 n1). cbn [foldl].
  pose proof (mset_table_upto_same (λ _, 1) 0 0) as Hsame.
  rewrite lev_table_0_l in Hsame. rewrite Hsame by lia. clear Hsame.
  apply (foldl_seq_invariant
           (λ k m, m = table_upto a b n2 (widen (λ _, 1) 0 (S k)))).
  - apply table_upto_ext. intros r _. unfold widen. by case_decide.
  - intros k m _ ->.
    pose proof (mset_table_upto_at (widen (λ _, 1) 0 (S k)) 0 (S k)) as Hset.
    rewrite lev_table_0_l in Hset. simpl. rewrite Hset; [|lia|done].
    apply table_upto_ext. intros r _. unfold widen. by case_decide.
Qed.

(** The widths once the rows [0..k] are complete. *)
Lemma fill_cell_table w i j :
  S i ≤ n2 → w (S i) = S j → S j < w i →
  fill_cell a b (table_upto a b n2 w) (S i) (S j) =
  table_upto a b n2 (widen w (S i) (S (S j))).
Proof.
  intros Hi Hrow Hprev. unfold fill_cell, Js.charAt. simpl.
  rewrite !Nat.sub_0_r.
  rewrite (mget_table_upto w i j), (mget_table_upto w (S i) j),
    (mget_table_upto w i (S j)) by lia.
  rewrite <- (mset_table_upto_at w (S i) (S j)) by done.
  rewrite lev_table_code. by case_decide.
Qed.

Lemma fill_row_table n1 i :
  S i ≤ n2 →
  foldl (λ m j, fill_cell a b m (S i) j)
        (table_upto a b n2 (λ r, if decide (r ≤ i) then S n1 else 1))
        (seq 1 n1) =
  table_upto a b n2 (λ r, if decide (r ≤ S i) then S n1 else 1).
Proof.
  intros Hi.
  set (w0 := λ r, if decide (r ≤ i) then S n1 else 1).
  assert (foldl (λ m j, fill_cell a b m (S i) j) (table_upto a b n2 w0)
            (seq 1 n1) = table_upto a b n2 (widen w0 (S i) (S n1))) as ->.
  { apply (foldl_seq_invariant
             (λ k m, m = table_upto a b n2 (widen w0 (S i) (S k)))).
    - apply table_upto_ext. intros r _. unfold widen, w0.
      repeat case_decide; lia.
    - intros k m Hk ->. simpl.
      rewrite fill_cell_table; [|done|..].
      + apply table_upto_ext. intros r _. unfold widen. by case_decide.
      + unfold widen. by rewrite decide_True.
      + unfold widen, w0. rewrite decide_False by lia.
        rewrite decide_True by lia. lia. }
  apply table_upto_ext. intros r _. unfold widen, w0. repeat case_decide; lia.
Qed.

End Matrix.

(** [levenshteinDistance] returns entry [(|str2|, |str1|)] of the table of
    the classic recurrence. *)
Lemma levenshteinDistance_table str1 str2 :
  levenshteinDistance str1 str2 = levenshtein str1 str2.
Proof.
  unfold levenshteinDistance, levenshtein, Js.length.
  set (n1 := String.length str1). set (n2 := String.length str2).
  rewrite (init_rows_table str1 str2), init_row0_table.
  assert (fill str1 str2 (table_upto str1 str2 n2 (widen (λ _, 1) 0 (S n1))) =
          table_upto str1 str2 n2 (λ r, if decide (r ≤ n2) then S n1 else 1))
    as ->.
  { unfold fill, Js.length. fold n1 n2.
    pose (P := λ (k : nat) (m : Matrix),
            m = table_upto str1 str2 n2
                  (λ r, if decide (r ≤ k) then S n1 else 1)).
    apply (foldl_seq_invariant P); unfold P.
    - apply table_upto_ext. intros r _. unfold widen.
      repeat case_decide; lia.
    - intros k m Hk ->. simpl. by apply fill_row_table. }
  rewrite mget_table_upto; [done|lia|]. rewrite decide_True by lia. lia.
Qed.

(** *** The table holds the least number of edits *)

Lemma take_chars_all s : take_chars (String.length s) s = s.
Proof. induction s as [|c s IH]; simpl; [done|]. by rewrite IH. Qed.

Lemma take_chars_S j s c :
  String.get j s = Some c →
  take_chars (S j) s = take_chars j s +:+ String c EmptyString.
Proof.
  revert j. induction s as [|d s IH]; intros j; [done|].
  destruct j as [|j].
  - simpl. intros [= ->]. by destruct s.
  - intros Hget. change (String d (take_chars (S j) s)
                         = String d (take_chars j s +:+ String c EmptyString)).
    f_equal. by apply IH.
Qed.

Lemma take_chars_0 s : take_chars 0 s = EmptyString.
Proof. by destruct s. Qed.

Lemma get_in_range j s : j < String.length s → is_Some (String.get j s).
Proof.
  revert j. induction s as [|c s IH]; intros j; simpl; [lia|].
  destruct j; [eauto|]. intros ?. apply IH. lia.
Qed.

Lemma length_snoc s c : String.length (s +:+ String c EmptyString) = S (String.length s).
Proof. induction s as [|d s IH]; simpl; [done|]. by rewrite IH. Qed.

Lemma get_snoc_last s c :
  String.get (String.length s) (s +:+ String c EmptyString) = Some c.
Proof. induction s as [|d s IH]; simpl; done. Qed.

Lemma get_snoc_before s x k :
  k < String.length s → String.get k (s +:+ x) = String.get k s.
Proof. intros Hk. symmetry. by apply String.append_correct1. Qed.

(** An entry of the table depends on the prefixes it compares only. *)
Lemma lev_table_ext a a' b b' i j :
  (∀ k, k < j → String.get k a = String.get k a') →
  (∀ k, k < i → String.get k b = String.get k b') →
  lev_table a b i j = lev_table a' b' i j.
Proof.
  revert j. induction i as [|i IHi]; intros j Ha Hb.
  - by rewrite !lev_table_0_l.
  - induction j as [|j IHj].
    + by rewrite !lev_table_0_r.
    + rewrite !lev_table_S.
      rewrite (IHi (S j)), IHj, (IHi j), (Ha j), (Hb i);
        try done; try lia; intros k Hk; apply Ha || apply Hb; lia.
Qed.

Lemma levenshtein_snoc_l s t c :
  lev_table (s +:+ String c EmptyString) t (String.length t) (String.length s)
  = levenshtein s t.
Proof.
  apply lev_table_ext; [|done]. intros k Hk. by apply get_snoc_before.
Qed.

Lemma levenshtein_snoc_r s t d :
  lev_table s (t +:+ String d EmptyString) (String.length t) (String.length s)
  = levenshtein s t.
Proof.
  apply lev_table_ext; [done|]. intros k Hk. by apply get_snoc_before.
Qed.

Lemma levenshtein_delete s t c :
  levenshtein (s +:+ String c EmptyString) t ≤ levenshtein s t + 1.
Proof.
  unfold levenshtein at 1. rewrite length_snoc.
  etrans; [apply lev_table_step_col|]. by rewrite levenshtein_snoc_l.
Qed.

Lemma levenshtein_insert s t d :
  levenshtein s (t +:+ String d EmptyString) ≤ levenshtein s t + 1.
Proof.
  unfold levenshtein at 1. rewrite length_snoc.
  etrans; [apply lev_table_step_row|]. by rewrite levenshtein_snoc_r.
Qed.

Lemma levenshtein_diagonal s t c d :
  levenshtein (s +:+ String c EmptyString) (t +:+ String d EmptyString)
  ≤ levenshtein s t + (if decide (c = d) then 0 else 1).
Proof.
  unfold levenshtein at 1. rewrite !length_snoc, lev_table_S, !get_snoc_last.
  assert (lev_table (s +:+ String c EmptyString) (t +:+ String d EmptyString)
            (String.length t) (String.length s) = levenshtein s t) as ->.
  { apply lev_table_ext; intros k Hk; by apply get_snoc_before. }
  destruct (decide (c = d)) as [->|Hne].
  - rewrite decide_True by done. lia.
  - rewrite decide_False by congruence. lia.
Qed.

(** No edit script is shorter than the entry of the table. *)
Lemma edits_lower_bound s t n : edits s t n → levenshtein s t ≤ n.
Proof.
  induction 1 as [|s t c n _ IH|s t c d n _ IH|s t c n _ IH|s t d n _ IH].
  - done.
  - pose proof (levenshtein_diagonal s t c c) as Hd.
    rewrite decide_True in Hd by done. lia.
  - pose proof (levenshtein_diagonal s t c d). case_decide; lia.
  - pose proof (levenshtein_delete s t c). lia.
  - pose proof (levenshtein_insert s t d). lia.
Qed.

(** Every entry of the table is the length of an edit script. *)
Lemma edits_table a b i j :
  i ≤ String.length b → j ≤ String.length a →
  edits (take_chars j a) (take_chars i b) (lev_table a b i j).
Proof.
  revert j. induction i as [|i IHi]; intros j Hi Hj.
  - rewrite lev_table_0_l, take_chars_0.
    induction j as [|j IHj]; [rewrite take_chars_0; constructor|].
    destruct (get_in_range j a) as [c Hc]; [lia|].
    rewrite (take_chars_S j a c Hc). apply edits_delete, IHj; lia.
  - destruct (get_in_range i b) as [d Hd]; [lia|].
    induction j as [|j IHj].
    + rewrite lev_table_0_r, (take_chars_S i b d Hd).
      specialize (IHi 0). rewrite lev_table_0_r in IHi.
      apply edits_insert, IHi; lia.
    + destruct (get_in_range j a) as [c Hc]; [lia|].
      rewrite lev_table_S.
      destruct (Nat.min_spec (lev_table a b i (S j) + 1)
                  ((lev_table a b (S i) j + 1) `min`
                   (lev_table a b i j +
                      (if decide (String.get i b = String.get j a) then 0 else 1))))
        as [[_ ->]|[_ ->]].
      { rewrite Nat.add_1_r, (take_chars_S i b d Hd).
        apply edits_insert, IHi; lia. }
      destruct (Nat.min_spec (lev_table a b (S i) j + 1)
                  (lev_table a b i j +
                     (if decide (String.get i b = String.get j a) then 0 else 1)))
        as [[_ ->]|[_ ->]].
      { rewrite Nat.add_1_r, (take_chars_S j a c Hc).
        apply edits_delete, IHj. lia. }
      rewrite (take_chars_S j a c Hc), (take_chars_S i b d Hd), Hd, Hc.
      destruct (decide (Some d = Some c)) as [[= ->]|Hne].
      * rewrite Nat.add_0_r. apply edits_keep, IHi; lia.
      * rewrite Nat.add_1_r. apply edits_substitute, IHi; lia.
Qed.

(** The classic recurrence computes the Levenshtein distance: the length
    of a shortest edit script. *)
Lemma levenshtein_least a b :
  edits a b (levenshtein a b) ∧ ∀ n, edits a b n → levenshtein a b ≤ n.
Proof.
  split; [|apply edits_lower_bound].
  pose proof (edits_table a b (String.length b) (String.length a)) as H.
  rewrite !take_chars_all in H. by apply H.
Qed.

Lemma fuzzyMatch_similarity str1 str2 :
  0 < String.length str1 `max` String.length str2 →
  fuzzyMatch str1 str2 = Qle_bool (7 # 10) (similarity str1 str2).
Proof.
  intros Hlen. unfold fuzzyMatch, fuzzyMatch_with, similarity, Js.length.
  destruct (Nat.ltb_spec (String.length str2) (String.length str1)) as [Hlt|Hle].
  - rewrite (proj2 (Nat.eqb_neq _ 0)) by lia.
    by rewrite levenshteinDistance_table, Nat.max_l by lia.
  - rewrite (proj2 (Nat.eqb_neq _ 0)) by lia.
    by rewrite levenshteinDistance_table, levenshtein_sym, Nat.max_r by lia.
Qed.

(** C3. For two non-empty strings, [fuzzyMatch] answers true exactly when
    the normalized similarity [(longer.length − d) / longer.length] is at
    least 0.7, where [d] is the Levenshtein distance of the classic
    dynamic-programming recurrence (which [levenshteinDistance] computes,
    and which is the length of a shortest edit script);
    a similarity of exactly 0.7 is a match, one strictly below 0.7 is not. *)
Theorem fuzzyMatch_threshold (str1 str2 : string) :
  str1 ≠ EmptyString → str2 ≠ EmptyString →
  levenshteinDistance str1 str2 = levenshtein str1 str2 ∧
  (edits str1 str2 (levenshtein str1 str2) ∧
   ∀ n, edits str1 str2 n → levenshtein str1 str2 ≤ n) ∧
  (fuzzyMatch str1 str2 = true ↔ (7 # 10 <= similarity str1 str2)%Q) ∧
  (similarity str1 str2 == 7 # 10 → fuzzyMatch str1 str2 = true)%Q ∧
  (similarity str1 str2 < 7 # 10 → fuzzyMatch str1 str2 = false)%Q.
Proof.
  intros H1 H2.
  assert (0 < String.length str1 `max` String.length str2) as Hlen.
  { destruct str1; [done|]. simpl. lia. }
  split; [apply levenshteinDistance_table|].
  split; [apply levenshtein_least|].
  rewrite fuzzyMatch_similarity by done.
  split; [apply Qle_bool_iff|]. split.
  - intros Heq. apply Qle_bool_iff. rewrite Heq. apply Qle_refl.
  - intros Hlt. apply not_true_is_false. intros Hle%Qle_bool_iff.
    by apply Qlt_not_le in Hlt.
Qed.

(** The similarity, evaluated through the program's matrix. *)
Lemma similarity_matrix a b :
  similarity a b =
  let longest := String.length a `max` String.length b in
  ((inject_Z (Z.of_nat longest) - inject_Z (Z.of_nat (levenshteinDistance a b)))
   / inject_Z (Z.of_nat longest))%Q.
Proof. unfold similarity. by rewrite levenshteinDistance_table. Qed.

Lemma fuzzyMatch_threshold_witness :
  (similarity "abcdefghij" "abcdefgxyz" == 7 # 10)%Q ∧
  fuzzyMatch "abcdefghij" "abcdefgxyz" = true ∧
  (similarity "abcdefghij" "abcdefgxyzw" < 7 # 10)%Q ∧
  fuzzyMatch "abcdefghij" "abcdefgxyzw" = false.
Proof.
  assert (similarity "abcdefghij" "abcdefgxyz" == 7 # 10)%Q as Hat
    by (rewrite similarity_matrix; by vm_compute).
  assert (similarity "abcdefghij" "abcdefgxyzw" < 7 # 10)%Q as Hbelow
    by (rewrite similarity_matrix; by vm_compute).
  split; [exact Hat|]. split.
  - by apply (fuzzyMatch_threshold "abcdefghij" "abcdefgxyz").
  - split; [exact Hbelow|].
    by apply (fuzzyMatch_threshold "abcdefghij" "abcdefgxyzw").
Defined.

(** *** [calculateRelevanceScore] *)

Lemma foldl_bonus {A} (f : A → bool) (c : Z) (l : list A) (score : Z) :
  foldl (λ score x, if f x then (score + c)%Z else score) score l =
  (score + c * count_if f l)%Z.
Proof.
  unfold count_if. revert score.
  induction l as [|x l IH]; intros score; simpl; [lia|].
  rewrite IH. destruct (f x); simpl length; lia.
Qed.

Lemma scoreKeywordPair_shift q p score :
  scoreKeywordPair q score p = (score + scoreKeywordPair q 0 p)%Z.
Proof.
  unfold scoreKeywordPair.
  destruct (_ || _), (decide _), (fuzzyMatch _ _); lia.
Qed.

Lemma scoreKeywordPairs_shift qs ps score :
  scoreKeywordPairs qs ps score = (score + scoreKeywordPairs qs ps 0)%Z.
Proof.
  assert (∀ q score, foldl (scoreKeywordPair q) score ps =
                     (score + foldl (scoreKeywordPair q) 0 ps)%Z) as Hin.
  { intros q. induction ps as [|p ps IH]; intros sc; simpl; [lia|].
    rewrite IH, (IH (scoreKeywordPair q 0 p)), scoreKeywordPair_shift. lia. }
  unfold scoreKeywordPairs. revert score.
  induction qs as [|q qs IH]; intros score; simpl; [lia|].
  rewrite IH, (IH (foldl _ 0%Z ps)), Hin. lia.
Qed.

(** The score is the sum of its five components. *)
Lemma calculateRelevanceScore_sum question policy :
  calculateRelevanceScore question policy =
  ((if decide (NPolicy.category policy = NQuestion.category question)
    then 50 else 0)
   + scoreKeywordPairs (NQuestion.keywords question) (NPolicy.keywords policy) 0
   + otherBonuses question policy)%Z.
Proof.
  unfold calculateRelevanceScore, otherBonuses.
  rewrite !foldl_bonus, scoreKeywordPairs_shift. case_decide; lia.
Qed.

(** The keyword pairs of the example: the pair ("privacy", "privacy") earns
    20 + 30 + 15 (it is also a fuzzy match), the pair ("security", "secur")
    earns 20, the two mixed pairs earn nothing. *)
Lemma example_keyword_pairs :
  scoreKeywordPair "privacy" 0 "privacy" = 65%Z ∧
  scoreKeywordPair "privacy" 0 "secur" = 0%Z ∧
  scoreKeywordPair "security" 0 "privacy" = 0%Z ∧
  scoreKeywordPair "security" 0 "secur" = 20%Z ∧
  scoreKeywordPairs ["privacy"; "security"] ["privacy"; "secur"] 0 = 85%Z.
Proof. by vm_compute. Qed.

(** C2 (as the code has it). In the example of the specification the score
    is 50 (category) + 20 + 30 + 15 (the pair "privacy"/"privacy": substring,
    exact and fuzzy match) + 20 (the pair "security"/"secur": substring
    only) = 135, plus the description, name and text bonuses. *)
Theorem example_score (category text qdescription pdescription name : string) :
  calculateRelevanceScore (exampleQuestion category text qdescription)
                          (examplePolicy category pdescription name) =
  (50 + (20 + 30 + 15) + 20 +
   otherBonuses (exampleQuestion category text qdescription)
                (examplePolicy category pdescription name))%Z.
Proof.
  rewrite calculateRelevanceScore_sum. simpl NPolicy.category.
  simpl NQuestion.category. rewrite decide_True by done.
  simpl NQuestion.keywords. simpl NPolicy.keywords.
  destruct example_keyword_pairs as (_ & _ & _ & _ & ->). lia.
Qed.

(** C2 (as the specification states it) fails: with empty descriptions,
    name and text no other bonus applies and the score is 135, not 120. *)
Lemma example_score_not_120 :
  otherBonuses (exampleQuestion "Privacy & Security" "" "")
               (examplePolicy "Privacy & Security" "" "") = 0%Z ∧
  calculateRelevanceScore (exampleQuestion "Privacy & Security" "" "")
                          (examplePolicy "Privacy & Security" "" "") = 135%Z ∧
  calculateRelevanceScore (exampleQuestion "Privacy & Security" "" "")
                          (examplePolicy "Privacy & Security" "" "")
  ≠ announcedScore (exampleQuestion "Privacy & Security" "" "")
                   (examplePolicy "Privacy & Security" "" "").
Proof. by vm_compute. Qed.

End RankerFacts.

(** ** ReasoningDispatcher: retry with back-off *)

Module DispatcherFacts.
Import Dispatcher.

Lemma makeGeminiRequest_unfold replies prompt retryCount :
  makeGeminiRequest replies prompt retryCount =
  match attempt (replies retryCount) with
  | fulfilled text => ([GenerateContent prompt], fulfilled text)
  | rejected error =>
      if decide (retryCount < maxRetries) then
        let r := makeGeminiRequest replies prompt (retryCount + 1) in
        (GenerateContent prompt
           :: Sleep (baseDelay * 2 ^ Z.of_nat retryCount)%Z :: r.1, r.2)
      else
        ([GenerateContent prompt],
         rejected (ApiError 500
           ("Gemini API error after " +:+ pretty maxRetries +:+ " retries: "
            +:+ message error)))
  end.
Proof.
  rewrite makeGeminiRequest_equation.
  destruct (attempt (replies retryCount)); [done|].
  by destruct (lt_dec retryCount maxRetries), (decide (retryCount < maxRetries)).
Qed.

(** The first attempt that succeeds among the attempts [from .. from+n-1]. *)
Lemma makeGeminiRequest_first_success replies prompt k text :
  k ≤ 3 → attempt (replies k) = fulfilled text →
  (∀ r, r < k → ∃ e, attempt (replies r) = rejected e) →
  makeGeminiRequest replies prompt 0 = (retrySchedule prompt 0 k, fulfilled text).
Proof.
  intros Hk Hok Hfail.
  assert (∀ n from, from + n = k →
            makeGeminiRequest replies prompt from =
            (retrySchedule prompt from n, fulfilled text)) as Hgen.
  { induction n as [|n IH]; intros from Hfrom.
    - rewrite makeGeminiRequest_unfold.
      replace from with k by lia. by rewrite Hok.
    - rewrite makeGeminiRequest_unfold.
      destruct (Hfail from) as [e ->]; [lia|].
      rewrite decide_True by (unfold maxRetries; lia).
      replace (from + 1) with (S from) by lia.
      rewrite (IH (S from)) by lia. done. }
  by apply Hgen.
Qed.

Lemma makeGeminiRequest_all_fail replies prompt :
  (∀ r, r ≤ 3 → ∃ e, attempt (replies r) = rejected e) →
  ∃ e, attempt (replies 3) = rejected e ∧
  makeGeminiRequest replies prompt 0 =
    (retrySchedule prompt 0 3,
     rejected (ApiError 500
       ("Gemini API error after 3 retries: " +:+ message e))).
Proof.
  intros Hfail.
  destruct (Hfail 0) as [e0 H0]; [lia|]. destruct (Hfail 1) as [e1 H1]; [lia|].
  destruct (Hfail 2) as [e2 H2]; [lia|]. destruct (Hfail 3) as [e3 H3]; [lia|].
  exists e3. split; [done|].
  rewrite makeGeminiRequest_unfold, H0. simpl.
  rewrite makeGeminiRequest_unfold, H1. simpl.
  rewrite makeGeminiRequest_unfold, H2. simpl.
  rewrite makeGeminiRequest_unfold, H3. simpl. done.
Qed.

(** Either some attempt among the first four succeeds (and there is a first
    one), or all four fail. *)
Lemma first_success_or_all_fail replies :
  (∃ k text, k ≤ 3 ∧ attempt (replies k) = fulfilled text ∧
             ∀ r, r < k → ∃ e, attempt (replies r) = rejected e)
  ∨ (∀ r, r ≤ 3 → ∃ e, attempt (replies r) = rejected e).
Proof.
  destruct (attempt (replies 0)) as [t0|e0] eqn:H0.
  { left. exists 0, t0. repeat split; [lia|done|]. intros r Hr. lia. }
  destruct (attempt (replies 1)) as [t1|e1] eqn:H1.
  { left. exists 1, t1. repeat split; [lia|done|].
    intros r Hr. assert (r = 0) as -> by lia. eauto. }
  destruct (attempt (replies 2)) as [t2|e2] eqn:H2.
  { left. exists 2, t2. repeat split; [lia|done|].
    intros r Hr. assert (r = 0 ∨ r = 1) as [-> | ->] by lia; eauto. }
  destruct (attempt (replies 3)) as [t3|e3] eqn:H3.
  { left. exists 3, t3. repeat split; [lia|done|].
    intros r Hr. assert (r = 0 ∨ r = 1 ∨ r = 2) as [-> | [-> | ->]] by lia; eauto. }
  right. intros r Hr.
  assert (r = 0 ∨ r = 1 ∨ r = 2 ∨ r = 3) as [-> | [-> | [-> | ->]]] by lia; eauto.
Qed.

Lemma retrySchedule_attempts prompt from k :
  attempts (retrySchedule prompt from k) = S k.
Proof.
  revert from. induction k as [|k IH]; intros from; [done|].
  unfold attempts in *. simpl. by rewrite IH.
Qed.

Lemma retrySchedule_pauses prompt k :
  k ≤ 3 → pauses (retrySchedule prompt 0 k) = take k [1000; 2000; 4000]%Z.
Proof.
  intros Hk.
  assert (k = 0 ∨ k = 1 ∨ k = 2 ∨ k = 3) as [-> | [-> | [-> | ->]]] by lia; done.
Qed.

(** C5. [makeGeminiRequest] makes at most 4 attempts (one plus at most 3
    retries), pauses 1000, 2000 and 4000 ms before the first, second and
    third retry, fails (with an [ApiError] of status 500) exactly when all 4
    attempts fail, and otherwise returns the text of the first attempt that
    succeeds, without making any further attempt. *)
Theorem makeGeminiRequest_retries (replies : nat → ModelReply) (prompt : string) :
  let run := makeGeminiRequest replies prompt 0 in
  attempts run.1 ≤ 4 ∧
  (∃ k, k ≤ 3 ∧ run.1 = retrySchedule prompt 0 k ∧
        attempts run.1 = S k ∧ pauses run.1 = take k [1000; 2000; 4000]%Z) ∧
  ((∃ e, run.2 = rejected e) ↔
   (∀ r, r ≤ 3 → ∃ e, attempt (replies r) = rejected e)) ∧
  (∀ e, run.2 = rejected e → statusCode e = Some 500) ∧
  (∀ k text, k ≤ 3 → attempt (replies k) = fulfilled text →
     (∀ r, r < k → ∃ e, attempt (replies r) = rejected e) →
     run = (retrySchedule prompt 0 k, fulfilled text)).
Proof.
  intros run. unfold run.
  destruct (first_success_or_all_fail replies)
    as [(k & text & Hk & Hok & Hfail) | Hfail].
  - rewrite (makeGeminiRequest_first_success replies prompt k text) by done.
    cbn [fst snd]. rewrite retrySchedule_attempts.
    split; [lia|]. split.
    { exists k. by rewrite ?retrySchedule_attempts, retrySchedule_pauses. }
    split; [|split].
    + split; [by intros [e ?]|].
      intros Hall. destruct (Hall k Hk) as [e He]. congruence.
    + by intros e ?.
    + intros k' text' Hk' Hok' Hfail'.
      destruct (Nat.lt_trichotomy k k') as [Hlt | [<- | Hgt]].
      * destruct (Hfail' k Hlt) as [e He]. congruence.
      * congruence.
      * destruct (Hfail k' Hgt) as [e He]. congruence.
  - destruct (makeGeminiRequest_all_fail replies prompt Hfail) as (e3 & He3 & ->).
    cbn [fst snd]. split; [rewrite retrySchedule_attempts; lia|]. split.
    { exists 3. by rewrite ?retrySchedule_attempts, retrySchedule_pauses. }
    split; [|split].
    + split; [done|]. eauto.
    + intros e [= <-]. done.
    + intros k text Hk Hok _. destruct (Hfail k Hk) as [e He]. congruence.
Qed.

(** *** Excerpt selection *)

Lemma filter_ext_in {A} (P Q : A → Prop) `{∀ x, Decision (P x)}
    `{∀ x, Decision (Q x)} (l : list A) :
  (∀ x, x ∈ l → P x ↔ Q x) → filter P l = filter Q l.
Proof.
  induction l as [|x l IH]; intros Hl; [done|].
  rewrite !filter_cons.
  rewrite IH by (intros y Hy; apply Hl; by right).
  pose proof (Hl x (list_elem_of_here _ _)) as Hx.
  destruct (decide (P x)), (decide (Q x)); tauto || done.
Qed.

Lemma filter_all {A} (P : A → Prop) `{∀ x, Decision (P x)} (l : list A) :
  (∀ x, x ∈ l → P x) → filter P l = l.
Proof.
  induction l as [|x l IH]; intros Hl; [done|].
  rewrite filter_cons_True by (apply Hl; by left).
  rewrite IH; [done|]. intros y Hy. apply Hl. by right.
Qed.

Lemma filter_none {A} (P : A → Prop) `{∀ x, Decision (P x)} (l : list A) :
  (∀ x, x ∈ l → ¬ P x) → filter P l = [].
Proof.
  induction l as [|x l IH]; intros Hl; [done|].
  rewrite filter_cons_False by (apply Hl; by left).
  apply IH. intros y Hy. apply Hl. by right.
Qed.

Lemma occurrences_go_bounds keyword text p q :
  q ∈ occurrences_go keyword text p → p ≤ q ≤ p + String.length text.
Proof.
  revert p. induction text as [|c rest IH]; intros p; cbn [occurrences_go String.length].
  - destruct keyword; [|by intros ?%elem_of_nil].
    intros ->%list_elem_of_singleton. lia.
  - intros [Hq|Hq]%elem_of_app.
    + destruct (String.prefix keyword (String c rest)); [|by apply elem_of_nil in Hq].
      apply list_elem_of_singleton in Hq as ->. lia.
    + apply IH in Hq. lia.
Qed.

Lemma occurrences_go_inside keyword text p q :
  keyword ≠ EmptyString →
  q ∈ occurrences_go keyword text p → q < p + String.length text.
Proof.
  intros Hk. revert p. induction text as [|c rest IH]; intros p; cbn [occurrences_go String.length].
  - destruct keyword; [done|]. by intros ?%elem_of_nil.
  - intros [Hq|Hq]%elem_of_app.
    + destruct (String.prefix keyword (String c rest)); [|by apply elem_of_nil in Hq].
      apply list_elem_of_singleton in Hq as ->. lia.
    + apply IH in Hq. lia.
Qed.

Lemma occurrences_go_sorted keyword text p :
  StronglySorted lt (occurrences_go keyword text p).
Proof.
  revert p. induction text as [|c rest IH]; intros p; cbn [occurrences_go String.length].
  - destruct keyword; repeat constructor.
  - destruct (String.prefix keyword (String c rest)); cbn [app]; [|apply IH].
    constructor; [apply IH|]. apply Forall_forall.
    intros q Hq%occurrences_go_bounds. lia.
Qed.

(** [String.index] finds the first occurrence at or after its start. *)
Lemma index_head n keyword text p :
  (λ m, p + m) <$> String.index n keyword text =
  head (filter (λ q, p + n ≤ q) (occurrences_go keyword text p)).
Proof.
  revert n p. induction text as [|c rest IH]; intros n p.
  - destruct n, keyword; simpl; try done.
    + rewrite filter_cons_True by lia. simpl. f_equal. lia.
    + rewrite filter_cons_False by lia. done.
  - destruct n as [|n]; cbn [String.index occurrences_go].
    + destruct (String.prefix keyword (String c rest)).
      * simpl. rewrite filter_cons_True by lia. simpl. f_equal. lia.
      * simpl. specialize (IH 0 (S p)).
        rewrite (filter_all (λ q, p + 0 ≤ q)).
        2:{ intros q Hq%occurrences_go_bounds. lia. }
        rewrite (filter_all (λ q, S p + 0 ≤ q)) in IH.
        2:{ intros q Hq%occurrences_go_bounds. lia. }
        rewrite <- IH. destruct (String.index 0 keyword rest); simpl; [|done].
        f_equal. lia.
    + rewrite filter_app.
      rewrite (filter_none _ (if String.prefix _ _ then _ else _)).
      2:{ intros q Hq. destruct (String.prefix _ _); [|by apply elem_of_nil in Hq].
          apply list_elem_of_singleton in Hq as ->. lia. }
      simpl. specialize (IH n (S p)).
      rewrite (filter_ext_in (λ q, p + S n ≤ q) (λ q, S p + n ≤ q))
        by (intros; lia).
      rewrite <- IH. destruct (String.index n keyword rest); simpl; [|done].
      f_equal. lia.
Qed.

Lemma indexOf_head text keyword n :
  keyword ≠ EmptyString →
  Js.indexOf text keyword n = head (filter (λ q, n ≤ q) (occurrences text keyword)).
Proof.
  intros Hk. unfold Js.indexOf, occurrences.
  pose proof (index_head (n `min` String.length text) keyword text 0) as Hhead.
  rewrite (filter_ext_in _ (λ q, n ≤ q)) in Hhead.
  2:{ intros q Hq%occurrences_go_inside; [|done]. lia. }
  rewrite <- Hhead. by destruct (String.index _ _ _).
Qed.

(** In an ascending list, what follows the first element from [n] on is
    what lies beyond that element. *)
Lemma filter_from_head (l : list nat) n m :
  StronglySorted lt l →
  head (filter (λ q, n ≤ q) l) = Some m →
  filter (λ q, n ≤ q) l = m :: filter (λ q, S m ≤ q) l.
Proof.
  induction 1 as [|x l Hl IH Hx]; [done|].
  rewrite Forall_forall in Hx.
  rewrite !filter_cons. destruct (decide (n ≤ x)) as [Hn|Hn].
  - simpl. intros [= ->]. rewrite decide_False by lia. f_equal.
    apply filter_ext_in. intros q Hq%Hx. lia.
  - intros Hhead. rewrite IH by done.
    assert (n ≤ m).
    { assert (m ∈ filter (λ q, n ≤ q) l) as Hm
        by (destruct (filter _ l); simplify_eq/=; by left).
      by apply list_elem_of_filter in Hm as [? _]. }
    by rewrite decide_False by lia.
Qed.

(** The search loop ends for a non-empty keyword and collects the
    occurrences from the current position on. *)
Lemma findKeywordPositions_loop_spec fuel text keyword n positions :
  keyword ≠ EmptyString →
  length (filter (λ q, n ≤ q) (occurrences text keyword)) < fuel →
  findKeywordPositions_loop fuel text keyword (Js.indexOf text keyword n) positions
  = Some (positions ++ filter (λ q, n ≤ q) (occurrences text keyword)).
Proof.
  intros Hk. revert n positions.
  induction fuel as [|fuel IH]; intros n positions Hfuel; [lia|].
  rewrite indexOf_head by done.
  destruct (head _) as [m|] eqn:Hhead.
  - apply filter_from_head in Hhead; [|apply occurrences_go_sorted].
    rewrite Hhead in Hfuel |- *. simpl in Hfuel. cbn [findKeywordPositions_loop].
    replace (m + 1) with (S m) by lia.
    rewrite IH by lia. by rewrite <- app_assoc.
  - apply head_None in Hhead. rewrite Hhead. simpl. by rewrite app_nil_r.
Qed.

Lemma occurrences_length text keyword :
  keyword ≠ EmptyString → length (occurrences text keyword) ≤ String.length text.
Proof.
  intros Hk. unfold occurrences.
  assert (∀ p, length (occurrences_go keyword text p) ≤ String.length text) as H;
    [|apply H].
  induction text as [|c rest IH]; intros p; cbn [occurrences_go String.length].
  - by destruct keyword.
  - rewrite length_app. specialize (IH (S p)).
    destruct (String.prefix _ _); simpl; lia.
Qed.

Lemma findKeywordPositions_spec fuel text keyword :
  keyword ≠ EmptyString → String.length text < fuel →
  findKeywordPositions fuel text keyword = Some (occurrences text keyword).
Proof.
  intros Hk Hfuel. unfold findKeywordPositions.
  pose proof (occurrences_length text keyword Hk).
  rewrite findKeywordPositions_loop_spec.
  - simpl. f_equal. apply filter_all. intros; lia.
  - done.
  - rewrite filter_all by (intros; lia). lia.
Qed.

(** With the empty keyword the search loop never ends: [indexOf] always
    finds it again. *)
Lemma findKeywordPositions_empty_keyword fuel text :
  findKeywordPositions fuel text EmptyString = None.
Proof.
  unfold findKeywordPositions.
  assert (∀ n, ∃ i, Js.indexOf text EmptyString n = Some i) as Hfound.
  { intros n. unfold Js.indexOf.
    pose proof (String.index_correct4 (n `min` String.length text) text) as Hnone.
    destruct (String.index _ _ _); [eauto|]. specialize (Hnone eq_refl). lia. }
  assert (∀ i positions,
            findKeywordPositions_loop fuel text EmptyString (Some i) positions
            = None) as Hloop.
  { induction fuel as [|fuel IH]; intros i positions; [done|]. simpl.
    destruct (Hfound (i + 1)) as [j ->]. apply IH. }
  destruct (Hfound 0) as [i ->]. apply Hloop.
Qed.

Lemma toLowerCase_length s : String.length (Js.toLowerCase s) = String.length s.
Proof. induction s as [|c s IH]; simpl; [done|]. by rewrite IH. Qed.

Lemma toLowerCase_nonempty s : s ≠ EmptyString → Js.toLowerCase s ≠ EmptyString.
Proof. by destruct s. Qed.

(** The first loop of [smartTruncatePolicyText] gathers the occurrences of
    the keywords one keyword after the other. *)
Lemma gather_positions fuel text keywords acc :
  Forall (λ k, k ≠ EmptyString) keywords → String.length text < fuel →
  foldl (λ acc keyword,
           keywordPositions ← acc;
           positions ← findKeywordPositions fuel (Js.toLowerCase text)
                                            (Js.toLowerCase keyword);
           Some (keywordPositions ++ positions))
        (Some acc) keywords
  = Some (acc ++ allOccurrences text keywords).
Proof.
  intros Hk Hfuel. revert acc.
  induction Hk as [|k keywords Hk _ IH]; intros acc; simpl.
  { unfold allOccurrences. simpl. by rewrite app_nil_r. }
  rewrite findKeywordPositions_spec
    by (by apply toLowerCase_nonempty || by rewrite toLowerCase_length).
  simpl. rewrite IH. unfold allOccurrences. simpl. by rewrite app_assoc.
Qed.

(** A search that does not end leaves the whole function without result. *)
Lemma gather_positions_stuck fuel text keywords :
  foldl (λ acc keyword,
           keywordPositions ← acc;
           positions ← findKeywordPositions fuel (Js.toLowerCase text)
                                            (Js.toLowerCase keyword);
           Some (keywordPositions ++ positions))
        None keywords
  = None.
Proof. induction keywords; simpl; done. Qed.

Lemma smartTruncatePolicyText_empty_keyword fuel text before after :
  maxLength < String.length text →
  smartTruncatePolicyText fuel text (before ++ EmptyString :: after) = None.
Proof.
  intros Hlong. unfold smartTruncatePolicyText, Js.length.
  rewrite (proj2 (Nat.leb_gt _ _)) by done.
  rewrite foldl_app. simpl foldl at 1.
  destruct (foldl _ (Some []) before); simpl.
  - rewrite findKeywordPositions_empty_keyword. simpl.
    by rewrite gather_positions_stuck.
  - by rewrite gather_positions_stuck.
Qed.

(** The section around [p]: from [p − 500] (or the start of the text) up to
    [p + 1500] (or the end of the text). *)
Lemma sectionAround_window text p :
  p ≤ String.length text →
  sectionAround text p =
  String.substring (p - 500) ((String.length text `min` (p + 1500)) - (p - 500)) text.
Proof.
  intros Hp. unfold sectionAround, Js.substring, Js.length.
  replace (Z.to_nat (Z.max 0 (Z.of_nat p - 500))) with (p - 500) by lia.
  replace (Z.to_nat (Z.min (Z.of_nat (String.length text)) (Z.of_nat p + 1500)))
    with (String.length text `min` (p + 1500)) by lia.
  f_equal; lia.
Qed.

(** C7 (as the code has it). A text of at most 18000 units is returned
    unchanged.  For a longer text and non-empty keywords the function ends
    and returns the sections [p−500, p+1500) (clamped to the text) around
    all the occurrences [p] of all the keywords, in ascending order of
    position, one section per occurrence, joined by the separator; when
    that result is over 18000 units, or no keyword occurs, it returns the
    first 18000 units followed by the truncation marker. *)
Theorem smartTruncatePolicyText_sections (text : string) (keywords : list string) :
  (String.length text ≤ maxLength →
   ∀ fuel, smartTruncatePolicyText fuel text keywords = Some text) ∧
  (maxLength < String.length text →
   Forall (λ k, k ≠ EmptyString) keywords →
   ∀ fuel, String.length text < fuel →
   let positions := merge_sort (≤) (allOccurrences text keywords) in
   let combined := Js.join sectionSeparator (sectionAround text <$> positions) in
   smartTruncatePolicyText fuel text keywords =
   Some (if (0 <? length positions) && (String.length combined <=? maxLength)
         then combined
         else String.substring 0 maxLength text +:+ truncationMarker)) ∧
  (∀ p, p ≤ String.length text →
     sectionAround text p =
     String.substring (p - 500)
       ((String.length text `min` (p + 1500)) - (p - 500)) text).
Proof.
  split; [|split; [|apply sectionAround_window]].
  - intros Hshort fuel. unfold smartTruncatePolicyText, Js.length.
    by rewrite (proj2 (Nat.leb_le _ _)).
  - intros Hlong Hk fuel Hfuel positions combined.
    unfold smartTruncatePolicyText, Js.length.
    rewrite (proj2 (Nat.leb_gt _ _)) by done.
    rewrite gather_positions by done. cbn [mbind option_bind app].
    rewrite JsFacts.sort_numbers. fold positions. fold combined.
    assert (length (allOccurrences text keywords) = length positions) as ->
      by (unfold positions; by rewrite merge_sort_Permutation).
    assert (truncatedHead text = String.substring 0 maxLength text +:+ truncationMarker)
      as ->.
    { unfold truncatedHead, Js.substring. f_equal.
      rewrite Nat.min_0_l, Nat.min_0_l, Nat.max_0_l, Nat.sub_0_r.
      rewrite Nat.min_l by lia. done. }
    destruct (0 <? length positions); [|done]. simpl.
    by destruct (String.length combined <=? maxLength).
Qed.

Lemma smartTruncatePolicyText_sections_witness :
  smartTruncatePolicyText (S (String.length longText)) longText ["ab"; "a"] =
  Some (sectionAround longText 0 +:+ sectionSeparator +:+ sectionAround longText 0).
Proof.
  assert (maxLength < String.length longText) as Hlong by (vm_compute; lia).
  assert (Forall (λ k, k ≠ EmptyString) ["ab"; "a"]) as Hk by (by repeat constructor).
  rewrite (proj1 (proj2 (smartTruncatePolicyText_sections longText ["ab"; "a"]))
             Hlong Hk (S (String.length longText)) (Nat.lt_succ_diag_r _)).
  by vm_compute.
Defined.

(** C7 (as the specification states it) fails: two keywords that occur at
    the same place give the same section twice. *)
Lemma smartTruncatePolicyText_repeats_sections :
  String.length <$> smartTruncatePolicyText (S (String.length longText))
                      longText ["ab"; "a"] = Some 3005 ∧
  String.length (announcedExcerpt longText ["ab"; "a"]) = 1500 ∧
  smartTruncatePolicyText (S (String.length longText)) longText ["ab"; "a"]
  ≠ Some (announcedExcerpt longText ["ab"; "a"]).
Proof.
  assert (String.length <$> smartTruncatePolicyText (S (String.length longText))
                              longText ["ab"; "a"] = Some 3005) as Hcode
    by (vm_compute; reflexivity).
  assert (String.length (announcedExcerpt longText ["ab"; "a"]) = 1500) as Hspec
    by (vm_compute; reflexivity).
  split; [exact Hcode|]. split; [exact Hspec|].
  intros Heq. rewrite Heq in Hcode. cbn [fmap option_fmap option_map] in Hcode.
  rewrite Hspec in Hcode. injection Hcode as Hcode. lia.
Qed.

(** *** Adaptive delay *)

Lemma recentCalls_length history : length (recentCalls history) ≤ 10.
Proof. unfold recentCalls. rewrite length_drop. lia. Qed.

Lemma recentCalls_suffix history : recentCalls history `suffix_of` history.
Proof. apply suffix_drop. Qed.

Lemma recentCalls_snoc history entry : 0 < length (recentCalls (history ++ [entry])).
Proof. unfold recentCalls. rewrite length_drop, length_app. simpl. lia. Qed.

Lemma failures_count calls :
  length (filter (λ h, HistoryEntry.success h = false) calls) = failuresIn calls.
Proof.
  unfold failuresIn. induction calls as [|h calls IH]; [done|].
  rewrite filter_cons. simpl.
  case_decide as Hs; rewrite Hs || (destruct (HistoryEntry.success h); [|done]);
    simpl; by rewrite IH.
Qed.

Lemma reduce_total calls :
  foldl (λ sum h, (sum + HistoryEntry.duration h)%Z) 0%Z calls = totalDuration calls.
Proof.
  assert (∀ acc, foldl (λ sum h, (sum + HistoryEntry.duration h)%Z) acc calls
                 = (acc + totalDuration calls)%Z) as H.
  { induction calls as [|h calls IH]; intros acc; simpl; [lia|].
    rewrite IH. lia. }
  rewrite H. lia.
Qed.

Lemma averageOf_nonempty calls :
  0 < length calls → averageOf calls = Some (averageDuration calls).
Proof.
  intros Hn. unfold averageOf, averageDuration.
  rewrite (proj2 (Nat.eqb_neq _ 0)) by lia. by rewrite reduce_total.
Qed.

Lemma num_gt_spec q c : num_gt (Some q) c = true ↔ (c < q)%Q.
Proof.
  unfold num_gt. rewrite negb_true_iff, <- not_true_iff_false, Qle_bool_iff.
  split; [apply Qnot_le_lt | apply Qlt_not_le].
Qed.

Lemma num_lt_spec q c : num_lt (Some q) c = true ↔ (q < c)%Q.
Proof.
  unfold num_lt. rewrite negb_true_iff, <- not_true_iff_false, Qle_bool_iff.
  split; [apply Qnot_le_lt | apply Qlt_not_le].
Qed.

(** C6. After a completed call the service keeps the last (at most 10)
    recorded calls and sets the pause from them: with more than 2 failures
    it is multiplied by 1.5 and capped at 5000; otherwise with an average
    duration above 8000 it is multiplied by 1.2 and capped at 3000;
    otherwise with no failure and an average duration under 3000 it is
    multiplied by 0.9 and floored at 500; otherwise it is unchanged. *)
Theorem adjustAdaptiveDelay_rule (st : DelayState) (entry : HistoryEntry.t) :
  let st' := recordCompletion st entry in
  let recent := recentCalls (requestHistory st ++ [entry]) in
  let failures := failuresIn recent in
  let average := averageDuration recent in
  let delay := adaptiveDelay st in
  requestHistory st' = recent ∧
  0 < length recent ≤ 10 ∧
  recent `suffix_of` (requestHistory st ++ [entry]) ∧
  (2 < failures → adaptiveDelay st' = Qmin (delay * 1.5) 5000) ∧
  (failures ≤ 2 → (8000 < average)%Q →
     adaptiveDelay st' = Qmin (delay * 1.2) 3000) ∧
  (failures = 0 → (average <= 8000)%Q → (average < 3000)%Q →
     adaptiveDelay st' = Qmax (delay * 0.9) 500) ∧
  (failures ≤ 2 → (average <= 8000)%Q →
     ¬ (failures = 0 ∧ (average < 3000)%Q) →
     adaptiveDelay st' = delay).
Proof.
  intros st' recent failures average delay.
  pose proof (recentCalls_snoc (requestHistory st) entry) as Hpos.
  pose proof (recentCalls_length (requestHistory st ++ [entry])) as Hlen.
  fold recent in Hpos, Hlen.
  split; [done|]. split; [lia|]. split; [apply recentCalls_suffix|].
  unfold st', recordCompletion, adjustAdaptiveDelay. cbn [adaptiveDelay requestHistory].
  change (Js.slice_last (requestHistory st ++ [entry]) 10) with recent.
  rewrite failures_count, (averageOf_nonempty recent) by done.
  fold failures average delay.
  repeat split.
  - intros Hf. by rewrite (proj2 (Nat.ltb_lt _ _)).
  - intros Hf Havg. rewrite (proj2 (Nat.ltb_ge _ _)) by done.
    by rewrite (proj2 (num_gt_spec _ _)).
  - intros Hf Hle Hlt. rewrite (proj2 (Nat.ltb_ge _ _)) by lia.
    destruct (num_gt (Some average) 8000) eqn:Hgt.
    { apply num_gt_spec in Hgt. by apply Qlt_not_le in Hgt. }
    rewrite (proj2 (Nat.eqb_eq _ _) Hf). cbn [andb].
    by rewrite (proj2 (num_lt_spec _ _)).
  - intros Hf Hle Hnot. rewrite (proj2 (Nat.ltb_ge _ _)) by done.
    destruct (num_gt (Some average) 8000) eqn:Hgt.
    { apply num_gt_spec in Hgt. by apply Qlt_not_le in Hgt. }
    destruct (Nat.eqb_spec failures 0) as [H0|H0]; [|done]. cbn [andb].
    destruct (num_lt (Some average) 3000) eqn:Hlt; [|done].
    apply num_lt_spec in Hlt. by destruct Hnot.
Qed.

Lemma adjustAdaptiveDelay_rule_witness :
  adaptiveDelay (recordCompletion (mkDelayState [fastCall; fastCall] 1000) fastCall)
    = Qmax (1000 * 0.9) 500 ∧
  adaptiveDelay (recordCompletion
                   (mkDelayState [failedCall; fastCall; failedCall] 1000) failedCall)
    = Qmin (1000 * 1.5) 5000.
Proof.
  split.
  - apply (adjustAdaptiveDelay_rule (mkDelayState [fastCall; fastCall] 1000) fastCall);
      by vm_compute.
  - apply (adjustAdaptiveDelay_rule
             (mkDelayState [failedCall; fastCall; failedCall] 1000) failedCall).
    vm_compute. lia.
Defined.

End DispatcherFacts.

(** ** ContentStore: resolving a descriptor to a listed file *)

Module StoreFacts.
Import Store.

(** What the grouping keeps: every request is in the group of its folder,
    and a group holds requests of its folder only. *)
Lemma pushRequest_elem groups req folder requests :
  (folder, requests) ∈ pushRequest groups req →
  (folder, requests) ∈ groups
  ∨ (folder = PolicyRequest.subfolderId req ∧
     ∃ before, requests = before ++ [req] ∧
               (before = [] ∨ (folder, before) ∈ groups)).
Proof.
  induction groups as [|[f rs] groups IH]; simpl.
  - intros Heq%list_elem_of_singleton. injection Heq as -> ->.
    right. split; [done|]. exists []. eauto.
  - case_decide as Hf.
    + intros [Heq|Hin]%elem_of_cons.
      * injection Heq as -> ->. right. split; [done|]. exists rs.
        split; [done|]. right. by left.
      * left. by right.
    + intros [Heq|Hin]%elem_of_cons; [injection Heq as -> ->; left; by left|].
      destruct (IH Hin) as [?|(-> & before & -> & [->|?])].
      * left. by right.
      * right. split; [done|]. exists []. eauto.
      * right. split; [done|]. exists before. split; [done|]. right. by right.
Qed.

Lemma pushRequest_keeps groups req folder requests r :
  (folder, requests) ∈ groups → r ∈ requests →
  ∃ requests', (folder, requests') ∈ pushRequest groups req ∧ r ∈ requests'.
Proof.
  induction groups as [|[f rs] groups IH]; simpl; [by intros ?%elem_of_nil|].
  intros [Heq|Hin]%elem_of_cons Hr.
  - injection Heq as -> ->. case_decide.
    + exists (rs ++ [req]). split; [by left|]. apply elem_of_app. by left.
    + exists rs. split; [by left|done].
  - case_decide.
    + exists requests. split; [by right|done].
    + destruct (IH Hin Hr) as (rs' & ? & ?). exists rs'. split; [by right|done].
Qed.

Lemma pushRequest_adds groups req :
  ∃ requests, (PolicyRequest.subfolderId req, requests) ∈ pushRequest groups req
              ∧ req ∈ requests.
Proof.
  induction groups as [|[f rs] groups IH]; simpl.
  - exists [req]. split; by left.
  - case_decide as Hf.
    + exists (rs ++ [req]). rewrite Hf. split; [by left|].
      apply elem_of_app. right. by left.
    + destruct IH as (rs' & ? & ?). exists rs'. split; [by right|done].
Qed.

Lemma groupByFolder_sound policyRequests folder requests r :
  (folder, requests) ∈ groupByFolder policyRequests → r ∈ requests →
  PolicyRequest.subfolderId r = folder ∧ r ∈ policyRequests.
Proof.
  unfold groupByFolder. revert folder requests r.
  induction policyRequests as [|req l IH] using rev_ind; intros folder requests r.
  { by intros ?%elem_of_nil. }
  rewrite foldl_app. simpl. intros Hin Hr.
  apply pushRequest_elem in Hin as [Hin|(-> & before & -> & Hbefore)].
  - destruct (IH _ _ _ Hin Hr) as [? ?]. split; [done|]. apply elem_of_app. by left.
  - apply elem_of_app in Hr as [Hr|Hr].
    2:{ apply list_elem_of_singleton in Hr as ->. split; [done|].
        apply elem_of_app. right. by left. }
    + destruct Hbefore as [->|Hin]; [by apply elem_of_nil in Hr|].
      destruct (IH _ _ _ Hin Hr) as [? ?]. split; [done|]. apply elem_of_app. by left.
Qed.

Lemma groupByFolder_complete policyRequests r :
  r ∈ policyRequests →
  ∃ requests, (PolicyRequest.subfolderId r, requests) ∈ groupByFolder policyRequests
              ∧ r ∈ requests.
Proof.
  unfold groupByFolder.
  induction policyRequests as [|req l IH] using rev_ind.
  { by intros ?%elem_of_nil. }
  rewrite foldl_app. simpl.
  intros [Hr|Hr]%elem_of_app.
  - destruct (IH Hr) as (rs & Hin & Hrs). by eapply pushRequest_keeps.
  - apply list_elem_of_singleton in Hr as ->. apply pushRequest_adds.
Qed.

(** The effect of the writes of one folder on one key. *)
Lemma write_results_lookup (value : PolicyRequest.t → option DriveFile.t)
    (requests : list PolicyRequest.t) (results : gmap string (option DriveFile.t))
    (key : string) :
  foldl (λ results req, <[resultKey req := value req]> results) results requests
    !! key =
  match last (filter (λ req, resultKey req = key) requests) with
  | Some req => Some (value req)
  | None => results !! key
  end.
Proof.
  induction requests as [|req l IH] using rev_ind; [done|].
  rewrite foldl_app, filter_app. simpl. rewrite filter_cons, filter_nil.
  destruct (decide (resultKey req = key)) as [<-|Hne].
  - by rewrite last_snoc, lookup_insert_eq.
  - by rewrite app_nil_r, lookup_insert_ne.
Qed.

(** C8 fails on the code at the descriptor "Privacy.pdf" with the file
    "privacy_v2.pdf" listed in its folder.  The descriptor's name without
    its extension, "privacy", is contained in the listed name, so the
    descriptor should resolve to that file; [batchFindPolicyFiles] looks
    for the descriptor's whole name, extension included, in the listed
    name, and for the listed name up to its first ['.'] in the
    descriptor's name, finds neither and answers [null].
    [preloadPolicyMetadata], which resolves the same descriptors against
    the same listing, strips the extension from the descriptor's name and
    finds the file. *)
Lemma batchFindPolicyFiles_keeps_extension :
  let request := PolicyRequest.mk "Privacy.pdf" "folder1" in
  let file := DriveFile.mk "f1" "privacy_v2.pdf" in
  batchFindPolicyFiles (sampleListing [file]) [request] !! resultKey request
    = Some None ∧
  findPolicyFileOptimized (sampleListing [file]) "Privacy.pdf" "folder1" = Some None ∧
  Js.includes (Js.toLowerCase (DriveFile.name file))
              (Js.toLowerCase (PolicyRequest.policyName request)) = false ∧
  Js.includes (Js.toLowerCase (DriveFile.name file)) "privacy" = true ∧
  withoutExtension (PolicyRequest.policyName request) = "Privacy" ∧
  List.find (announcedMatch request) [file] = Some file ∧
  List.find (preloadMatches (PolicyRequest.policyName request)) [file] = Some file.
Proof. by vm_compute. Qed.

End StoreFacts.

(** ** The caches *)

Module CacheFacts.
Import Cache.

Section Timers.
Context {V : Type}.
Implicit Types (s : State V) (a : Action V) (event : Event V).

Lemma covered_empty : covered (@empty V).
Proof. intros key e delay. simpl. by rewrite lookup_empty. Qed.

Lemma act_covered s a s' : covered s → act s a = Some s' → covered s'.
Proof.
  intros Hcov. destruct a as [site key v|i|ms|]; simpl.
  - intros [= <-]. intros k e delay. simpl.
    destruct (decide (key = k)) as [->|Hne].
    + rewrite lookup_insert_eq. intros [= <-]. simpl. intros Httl.
      exists (now s + delay)%Z. split; [|lia].
      apply elem_of_app. right. unfold armTimer. rewrite Httl. by left.
    + rewrite lookup_insert_ne by done. intros He Httl.
      destruct (Hcov k e delay He Httl) as (due & Hin & Hle).
      exists due. split; [|done]. apply elem_of_app. by left.
  - destruct (timers s !! i) as [[due key]|] eqn:Hi; [|done].
    case_decide; [|done]. intros [= <-]. intros k e delay. simpl.
    destruct (decide (key = k)) as [->|Hne].
    + by rewrite lookup_delete_eq.
    + rewrite lookup_delete_ne by done. intros He Httl.
      destruct (Hcov k e delay He Httl) as (due' & Hin & Hle).
      exists due'. split; [|done].
      apply list_elem_of_lookup in Hin as [j Hj].
      apply list_elem_of_lookup.
      destruct (decide (j < i)) as [Hlt|Hge].
      * exists j. by rewrite list_lookup_delete_lt.
      * assert (j ≠ i) by (intros ->; congruence).
        exists (pred j). rewrite list_lookup_delete_ge by lia.
        by replace (S (pred j)) with j by lia.
  - case_decide; [|done]. intros [= <-]. done.
  - intros [= <-]. intros k e delay. simpl. by rewrite lookup_empty.
Qed.

(** A write followed by its timer, and a write of a site without timer,
    are the [Write] of the table of delays. *)
Lemma stores_with_timer site key (v : V) delay s :
  ttl site = Some delay →
  act s (Write site key v) = Some (setTimeoutDelete delay key (mapSet site key v s)).
Proof. intros Httl. simpl. unfold armTimer. by rewrite Httl. Qed.

Lemma stores_without_timer site key (v : V) s :
  ttl site = None → act s (Write site key v) = Some (mapSet site key v s).
Proof.
  intros Httl. simpl. unfold armTimer, mapSet. rewrite Httl.
  by rewrite app_nil_r.
Qed.

Lemma step_act s event : step s event = s ∨ ∃ a, act s a = Some (step s event).
Proof.
  destruct event as [id v|id v|id v|id v len|sig v|sub name v|sub name v|k v|i|ms|];
    cbn [step].
  - right. eexists. by apply (stores_with_timer ListFolders).
  - right. eexists. by apply (stores_with_timer ListPDFFiles).
  - right. eexists. by apply (stores_with_timer FileMetadata).
  - unfold executeDownload_stores. case_decide; [|by left].
    right. eexists. by apply (stores_with_timer DownloadedBytes).
  - right. eexists. by apply (stores_with_timer RelevanceScoring).
  - right. eexists. by apply (stores_without_timer PolicyFileId).
  - right. eexists. by apply (stores_without_timer PolicyContent).
  - right. eexists. by apply (stores_without_timer AnalysisResult).
  - destruct (act s (Fire i)) as [s'|] eqn:Hact; [|by left].
    right. by exists (Fire i).
  - destruct (act s (Wait ms)) as [s'|] eqn:Hact; [|by left].
    right. by exists (Wait ms).
  - right. by exists Clear.
Qed.

Lemma history_covered events s : covered s → covered (history s events).
Proof.
  revert s. induction events as [|event events IH]; intros s Hcov; [done|].
  cbn [history foldl]. apply IH.
  destruct (step_act s event) as [->|[a Ha]]; [done|]. by eapply act_covered.
Qed.

Lemma act_past s a s' : past s → act s a = Some s' → past s'.
Proof.
  intros Hpast. destruct a as [site key v|i|ms|]; simpl.
  - intros [= <-] k e. simpl. destruct (decide (key = k)) as [->|Hne].
    + rewrite lookup_insert_eq. intros [= <-]. simpl. lia.
    + rewrite lookup_insert_ne by done. apply (Hpast k e).
  - destruct (timers s !! i) as [[due key]|]; [|done].
    case_decide; [|done]. intros [= <-] k e. simpl.
    intros [_ He]%lookup_delete_Some. by apply (Hpast k e).
  - case_decide; [|done]. intros [= <-] k e. simpl. intros He.
    specialize (Hpast k e He). lia.
  - intros [= <-] k e. simpl. by rewrite lookup_empty.
Qed.

Lemma history_past events s : past s → past (history s events).
Proof.
  revert s. induction events as [|event events IH]; intros s Hpast; [done|].
  cbn [history foldl]. apply IH.
  destruct (step_act s event) as [->|[a Ha]]; [done|]. by eapply act_past.
Qed.

(** What is left after the due callbacks was there before, and no timer
    on its key was due. *)
Lemma runDue_lookup time (m : gmap string (Entry V)) pending key e :
  (runDue time m pending).1 !! key = Some e →
  m !! key = Some e ∧ ∀ due, (due, key) ∈ pending → (time < due)%Z.
Proof.
  revert m. induction pending as [|[due k] rest IH]; intros m; cbn [runDue].
  - intros He. split; [done|]. intros due Hin. by apply elem_of_nil in Hin.
  - case_decide as Hdue.
    + intros [[Hne He]%lookup_delete_Some Hrest]%IH. split; [done|].
      intros due' [Heq|Hin]%elem_of_cons; [congruence|by apply Hrest].
    + destruct (runDue time m rest) as [m' rest'] eqn:Hrun.
      specialize (IH m). rewrite Hrun in IH. cbn [fst] in *.
      intros [He Hrest]%IH. split; [done|].
      intros due' [Heq|Hin]%elem_of_cons; [|by apply Hrest].
      injection Heq as -> _. lia.
Qed.

Lemma runDueTimers_lookup s key e :
  entries (runDueTimers s) !! key = Some e →
  entries s !! key = Some e ∧ ∀ due, (due, key) ∈ timers s → (now s < due)%Z.
Proof.
  unfold runDueTimers.
  pose proof (runDue_lookup (now s) (entries s) (timers s) key e) as Hrun.
  destruct (runDue (now s) (entries s) (timers s)) as [m' ts']. apply Hrun.
Qed.

(** C9 (as the code has it). Take any history of a cache, and let the event
    loop run the timer callbacks that are due.  An entry that a read then
    returns was written in the past, and less than 10 minutes ago by
    [listFoldersWithCache], 5 minutes by [listPDFFilesWithCache], 15 minutes
    by [getFileMetadataWithCache], 30 minutes by [executeDownload] and by
    [findRelevantPolicies]; nothing bounds the age of what
    [getPolicyFileId], [batchDownloadPolicies] and [analyzyePolicyWithCache]
    have written.  A download of 5 MB or more leaves the cache as it was. *)
Theorem no_stale_read (events : list (Event V)) (key : string) (e : Entry V) :
  let s := history empty events in
  entries (runDueTimers s) !! key = Some e →
  read (runDueTimers s) key = Some (value e) ∧
  (writtenAt e ≤ now s)%Z ∧
  match writtenBy e with
  | ListFolders => (now s < writtenAt e + 10 * 60 * 1000)%Z
  | ListPDFFiles => (now s < writtenAt e + 5 * 60 * 1000)%Z
  | FileMetadata => (now s < writtenAt e + 15 * 60 * 1000)%Z
  | DownloadedBytes => (now s < writtenAt e + 30 * 60 * 1000)%Z
  | RelevanceScoring => (now s < writtenAt e + 30 * 60 * 1000)%Z
  | PolicyFileId | PolicyContent | AnalysisResult => True
  end ∧
  ∀ (cache : State V) fileId buffer bufferLength,
    (5 * 1024 * 1024 ≤ bufferLength)%Z →
    step cache (Downloaded fileId buffer bufferLength) = cache.
Proof.
  intros s Hleft. split; [unfold read; by rewrite Hleft|].
  apply runDueTimers_lookup in Hleft as [He Hdue].
  split.
  { apply (history_past events empty) with key; [|done].
    intros k e'. simpl. by rewrite lookup_empty. }
  split.
  - pose proof (history_covered events empty covered_empty key e) as Hcov.
    fold s in Hcov.
    assert (∀ delay, ttl (writtenBy e) = Some delay →
                     (now s < writtenAt e + delay)%Z) as Hage.
    { intros delay Httl. destruct (Hcov delay He Httl) as (due & Hin & Hle).
      specialize (Hdue due Hin). lia. }
    destruct (writtenBy e); try done; by apply Hage.
  - intros cache fileId buffer bufferLength Hlarge. cbn [step].
    unfold executeDownload_stores. by rewrite decide_False by lia.
Qed.

(** What a site without a timer has written is read after any time, also
    once the event loop has run the callbacks that are due. *)
Lemma read_without_timer subfolder pdf_name (fileId : V) ms :
  (0 ≤ ms)%Z →
  let s := history empty [FileIdResolved subfolder pdf_name fileId; TimePasses ms] in
  now s = ms ∧
  entries (runDueTimers s) !! (subfolder +:+ "_" +:+ pdf_name)
  = Some (mkEntry fileId PolicyFileId 0).
Proof.
  intros Hms. cbn [history foldl step act default].
  rewrite decide_True by done. simpl. split; [lia|].
  unfold runDueTimers. simpl. by rewrite lookup_insert_eq.
Qed.

End Timers.

(** The writes of the histories are the writes of the services: what
    [findRelevantPolicies], [getPolicyFileId], [batchDownloadPolicies] and
    [analyzyePolicyWithCache] do to their cache on a miss. *)
Lemma stores_of_the_services :
  (∀ signature (ranked : list Orchestrator.Policy.t) s,
     findRelevantPolicies_stores signature ranked s
     = Index.cacheSet RelevanceScoring signature ranked s) ∧
  (∀ policy (fileId : string) s,
     getPolicyFileId_stores (Orchestrator.Policy.subfolder policy)
       (Orchestrator.Policy.pdf_name policy) fileId s
     = Index.cacheSet PolicyFileId (Index.fileIdKey policy) fileId s) ∧
  (∀ policy (content : Analysis.CacheValue) s,
     batchDownloadPolicies_stores (Orchestrator.Policy.subfolder policy)
       (Orchestrator.Policy.pdf_name policy) content s
     = Index.cacheSet PolicyContent (Analysis.contentKey policy) content s) ∧
  (∀ cacheKey (evidence : Analysis.CacheValue) s,
     analyzyePolicyWithCache_stores cacheKey evidence s
     = Index.cacheSet AnalysisResult cacheKey evidence s).
Proof.
  repeat split; intros;
    unfold findRelevantPolicies_stores, getPolicyFileId_stores,
      batchDownloadPolicies_stores, analyzyePolicyWithCache_stores,
      setTimeoutDelete, mapSet, Index.cacheSet, armTimer, Index.fileIdKey,
      Analysis.contentKey; simpl; by rewrite ?app_nil_r.
Qed.

Lemma no_stale_read_witness :
  let s := history empty [FilesListed "folder1" ["a.pdf"]; TimePasses 299999] in
  read (runDueTimers s) "pdfs_folder1" = Some ["a.pdf"] ∧
  (0 ≤ now s)%Z ∧
  (now s < 0 + 5 * 60 * 1000)%Z ∧
  ∀ (cache : State (list string)) fileId buffer bufferLength,
    (5 * 1024 * 1024 ≤ bufferLength)%Z →
    step cache (Downloaded fileId buffer bufferLength) = cache.
Proof.
  apply (no_stale_read [FilesListed "folder1" ["a.pdf"]; TimePasses 299999]
           "pdfs_folder1" (mkEntry ["a.pdf"] ListPDFFiles 0)).
  by vm_compute.
Defined.

(** C9 (as the specification states it) fails twice.  The cache of resolved
    document identifiers has no expiry at all: what [getPolicyFileId] has
    stored is read back after any time, also when every due callback has
    run, so that no lifetime can be given for it.  And the caches that do
    expire delete by timer: 5 minutes and 1 ms after [listPDFFilesWithCache]
    has stored a listing, a read made before the event loop has run the
    callback still returns it. *)
Lemma caches_outlive_expiry :
  (∀ ms, (0 ≤ ms)%Z →
     let s := history empty [FileIdResolved "Privacy" "a.pdf" "file-1"; TimePasses ms] in
     now s = ms ∧ read (runDueTimers s) "Privacy_a.pdf" = Some "file-1") ∧
  (let s := history empty
              [FilesListed "folder1" ["a.pdf"]; TimePasses (5 * 60 * 1000 + 1)] in
   entries s !! "pdfs_folder1" = Some (mkEntry ["a.pdf"] ListPDFFiles 0) ∧
   now s = (0 + 5 * 60 * 1000 + 1)%Z ∧
   read s "pdfs_folder1" = Some ["a.pdf"] ∧
   read (runDueTimers s) "pdfs_folder1" = None) ∧
  ¬ announcedExpiry string.
Proof.
  split; [|split].
  - intros ms Hms.
    destruct (read_without_timer "Privacy" "a.pdf" "file-1" ms Hms) as [Hnow He].
    split; [done|]. exact (f_equal (fmap value) He).
  - by vm_compute.
  - intros Hann. destruct (Hann PolicyFileId) as [lifetime Hlife].
    destruct (read_without_timer "Privacy" "a.pdf" "file-1" (Z.max 0 lifetime))
      as [Hnow [He _]%runDueTimers_lookup]; [lia|].
    specialize (Hlife _ _ _ He eq_refl). rewrite Hnow in Hlife.
    simpl in Hlife. lia.
Qed.

End CacheFacts.

(** ** BatchOrchestrator *)

Module OrchestratorFacts.
Import Orchestrator.

(** *** Batches *)

Lemma createBatches_loop_concat {A} (array : list A) batchSize fuel i :
  0 < batchSize → length array - i ≤ fuel →
  concat (createBatches_loop fuel array batchSize i) = drop i array.
Proof.
  intros Hsize. revert i. induction fuel as [|fuel IH]; intros i Hfuel; simpl.
  - by rewrite drop_ge by lia.
  - destruct (Nat.ltb_spec i (length array)) as [Hlt|Hge].
    + simpl. rewrite IH by lia. unfold Js.slice.
      by rewrite <- drop_drop, take_drop.
    + by rewrite drop_ge by lia.
Qed.

(** Partitioning keeps the items and their order. *)
Lemma createBatches_concat {A} (array : list A) batchSize :
  0 < batchSize → concat (createBatches array batchSize) = array.
Proof.
  intros Hsize. unfold createBatches.
  rewrite createBatches_loop_concat by lia. done.
Qed.

(** *** The counters *)

Lemma recordOutcome_consistent stats result :
  countersConsistent stats → countersConsistent (recordOutcome stats result).
Proof.
  unfold countersConsistent. intros [H1 H2].
  destruct result as [[value|]|]; simpl; [|lia|done].
  repeat case_decide; simpl; lia.
Qed.

Lemma applyUpdate_consistent stats u :
  countersConsistent stats → countersConsistent (applyUpdate stats u).
Proof.
  destruct u; simpl; [done|done| |done]. apply recordOutcome_consistent.
Qed.

Lemma applyEvent_consistent st e :
  countersConsistent (processingStats st) →
  countersConsistent (processingStats (applyEvent st e)).
Proof.
  destruct e as [u|question [value|error]|ms]; simpl; [|done..].
  apply applyUpdate_consistent.
Qed.

Lemma run_consistent st events :
  countersConsistent (processingStats st) →
  countersConsistent (processingStats (foldl applyEvent st events)).
Proof.
  revert st. induction events as [|e events IH]; intros st Hst; simpl; [done|].
  by apply IH, applyEvent_consistent.
Qed.

(** *** The collected results *)

Lemma applyUpdate_processed stats u :
  Stats.questionsProcessed (applyUpdate stats u) = Stats.questionsProcessed stats.
Proof.
  destruct u as [| |[[value|]|]|]; simpl; try done.
  by repeat case_decide.
Qed.

Lemma run_processed st events :
  Stats.questionsProcessed (processingStats (foldl applyEvent st events)) =
  Stats.questionsProcessed (processingStats st) + length (collections events).
Proof.
  revert st. induction events as [|e events IH]; intros st; simpl; [lia|].
  rewrite IH. destruct e as [u|question [value|error]|ms]; simpl; try lia.
  rewrite applyUpdate_processed. lia.
Qed.

Lemma run_evidence st events :
  evidenceByQuestion (foldl applyEvent st events) =
  foldl (λ obj item, Js.object_set obj (propertyKey (Question.id item.1)) (stored item.2))
        (evidenceByQuestion st) (collections events).
Proof.
  revert st. induction events as [|e events IH]; intros st; simpl; [done|].
  rewrite IH. by destruct e as [u|question [value|error]|ms].
Qed.

Lemma collections_app events1 events2 :
  collections (events1 ++ events2) = collections events1 ++ collections events2.
Proof. apply omap_app. Qed.

Lemma collections_steps steps : collections (TaskStep <$> steps) = [].
Proof. by induction steps. Qed.

Lemma collections_collectBatch w batch :
  collections (collectBatch w batch) =
  (λ question, (question, (processQuestionParallel w question).2)) <$> batch.
Proof.
  unfold collectBatch, collections.
  induction batch as [|q batch IH]; simpl; [done|]. f_equal. apply IH.
Qed.

(** Under every schedule the results are collected once per question, in
    the order of the questions. *)
Lemma runSchedule_collections w batches events :
  runSchedule w batches events →
  collections events =
  (λ question, (question, (processQuestionParallel w question).2))
    <$> concat batches.
Proof.
  induction 1 as [|batch rest events later (steps & _ & ->) _ IH]; [done|].
  rewrite !collections_app, collections_steps, collections_collectBatch, IH.
  assert (collections (if bool_decide (rest = []) then [] else [Sleep 1000]) = [])
    as -> by (by destruct (bool_decide (rest = []))).
  cbn [concat app]. by rewrite fmap_app, app_nil_r.
Qed.

(** *** Schedules exist *)

Lemma interleaving_concat {A} (before tasks : list (list A)) :
  Forall (λ task, task = []) before →
  interleaving (before ++ tasks) (concat tasks).
Proof.
  revert before. induction tasks as [|task tasks IH]; intros before Hbefore.
  - rewrite app_nil_r. by constructor.
  - induction task as [|x task IHtask]; simpl.
    + replace (before ++ [] :: tasks) with ((before ++ [[]]) ++ tasks)
        by (by rewrite <- app_assoc).
      apply IH. apply Forall_app. split; [done|]. by constructor.
    + by constructor.
Qed.

Lemma sequentialSchedule_runs w batches :
  runSchedule w batches (sequentialSchedule w batches).
Proof.
  induction batches as [|batch rest IH]; simpl; constructor; [|done].
  eexists. split; [|done]. apply (interleaving_concat []). constructor.
Qed.

(** *** Writing the results under distinct keys *)

Lemma object_lookup_unfold {V} (obj : Js.object V) (key : string) :
  obj !! key =
  if decide (key = "__proto__") then Js.prototype obj else Js.own obj !! key.
Proof. done. Qed.

Lemma object_lookup_set {V} (obj : Js.object V) (key : string) (v : V) :
  Js.object_set obj key v !! key = Some v.
Proof.
  rewrite object_lookup_unfold. unfold Js.object_set.
  destruct (decide (key = "__proto__")); simpl; [done|]. apply lookup_insert_eq.
Qed.

Lemma object_lookup_set_ne {V} (obj : Js.object V) (key key' : string) (v : V) :
  key ≠ key' → Js.object_set obj key v !! key' = obj !! key'.
Proof.
  intros Hne. rewrite !object_lookup_unfold. unfold Js.object_set.
  destruct (decide (key' = "__proto__")) as [Hkey'|Hkey'].
  - rewrite decide_False by congruence. done.
  - destruct (decide (key = "__proto__")); simpl; [done|]. by apply lookup_insert_ne.
Qed.

Lemma object_keys_set {V} (obj : Js.object V) (key : string) (v : V) :
  Js.object_keys (Js.object_set obj key v) =
  if decide (key = "__proto__") then Js.object_keys obj
  else {[key]} ∪ Js.object_keys obj.
Proof.
  unfold Js.object_set, Js.object_keys.
  destruct (decide (key = "__proto__")); simpl; [done|]. apply dom_insert_L.
Qed.

Lemma store_results_lookup {X V : Type} (keyOf : X → string) (valueOf : X → V)
    (items : list X) (obj : Js.object V) (x : X) :
  NoDup (keyOf <$> items) → x ∈ items →
  foldl (λ obj item, Js.object_set obj (keyOf item) (valueOf item)) obj items
    !! keyOf x
  = Some (valueOf x).
Proof.
  induction items as [|y items IH] using rev_ind; intros Hnodup Hin.
  { by apply elem_of_nil in Hin. }
  rewrite fmap_app in Hnodup. apply NoDup_app in Hnodup as (Hnd & Hfresh & _).
  rewrite foldl_app. simpl.
  apply elem_of_app in Hin as [Hin|Hin].
  - rewrite object_lookup_set_ne; [by apply IH|].
    intros Heq. apply (Hfresh (keyOf x)).
    + apply list_elem_of_fmap. by exists x.
    + simpl. rewrite Heq. by left.
  - apply list_elem_of_singleton in Hin as ->.
    apply object_lookup_set.
Qed.

Lemma store_results_keys {X V : Type} (keyOf : X → string) (valueOf : X → V)
    (items : list X) (obj : Js.object V) :
  Js.object_keys
    (foldl (λ obj item, Js.object_set obj (keyOf item) (valueOf item)) obj items)
  = Js.object_keys obj
    ∪ list_to_set (filter (λ key, key ≠ "__proto__") (keyOf <$> items)).
Proof.
  revert obj. induction items as [|y items IH]; intros obj.
  - simpl. by rewrite (right_id_L ∅ (∪)).
  - cbn [foldl fmap list_fmap]. rewrite IH, object_keys_set, filter_cons.
    assert (keyOf y = "__proto__" ∨ keyOf y ≠ "__proto__") as [Hy|Hy]
      by (destruct (decide (keyOf y = "__proto__")); auto).
    + rewrite (decide_True (P := keyOf y = "__proto__")) by done.
      by rewrite (decide_False (P := keyOf y ≠ "__proto__")) by auto.
    + rewrite (decide_False (P := keyOf y = "__proto__")) by done.
      rewrite (decide_True (P := keyOf y ≠ "__proto__")) by done.
      cbn [list_to_set].
      by rewrite (comm_L (∪) {[keyOf y]} (Js.object_keys obj)), (assoc_L (∪)).
Qed.

(** Under every schedule of a run of [processQuestionsInParallel] the
    counters satisfy compliantAnswers + nonCompliantAnswers ≤ evidenceFound
    ≤ totalPoliciesChecked after every step, and at the end
    questionsProcessed is the number of input questions; the keys of
    [evidenceByQuestion] are the ids of the input questions, except the id
    ["__proto__"]. *)
Lemma counters_and_keys (w : World) (questions : list Question.t)
    (events : list Event) :
  runSchedule w (createBatches questions maxConcurrentQuestions) events →
  (∀ seen, seen `prefix_of` events →
     countersConsistent
       (processingStats (processQuestionsInParallel_under questions seen))) ∧
  Stats.questionsProcessed
    (processingStats (processQuestionsInParallel_under questions events))
    = length questions ∧
  Js.object_keys (evidenceByQuestion (processQuestionsInParallel_under questions events))
    = list_to_set
        (filter (λ key, key ≠ "__proto__")
                ((λ question, propertyKey (Question.id question)) <$> questions)).
Proof.
  intros Hrun. unfold processQuestionsInParallel_under. split; [|split].
  - intros seen _. apply run_consistent. unfold countersConsistent. simpl. lia.
  - rewrite run_processed, (runSchedule_collections w _ _ Hrun).
    rewrite createBatches_concat by (unfold maxConcurrentQuestions; lia).
    simpl. by rewrite length_fmap.
  - rewrite run_evidence, (runSchedule_collections w _ _ Hrun).
    rewrite createBatches_concat by (unfold maxConcurrentQuestions; lia).
    rewrite (store_results_keys (λ item, propertyKey (Question.id item.1))
               (λ item, stored item.2)).
    unfold Js.object_keys at 1. simpl. rewrite dom_empty_L, (left_id_L ∅ (∪)).
    by rewrite <- list_fmap_compose.
Qed.

(** C10 fails on the code at the question id ["__proto__"].  The run
    counts the question as processed and its task finds evidence, but
    [evidenceByQuestion[question.id] = result.value] makes the list the
    prototype of [evidenceByQuestion] and creates no entry: the object
    returned has no key at all for one input question.  (With any other id
    the entry is there.) *)
Lemma coverage_misses_proto :
  let run := processQuestionsInParallel sampleWorld [protoQuestion] in
  (processQuestionParallel sampleWorld protoQuestion).2
    = fulfilled (stored (processQuestionParallel sampleWorld protoQuestion).2) ∧
  length (stored (processQuestionParallel sampleWorld protoQuestion).2) = 2 ∧
  Stats.questionsProcessed (processingStats run) = 1 ∧
  Js.object_keys (evidenceByQuestion run) = ∅ ∧
  Js.own (evidenceByQuestion run) !! "__proto__" = None ∧
  Js.object_keys
    (evidenceByQuestion (processQuestionsInParallel sampleWorld [sampleQuestion 1]))
    = {["1"]}.
Proof.
  destruct (counters_and_keys sampleWorld [protoQuestion] _
              (sequentialSchedule_runs sampleWorld _)) as (_ & Hn & Hkeys).
  destruct (counters_and_keys sampleWorld [sampleQuestion 1] _
              (sequentialSchedule_runs sampleWorld _)) as (_ & _ & Hkeys1).
  cbv zeta. unfold processQuestionsInParallel.
  split; [by vm_compute|]. split; [by vm_compute|].
  split; [exact Hn|]. split; [exact Hkeys|]. split.
  - apply not_elem_of_dom. unfold Js.object_keys in Hkeys. rewrite Hkeys.
    apply not_elem_of_empty.
  - rewrite Hkeys1. cbn [fmap list_fmap]. rewrite filter_cons, filter_nil.
    rewrite decide_True by done. cbn [list_to_set]. by rewrite (right_id_L ∅ (∪)).
Qed.

(** C1. A run always has a schedule and returns.  Under every schedule,
    when the ids of the questions are distinct, the returned
    [evidenceByQuestion] holds for every question the evidence list its
    task computed, and the empty list for a question whose task failed:
    the failure of one task changes nothing for the others and does not
    escape. *)
Theorem settle_all_isolation (w : World) (questions : list Question.t) :
  runSchedule w (createBatches questions maxConcurrentQuestions)
    (sequentialSchedule w (createBatches questions maxConcurrentQuestions)) ∧
  ∀ events,
    runSchedule w (createBatches questions maxConcurrentQuestions) events →
    NoDup ((λ question, propertyKey (Question.id question)) <$> questions) →
    ∀ question, question ∈ questions →
      (∀ value, (processQuestionParallel w question).2 = fulfilled value →
         evidenceByQuestion (processQuestionsInParallel_under questions events)
           !! propertyKey (Question.id question) = Some value) ∧
      (∀ error, (processQuestionParallel w question).2 = rejected error →
         evidenceByQuestion (processQuestionsInParallel_under questions events)
           !! propertyKey (Question.id question) = Some []).
Proof.
  split; [apply sequentialSchedule_runs|].
  intros events Hrun Hnodup question Hin.
  assert (evidenceByQuestion (processQuestionsInParallel_under questions events)
            !! propertyKey (Question.id question)
          = Some (stored (processQuestionParallel w question).2)) as Hlookup.
  { unfold processQuestionsInParallel_under.
    rewrite run_evidence, (runSchedule_collections w _ _ Hrun).
    rewrite createBatches_concat by (unfold maxConcurrentQuestions; lia).
    apply (store_results_lookup (λ item, propertyKey (Question.id item.1))
             (λ item, stored item.2) _ _
             (question, (processQuestionParallel w question).2)).
    - by rewrite <- list_fmap_compose.
    - apply list_elem_of_fmap. by exists question. }
  split; intros ? Hsettled; by rewrite Hlookup, Hsettled.
Qed.

Lemma settle_all_isolation_witness :
  evidenceByQuestion (processQuestionsInParallel sampleWorld sampleQuestions) !! "2"
    = Some []
  ∧ evidenceByQuestion (processQuestionsInParallel sampleWorld sampleQuestions) !! "1"
    = Some (stored (processQuestionParallel sampleWorld (sampleQuestion 1)).2)
  ∧ length (stored (processQuestionParallel sampleWorld (sampleQuestion 1)).2) = 2.
Proof.
  destruct (settle_all_isolation sampleWorld sampleQuestions) as [Hruns Hiso].
  assert (NoDup ((λ question, propertyKey (Question.id question)) <$> sampleQuestions))
    as Hnodup by (apply (bool_decide_unpack _); by vm_compute).
  split; [|split].
  - eapply (Hiso _ Hruns Hnodup (sampleQuestion 2)); [|by vm_compute].
    right. by left.
  - eapply (Hiso _ Hruns Hnodup (sampleQuestion 1)); [by left|by vm_compute].
  - by vm_compute.
Defined.

(** *** The order of the candidates *)

Lemma precedes_ranked a b :
  wellFormed a → wellFormed b →
  Js.precedes compareCandidates a b ↔ rankedBefore a b.
Proof.
  intros [[ca Hca] [aa Haa]] [[cb Hcb] [ab Hab]].
  unfold Js.precedes, Js.cmp_le, compareCandidates, rankedBefore, sortKey.
  rewrite Hca, Haa, Hcb, Hab. cbn [num_sub]. unfold default, from_option, id.
  destruct (decide (cb = ca)) as [->|Hc].
  - rewrite Z.sub_diag, (decide_False (P := Some 0%Z ≠ Some 0%Z)) by auto.
    destruct (decide (ab = aa)) as [->|Ha].
    + rewrite Z.sub_diag, (decide_False (P := Some 0%Z ≠ Some 0%Z)) by auto.
      rewrite Z.leb_le. lia.
    + rewrite decide_True by (intros [= ?]; lia). rewrite Z.leb_le. lia.
  - rewrite decide_True by (intros [= ?]; lia). rewrite Z.leb_le. lia.
Qed.

Lemma processQuestionParallel_sorts w question ranked :
  (processQuestionParallel w question).2 = fulfilled ranked →
  ranked = Js.sort compareCandidates (candidatesMet w question).
Proof.
  unfold processQuestionParallel, candidatesMet.
  destruct (findRelevantPolicies w question) as [relevant|]; [|done].
  destruct relevant as [|policy relevant].
  { simpl. intros [= <-]. by destruct (batchCheckPolicyExistence w []). }
  cbn [length Nat.eqb].
  destruct (batchCheckPolicyExistence w _) as [checks|]; [|done].
  destruct (omap _ _) as [|existing1 existing]; [by intros [= <-]|].
  cbn [length Nat.eqb].
  destruct (analyzePolicies _ _ _ _) as [updates candidates].
  by intros [= <-].
Qed.

Lemma elem_of_three {A} (x a b c : A) : x ∈ [a; b; c] → x = a ∨ x = b ∨ x = c.
Proof. rewrite !elem_of_cons, elem_of_nil. tauto. Qed.

(** The comparator's numbers against the announced order. *)
Lemma confidenceAbove_order c d :
  c ∈ ["high"; "medium"; "low"] → d ∈ ["high"; "medium"; "low"] →
  ∃ rc rd, confidenceOrder c = Some rc ∧ confidenceOrder d = Some rd ∧
           (confidenceAbove c d ↔ (rd < rc)%Z) ∧ (c = d ↔ rc = rd).
Proof.
  intros Hc%elem_of_three Hd%elem_of_three.
  destruct Hc as [Hc|[Hc|Hc]], Hd as [Hd|[Hd|Hd]]; subst c d;
    eexists _, _; (split; [reflexivity|]); (split; [reflexivity|]);
    (split; split; intros H; try (by inversion H); try lia; try done;
     try constructor).
Qed.

Lemma answerAbove_order c d :
  c ∈ ["yes"; "no"; "partial"] → d ∈ ["yes"; "no"; "partial"] →
  ∃ rc rd, answerOrder c = Some rc ∧ answerOrder d = Some rd ∧
           (answerAbove c d ↔ (rd < rc)%Z) ∧ (c = d ↔ rc = rd).
Proof.
  intros Hc%elem_of_three Hd%elem_of_three.
  destruct Hc as [Hc|[Hc|Hc]], Hd as [Hd|[Hd|Hd]]; subst c d;
    eexists _, _; (split; [reflexivity|]); (split; [reflexivity|]);
    (split; split; intros H; try (by inversion H); try lia; try done;
     try constructor).
Qed.

Lemma inDataModel_wellFormed e : inDataModel e → wellFormed e.
Proof.
  intros [Hc Ha]. unfold wellFormed.
  destruct (confidenceAbove_order _ _ Hc Hc) as (rc & _ & -> & _).
  destruct (answerAbove_order _ _ Ha Ha) as (ra & _ & -> & _).
  split; by eexists.
Qed.

Lemma announced_ranked a b :
  inDataModel a → inDataModel b → announcedBefore a b ↔ rankedBefore a b.
Proof.
  intros [Hca Haa] [Hcb Hab].
  destruct (confidenceAbove_order _ _ Hca Hcb) as (ca & cb & Ea & Eb & Hc & Hceq).
  destruct (answerAbove_order _ _ Haa Hab) as (aa & ab & Fa & Fb & Ha & Haeq).
  unfold announcedBefore, rankedBefore, sortKey.
  rewrite Ea, Eb, Fa, Fb. cbn [default from_option id].
  rewrite Hc, Ha, Hceq, Haeq. intuition lia.
Qed.

(** C4 (as the code has it). When the confidence of every candidate is one
    of high, medium and low and its answer one of yes, no and partial, the
    candidates that [processQuestionParallel] returns are the candidates it
    met, sorted by confidence (high above medium above low), then by answer
    (yes above no above partial), then by relevance score, all descending;
    candidates equal under the three keys keep the order in which they were
    met. *)
Theorem candidates_ranked (w : World) (question : Question.t)
    (ranked : list Evidence.t) :
  (processQuestionParallel w question).2 = fulfilled ranked →
  Forall inDataModel (candidatesMet w question) →
  ranked ≡ₚ candidatesMet w question ∧
  StronglySorted announcedBefore ranked ∧
  ∀ key, filter (λ e, announcedKey e = key) ranked
         = filter (λ e, announcedKey e = key) (candidatesMet w question).
Proof.
  intros Hranked%processQuestionParallel_sorts Hmodel. subst ranked.
  assert (Forall wellFormed (candidatesMet w question)) as Hwf
    by (eapply Forall_impl; [done|apply inDataModel_wellFormed]).
  split; [apply JsFacts.sort_perm|]. split.
  - apply (JsFacts.StronglySorted_mono_on inDataModel rankedBefore).
    { by rewrite JsFacts.sort_perm. }
    { intros a b Ha Hb. by apply announced_ranked. }
    apply (JsFacts.StronglySorted_mono_on wellFormed (Js.precedes compareCandidates)).
    + by rewrite JsFacts.sort_perm.
    + intros a b Ha Hb. by apply precedes_ranked.
    + apply (JsFacts.sort_sorted _ wellFormed); [| |done].
      * intros a b Ha Hb. rewrite !precedes_ranked by done.
        unfold rankedBefore. destruct (sortKey a) as [[??]?], (sortKey b) as [[??]?].
        lia.
      * intros a b c Ha Hb Hc. rewrite !precedes_ranked by done.
        unfold rankedBefore.
        destruct (sortKey a) as [[??]?], (sortKey b) as [[??]?], (sortKey c) as [[??]?].
        lia.
  - intros key. apply (JsFacts.sort_stable _ wellFormed); [|done].
    intros a b Ha Hb Hkey. apply precedes_ranked; [done..|].
    unfold announcedKey in Hkey. injection Hkey as Hc Ha' Hs.
    unfold rankedBefore, sortKey. rewrite Hc, Ha', Hs. lia.
Qed.

Lemma candidates_ranked_witness :
  ∃ high medium,
    (processQuestionParallel sampleWorld (sampleQuestion 1)).2 = fulfilled [high; medium] ∧
    candidatesMet sampleWorld (sampleQuestion 1) = [medium; high] ∧
    Evidence.confidence high = "high" ∧ Evidence.confidence medium = "medium" ∧
    StronglySorted announcedBefore [high; medium].
Proof.
  eexists _, _. split; [by vm_compute|]. split; [by vm_compute|].
  split; [done|]. split; [done|].
  eapply (candidates_ranked sampleWorld (sampleQuestion 1)); [by vm_compute|].
  vm_compute. repeat constructor; set_solver.
Defined.

(** C4 (as the specification states it) fails: nothing keeps the model to
    the three confidences, and for a confidence that is not in the table
    the comparator answers NaN, which the sort reads as 0.  Met in the order
    low, HIGH, high, the candidates compare as equal to their neighbours
    and are returned in that order: a candidate of low confidence stands
    before one of high confidence. *)
Lemma candidates_not_ranked :
  ∃ low capitals high,
    candidatesMet capitalsWorld (sampleQuestion 1) = [low; capitals; high] ∧
    (processQuestionParallel capitalsWorld (sampleQuestion 1)).2
      = fulfilled [low; capitals; high] ∧
    Evidence.confidence low = "low" ∧ Evidence.confidence capitals = "HIGH" ∧
    Evidence.confidence high = "high" ∧
    compareCandidates low capitals = None ∧ compareCandidates capitals high = None ∧
    ¬ announcedBefore low high ∧
    ¬ StronglySorted announcedBefore [low; capitals; high].
Proof.
  eexists _, _, _. split; [by vm_compute|]. split; [by vm_compute|].
  split; [done|]. split; [done|]. split; [done|].
  split; [by vm_compute|]. split; [by vm_compute|].
  assert (∀ low high, Evidence.confidence low = "low" →
                      Evidence.confidence high = "high" →
                      ¬ announcedBefore low high) as Hnot.
  { intros low high Hl Hh [H|[H _]]; rewrite Hl, Hh in H; [inversion H|done]. }
  split; [by apply Hnot|].
  intros Hsorted. apply StronglySorted_inv in Hsorted as [_ Hall].
  apply Forall_cons in Hall as [_ Hall]. apply Forall_cons in Hall as [Hlh _].
  by apply Hnot in Hlh.
Qed.

End OrchestratorFacts.

(** ** The edit distance as a metric; the scores of keyword pairs *)

Module RankerLaws.
Import Ranker RankerFacts Scoring.

(** *** Strings read from their end *)

Lemma snoc_not_empty s c : s +:+ String c EmptyString ≠ EmptyString.
Proof. by destruct s. Qed.

Lemma snoc_inj s t c d :
  s +:+ String c EmptyString = t +:+ String d EmptyString → s = t ∧ c = d.
Proof.
  revert t. induction s as [|x s IH]; intros [|y t] H; simpl in H.
  - by injection H as ->.
  - injection H as -> H. by destruct t.
  - injection H as -> H. by destruct s.
  - injection H as -> H. apply IH in H as [-> ->]. done.
Qed.

(** *** Bounds of the table *)

Lemma lev_table_upper a b i j : lev_table a b i j ≤ i `max` j.
Proof.
  revert j. induction i as [|i IHi]; intros j.
  - rewrite lev_table_0_l. lia.
  - induction j as [|j IHj].
    + rewrite lev_table_0_r. lia.
    + rewrite lev_table_S. specialize (IHi j).
      destruct (decide _); lia.
Qed.

Lemma lev_table_lower a b i j : i `max` j - i `min` j ≤ lev_table a b i j.
Proof.
  revert j. induction i as [|i IHi]; intros j.
  - rewrite lev_table_0_l. lia.
  - induction j as [|j IHj].
    + rewrite lev_table_0_r. lia.
    + rewrite lev_table_S.
      pose proof (IHi j). pose proof (IHi (S j)).
      destruct (decide _); lia.
Qed.

Lemma lev_table_diagonal a i : lev_table a a i i = 0.
Proof.
  induction i as [|i IH]; [apply lev_table_0_l|].
  rewrite lev_table_S, IH. rewrite decide_True by done. lia.
Qed.

(** *** Edit scripts compose *)

Lemma edits_zero s t n : edits s t n → n = 0 → s = t.
Proof.
  induction 1 as [|s t c n _ IH| | |]; intros Hn; try done.
  by rewrite IH.
Qed.

Lemma edits_compose s t n :
  edits s t n → ∀ u m, edits t u m → ∃ k, k ≤ n + m ∧ edits s u k.
Proof.
  induction 1 as [|s t c n H1 IH|s t c d n H1 IH|s t c n H1 IH|s t d n H1 IH];
    intros u m H2.
  - exists m. done.
  - remember (t +:+ String c EmptyString) as tc eqn:Htc.
    induction H2 as [|t' u' c' m H2 _|t' u' c' d' m H2 _|t' u' c' m H2 _
                     |t' u' d' m H2 IH2].
    + symmetry in Htc. by apply snoc_not_empty in Htc.
    + apply snoc_inj in Htc as [-> ->].
      destruct (IH _ _ H2) as (k & Hk & Hedits).
      exists k. split; [lia|]. by constructor.
    + apply snoc_inj in Htc as [-> ->].
      destruct (IH _ _ H2) as (k & Hk & Hedits).
      exists (S k). split; [lia|]. by constructor.
    + apply snoc_inj in Htc as [-> ->].
      destruct (IH _ _ H2) as (k & Hk & Hedits).
      exists (S k). split; [lia|]. by constructor.
    + destruct (IH2 Htc) as (k & Hk & Hedits).
      exists (S k). split; [lia|]. by constructor.
  - remember (t +:+ String d EmptyString) as td eqn:Htd.
    induction H2 as [|t' u' c' m H2 _|t' u' c' d' m H2 _|t' u' c' m H2 _
                     |t' u' d' m H2 IH2].
    + symmetry in Htd. by apply snoc_not_empty in Htd.
    + apply snoc_inj in Htd as [-> ->].
      destruct (IH _ _ H2) as (k & Hk & Hedits).
      exists (S k). split; [lia|]. by constructor.
    + apply snoc_inj in Htd as [-> ->].
      destruct (IH _ _ H2) as (k & Hk & Hedits).
      exists (S k). split; [lia|]. by constructor.
    + apply snoc_inj in Htd as [-> ->].
      destruct (IH _ _ H2) as (k & Hk & Hedits).
      exists (S k). split; [lia|]. by constructor.
    + destruct (IH2 Htd) as (k & Hk & Hedits).
      exists (S k). split; [lia|]. by constructor.
  - destruct (IH _ _ H2) as (k & Hk & Hedits).
    exists (S k). split; [lia|]. by constructor.
  - remember (t +:+ String d EmptyString) as td eqn:Htd.
    induction H2 as [|t' u' c' m H2 _|t' u' c' d' m H2 _|t' u' c' m H2 _
                     |t' u' d' m H2 IH2].
    + symmetry in Htd. by apply snoc_not_empty in Htd.
    + apply snoc_inj in Htd as [-> ->].
      destruct (IH _ _ H2) as (k & Hk & Hedits).
      exists (S k). split; [lia|]. by constructor.
    + apply snoc_inj in Htd as [-> ->].
      destruct (IH _ _ H2) as (k & Hk & Hedits).
      exists (S k). split; [lia|]. by constructor.
    + apply snoc_inj in Htd as [-> ->].
      destruct (IH _ _ H2) as (k & Hk & Hedits).
      exists k. split; [lia|]. done.
    + destruct (IH2 Htd) as (k & Hk & Hedits).
      exists (S k). split; [lia|]. by constructor.
Qed.

(** [levenshteinDistance] is a metric on strings: it is symmetric, zero
    exactly on equal strings, and obeys the triangle inequality; its value
    lies between the difference of the two lengths and the length of the
    longer string. *)
Theorem levenshteinDistance_metric (a b c : string) :
  levenshteinDistance a b = levenshteinDistance b a ∧
  (levenshteinDistance a b = 0 ↔ a = b) ∧
  levenshteinDistance a c ≤ levenshteinDistance a b + levenshteinDistance b c ∧
  Js.length a `max` Js.length b - Js.length a `min` Js.length b
    ≤ levenshteinDistance a b ≤ Js.length a `max` Js.length b.
Proof.
  rewrite !levenshteinDistance_table. split; [apply levenshtein_sym|]. split; [|split].
  - split.
    + intros H0. destruct (levenshtein_least a b) as [Hedits _].
      by apply (edits_zero _ _ _ Hedits).
    + intros ->. apply lev_table_diagonal.
  - destruct (levenshtein_least a b) as [Hab _].
    destruct (levenshtein_least b c) as [Hbc _].
    destruct (edits_compose _ _ _ Hab _ _ Hbc) as (k & Hk & Hac).
    destruct (levenshtein_least a c) as [_ Hleast].
    specialize (Hleast _ Hac). lia.
  - unfold levenshtein, Js.length.
    pose proof (lev_table_lower a b (String.length b) (String.length a)).
    pose proof (lev_table_upper a b (String.length b) (String.length a)). lia.
Qed.

(** *** [fuzzyMatch] *)

Lemma similarity_sym a b : similarity a b = similarity b a.
Proof. unfold similarity. by rewrite levenshtein_sym, Nat.max_comm. Qed.

Lemma max_length_0 a b :
  String.length a `max` String.length b = 0 → a = EmptyString ∧ b = EmptyString.
Proof. destruct a, b; simpl; try done; lia. Qed.

Lemma fuzzyMatch_empty : fuzzyMatch EmptyString EmptyString = true.
Proof. done. Qed.

Lemma fuzzyMatch_refl s : fuzzyMatch s s = true.
Proof.
  destruct (decide (0 < String.length s)) as [H|H].
  - rewrite fuzzyMatch_similarity by lia. unfold similarity, levenshtein.
    rewrite lev_table_diagonal, Nat.max_id. apply Qle_bool_iff.
    apply Qle_shift_div_l; [unfold Qlt; simpl; lia|].
    unfold Qle, Qminus, Qplus, Qopp, Qmult, inject_Z. simpl. lia.
  - by destruct s; [|simpl in H; lia].
Qed.

Lemma fuzzyMatch_sym a b : fuzzyMatch a b = fuzzyMatch b a.
Proof.
  destruct (decide (0 < String.length a `max` String.length b)) as [H|H].
  - rewrite !fuzzyMatch_similarity by lia. by rewrite similarity_sym.
  - assert (String.length a `max` String.length b = 0) as H0 by lia.
    by apply max_length_0 in H0 as [-> ->].
Qed.

(** [fuzzyMatch] does not depend on the order of its arguments, and a
    string always matches itself. *)
Theorem fuzzyMatch_symmetric (str1 str2 : string) :
  fuzzyMatch str1 str2 = fuzzyMatch str2 str1 ∧ fuzzyMatch str1 str1 = true.
Proof. split; [apply fuzzyMatch_sym|apply fuzzyMatch_refl]. Qed.

(** Two strings whose lengths differ by more than 30% of the longer one
    never match. *)
Theorem fuzzyMatch_length_filter (str1 str2 : string) :
  3 * (Js.length str1 `max` Js.length str2)
    < 10 * (Js.length str1 `max` Js.length str2
            - Js.length str1 `min` Js.length str2) →
  fuzzyMatch str1 str2 = false.
Proof.
  unfold Js.length. intros Hlen.
  rewrite fuzzyMatch_similarity by lia.
  apply not_true_is_false. intros Hle%Qle_bool_iff.
  unfold similarity in Hle.
  pose proof (lev_table_lower str1 str2 (String.length str2) (String.length str1))
    as Hlow.
  pose proof (lev_table_upper str1 str2 (String.length str2) (String.length str1))
    as Hup.
  fold (levenshtein str1 str2) in Hlow, Hup.
  set (L := String.length str1 `max` String.length str2) in *.
  set (d := levenshtein str1 str2) in *.
  apply Qle_not_lt in Hle. apply Hle.
  apply Qlt_shift_div_r; [unfold Qlt; simpl; lia|].
  unfold Qlt, Qminus, Qplus, Qopp, Qmult, inject_Z. simpl. lia.
Qed.

Lemma fuzzyMatch_length_filter_witness :
  fuzzyMatch "hipaa" "hipaa privacy rule" = false.
Proof. apply (fuzzyMatch_length_filter "hipaa" "hipaa privacy rule"). simpl. lia. Defined.

(** *** The score of a keyword pair *)

Lemma prefix_refl s : String.prefix s s = true.
Proof.
  induction s as [|c s IH]; [done|]. simpl.
  by destruct (Ascii.ascii_dec c c).
Qed.

Lemma includes_refl s : Js.includes s s = true.
Proof.
  unfold Js.includes, Js.indexOf. simpl.
  destruct s as [|c s]; [done|].
  cbn [String.index]. by rewrite prefix_refl.
Qed.

(** What one pair of keywords adds to the score is 0, 15, 20, 35 or 65; it
    is 65 (substring, exact and fuzzy bonus together) exactly when the two
    keywords are equal, and it is the same whichever of the two is the
    question's. *)
Theorem scoreKeywordPair_values (qKeyword pKeyword : string) (score : Z) :
  let gain := (scoreKeywordPair qKeyword score pKeyword - score)%Z in
  gain ∈ [0; 15; 20; 35; 65]%Z ∧
  (gain = 65%Z ↔ pKeyword = qKeyword) ∧
  gain = (scoreKeywordPair pKeyword score qKeyword - score)%Z.
Proof.
  unfold scoreKeywordPair. cbv zeta.
  rewrite (fuzzyMatch_sym qKeyword pKeyword).
  rewrite (orb_comm (Js.includes qKeyword pKeyword)).
  destruct (decide (pKeyword = qKeyword)) as [->|Hne].
  - rewrite includes_refl, fuzzyMatch_refl. simpl.
    rewrite decide_True by done.
    split; [|split; [split; [done|lia]|lia]].
    replace (score + 20 + 30 + 15 - score)%Z with 65%Z by lia.
    set_solver.
  - rewrite (decide_False (P := qKeyword = pKeyword)) by done.
    destruct (Js.includes pKeyword qKeyword || Js.includes qKeyword pKeyword),
      (fuzzyMatch pKeyword qKeyword);
      (split; [|split; [split; [lia|done]|lia]]).
    + replace (score + 20 + 15 - score)%Z with 35%Z by lia. set_solver.
    + replace (score + 20 - score)%Z with 20%Z by lia. set_solver.
    + replace (score + 15 - score)%Z with 15%Z by lia. set_solver.
    + replace (score - score)%Z with 0%Z by lia. set_solver.
Qed.

(** *** The score as a sum *)

Lemma sumZ_perm {A} (f : A → Z) l l' : l ≡ₚ l' → sumZ f l = sumZ f l'.
Proof. induction 1; simpl; lia. Qed.

Lemma sumZ_ext {A} (f g : A → Z) l : (∀ x, f x = g x) → sumZ f l = sumZ g l.
Proof. intros H. induction l; simpl; [done|]. rewrite H. lia. Qed.

Lemma sumZ_bounds {A} (f : A → Z) (lo hi : Z) l :
  (∀ x, lo ≤ f x ≤ hi)%Z →
  (lo * Z.of_nat (length l) ≤ sumZ f l ≤ hi * Z.of_nat (length l))%Z.
Proof.
  intros H. induction l as [|x l IH]; simpl; [lia|].
  specialize (H x). lia.
Qed.

Lemma scoreKeywordPairs_sum qs ps :
  scoreKeywordPairs qs ps 0 =
  sumZ (λ q, sumZ (λ p, scoreKeywordPair q 0 p) ps) qs.
Proof.
  assert (∀ q score,
            foldl (scoreKeywordPair q) score ps =
            (score + sumZ (λ p, scoreKeywordPair q 0 p) ps)%Z) as Hrow.
  { intros q. induction ps as [|p ps IH]; intros score; simpl; [lia|].
    rewrite IH, (scoreKeywordPair_shift q p score). lia. }
  unfold scoreKeywordPairs.
  assert (∀ score,
            foldl (λ score q, foldl (scoreKeywordPair q) score ps) score qs =
            (score + sumZ (λ q, sumZ (λ p, scoreKeywordPair q 0 p) ps) qs)%Z) as H.
  { induction qs as [|q qs IH]; intros score; simpl; [lia|].
    rewrite IH, Hrow. lia. }
  rewrite H. lia.
Qed.

Lemma count_if_sum {A} (f : A → bool) l :
  count_if f l = sumZ (λ x, if f x then 1 else 0)%Z l.
Proof.
  unfold count_if. induction l as [|x l IH]; simpl; [done|].
  destruct (f x); simpl; lia.
Qed.

Lemma count_if_bounds {A} (f : A → bool) l :
  (0 ≤ count_if f l ≤ Z.of_nat (length l))%Z.
Proof.
  rewrite count_if_sum.
  pose proof (sumZ_bounds (λ x, if f x then 1 else 0)%Z 0 1 l) as H.
  destruct H; [intros x; destruct (f x); lia|]. lia.
Qed.

Lemma scoreKeywordPair_range q p : (0 ≤ scoreKeywordPair q 0 p ≤ 65)%Z.
Proof.
  unfold scoreKeywordPair.
  destruct (_ || _), (decide _), (fuzzyMatch _ _); lia.
Qed.

(** The score is never negative, reaches 50 as soon as the categories are
    equal, and is bounded by the numbers of keywords and of words. *)
Theorem calculateRelevanceScore_bounds (question : NQuestion.t) (policy : NPolicy.t) :
  let q := Z.of_nat (length (NQuestion.keywords question)) in
  let p := Z.of_nat (length (NPolicy.keywords policy)) in
  let w := Z.of_nat (length (questionWords question)) in
  (0 ≤ calculateRelevanceScore question policy ≤ 50 + 65 * q * p + 15 * q + 3 * w)%Z ∧
  (NPolicy.category policy = NQuestion.category question ↔
   50 ≤ calculateRelevanceScore question policy
        - scoreKeywordPairs (NQuestion.keywords question) (NPolicy.keywords policy) 0
        - otherBonuses question policy)%Z.
Proof.
  intros q p w. rewrite calculateRelevanceScore_sum, scoreKeywordPairs_sum.
  pose proof (sumZ_bounds
                (λ k, sumZ (λ pk, scoreKeywordPair k 0 pk) (NPolicy.keywords policy))
                0 (65 * p) (NQuestion.keywords question)) as Hpairs.
  destruct Hpairs as [Hp0 Hp1].
  { intros k.
    pose proof (sumZ_bounds (λ pk, scoreKeywordPair k 0 pk) 0 65
                  (NPolicy.keywords policy) (scoreKeywordPair_range k)).
    unfold p. lia. }
  unfold otherBonuses. fold (questionWords question).
  pose proof (count_if_bounds (Js.includes (NPolicy.description policy))
                (NQuestion.keywords question)).
  pose proof (count_if_bounds
                (λ k, Js.includes (NPolicy.description policy) k
                      || Js.includes (NPolicy.name policy) k)
                (NQuestion.keywords question)).
  pose proof (count_if_bounds (Js.includes (NPolicy.description policy))
                (questionWords question)).
  fold q in Hp0, Hp1, H, H0. fold w in H1.
  split; [|destruct (decide _); split; try done; lia].
  destruct (decide _); nia.
Qed.

End RankerLaws.

(** ** [simpleHash] *)

Module HashFacts.
Import Hash.
Local Open Scope Z_scope.

Lemma toInt32_range z : -2 ^ 31 ≤ toInt32 z < 2 ^ 31.
Proof.
  unfold toInt32. pose proof (Z.mod_pos_bound (z + 2 ^ 31) (2 ^ 32)). lia.
Qed.

Lemma toInt32_congr a b k : a = b + k * 2 ^ 32 → toInt32 a = toInt32 b.
Proof.
  intros ->. unfold toInt32.
  replace (b + k * 2 ^ 32 + 2 ^ 31) with (b + 2 ^ 31 + k * 2 ^ 32) by lia.
  by rewrite Z.mod_add by lia.
Qed.

Lemma toInt32_spec z : ∃ k, toInt32 z = z + k * 2 ^ 32.
Proof.
  exists (- ((z + 2 ^ 31) / 2 ^ 32)). unfold toInt32.
  pose proof (Z.div_mod (z + 2 ^ 31) (2 ^ 32)). lia.
Qed.

Lemma toInt32_id z : -2 ^ 31 ≤ z < 2 ^ 31 → toInt32 z = z.
Proof. intros H. unfold toInt32. rewrite Z.mod_small by lia. lia. Qed.

Lemma hashStep_spec h c : hashStep h c = toInt32 (31 * h + charCode c).
Proof.
  unfold hashStep. cbv zeta. rewrite Z.land_diag, Z.shiftl_mul_pow2 by lia.
  destruct (toInt32_spec h) as [k1 ->].
  destruct (toInt32_spec ((h + k1 * 2 ^ 32) * 2 ^ 5)) as [k2 ->].
  apply (toInt32_congr _ _ (32 * k1 + k2)). lia.
Qed.

Lemma polynomial_congr h k str :
  ∃ k', polynomial (h + k * 2 ^ 32) str = polynomial h str + k' * 2 ^ 32.
Proof.
  revert h k. induction str as [|c str IH]; intros h k; simpl.
  - by exists k.
  - destruct (IH (31 * h + charCode c) (31 * k)) as [k' Hk'].
    exists k'. rewrite <- Hk'. f_equal. lia.
Qed.

Lemma hashLoop_polynomial h str :
  hashLoop (toInt32 h) str = toInt32 (polynomial h str).
Proof.
  revert h. induction str as [|c str IH]; intros h; simpl; [done|].
  rewrite hashStep_spec, IH.
  destruct (toInt32_spec h) as [k ->].
  destruct (polynomial_congr (31 * h + charCode c) (31 * k) str) as [k' Hk'].
  apply (toInt32_congr _ _ k'). rewrite <- Hk'. f_equal. lia.
Qed.

Lemma polynomial_app h s t : polynomial h (s +:+ t) = polynomial (polynomial h s) t.
Proof. revert h. induction s as [|c s IH]; intros h; simpl; [done|]. apply IH. Qed.

Lemma hashLoop_0 str : hashLoop 0 str = toInt32 (polynomial 0 str).
Proof. apply (hashLoop_polynomial 0). Qed.

(** [simpleHash] is the decimal writing of the base-31 polynomial of the
    character codes, reduced to a signed 32-bit integer. *)
Theorem simpleHash_polynomial (str : string) :
  simpleHash str = pretty (toInt32 (polynomial 0 str)) ∧
  ∃ hash, simpleHash str = pretty hash ∧ -2 ^ 31 ≤ hash < 2 ^ 31 ∧
          ∃ k, hash = polynomial 0 str + k * 2 ^ 32.
Proof.
  unfold simpleHash. rewrite hashLoop_0. split; [done|].
  exists (toInt32 (polynomial 0 str)).
  split; [done|]. split; [apply toInt32_range|apply toInt32_spec].
Qed.

(** [simpleHash] is not injective: writing "BB" for "Aa" anywhere in a
    string gives a different string with the same hash. *)
Theorem simpleHash_collision (before after : string) :
  before +:+ "Aa" +:+ after ≠ before +:+ "BB" +:+ after ∧
  simpleHash (before +:+ "Aa" +:+ after) = simpleHash (before +:+ "BB" +:+ after).
Proof.
  split.
  - induction before as [|c before IH]; simpl; [done|].
    intros H. injection H as H. by apply IH.
  - unfold simpleHash. rewrite !hashLoop_0, !polynomial_app.
    assert (∀ h, polynomial h "Aa" = polynomial h "BB") as ->; [|done].
    intros h. cbn [polynomial].
    change (charCode "A") with 65. change (charCode "a") with 97.
    change (charCode "B") with 66. lia.
Qed.

End HashFacts.

(** ** Text preparation *)

Module TextFacts.
Import Orchestrator Text.

(** *** [cleanText] *)

Lemma space_isWhiteSpace c : Ascii.eqb c " " = true → isWhiteSpace c = true.
Proof. by intros ->%Ascii.eqb_eq. Qed.

Lemma removeNul_noNul text : noNul (removeNul text) = true.
Proof.
  induction text as [|c text IH]; simpl; [done|].
  destruct (Ascii.eqb c "000") eqn:Hc; simpl; [done|]. by rewrite Hc.
Qed.

Lemma crToLf_noNul text : noNul text = true → noNul (crToLf text) = true.
Proof.
  induction text as [|c text IH]; simpl; [done|].
  intros [Hc Ht]%andb_prop. rewrite IH by done.
  destruct (Ascii.eqb c "013"); [done|]. by rewrite Hc.
Qed.

Lemma collapse_spaced inRun text :
  noNul text = true → spaced inRun (collapse inRun text) = true.
Proof.
  revert inRun. induction text as [|c text IH]; intros inRun; simpl; [done|].
  intros [Hc Ht]%andb_prop.
  destruct (isWhiteSpace c) eqn:Hws.
  - destruct inRun; [by apply IH|]. simpl. by apply IH.
  - simpl. destruct (Ascii.eqb c " ") eqn:Hsp.
    + apply space_isWhiteSpace in Hsp. congruence.
    + rewrite Hws, Hc. simpl. by apply IH.
Qed.

Lemma spaced_true_trimStart text :
  spaced true text = true → trimStart text = text.
Proof.
  destruct text as [|c text]; simpl; [done|].
  destruct (Ascii.eqb c " "); [done|].
  intros [[Hws _]%andb_prop _]%andb_prop.
  by apply negb_true_iff in Hws as ->.
Qed.

Lemma trimStart_spaced afterSpace text :
  spaced afterSpace text = true → spaced true (trimStart text) = true.
Proof.
  destruct text as [|c text]; simpl; [done|].
  destruct (Ascii.eqb c " ") eqn:Hsp.
  - intros [_ Hrest]%andb_prop.
    rewrite (space_isWhiteSpace _ Hsp).
    by rewrite spaced_true_trimStart.
  - intros [[Hws Hnul]%andb_prop Hrest]%andb_prop.
    pose proof Hws as Hws'. apply negb_true_iff in Hws' as ->.
    simpl. by rewrite Hsp, Hws, Hnul.
Qed.

Lemma trimEnd_tidy afterSpace text :
  spaced afterSpace text = true →
  trimEnd text = EmptyString ∨ tidy afterSpace (trimEnd text) = true.
Proof.
  revert afterSpace. induction text as [|c text IH]; intros afterSpace; simpl;
    [by left|].
  destruct (Ascii.eqb c " ") eqn:Hsp.
  - intros [Hafter Hrest]%andb_prop.
    destruct (IH _ Hrest) as [->|Htidy].
    + left. by rewrite (space_isWhiteSpace _ Hsp).
    + destruct (trimEnd text) as [|d kept] eqn:Hkept.
      * left. by rewrite (space_isWhiteSpace _ Hsp).
      * right. cbn [tidy]. by rewrite Hsp, Hafter.
  - intros [[Hws Hnul]%andb_prop Hrest]%andb_prop.
    right. destruct (trimEnd text) as [|d kept] eqn:Hkept.
    + apply negb_true_iff in Hws as Hws'. rewrite Hws'.
      simpl. by rewrite Hsp, Hws, Hnul.
    + destruct (IH _ Hrest) as [Hempty|Htidy]; [done|].
      cbn [tidy]. by rewrite Hsp, Hws, Hnul.
Qed.

Lemma cleanText_clean text : clean (cleanText text) = true.
Proof.
  destruct text as [text|]; [|done]. unfold cleanText.
  destruct (decide _); [done|]. cbv zeta. unfold trim.
  pose proof (collapse_spaced false (crToLf (removeNul text))
                (crToLf_noNul _ (removeNul_noNul text))) as Hspaced.
  apply trimStart_spaced in Hspaced.
  destruct (trimEnd_tidy _ _ Hspaced) as [->|Htidy]; [done|].
  unfold clean. by destruct (trimEnd _).
Qed.

(** A tidy text is left as it is by every stage. *)
Lemma tidy_removeNul afterSpace text :
  tidy afterSpace text = true → removeNul text = text.
Proof.
  revert afterSpace. induction text as [|c text IH]; intros afterSpace; simpl;
    [done|].
  destruct (Ascii.eqb c " ") eqn:Hsp.
  - apply Ascii.eqb_eq in Hsp as ->. simpl.
    intros [_ Hrest]%andb_prop. by rewrite (IH _ Hrest).
  - intros [[_ Hnul]%andb_prop Hrest]%andb_prop.
    apply negb_true_iff in Hnul as ->. by rewrite (IH _ Hrest).
Qed.

Lemma tidy_crToLf afterSpace text :
  tidy afterSpace text = true → crToLf text = text.
Proof.
  revert afterSpace. induction text as [|c text IH]; intros afterSpace; simpl;
    [done|].
  destruct (Ascii.eqb c " ") eqn:Hsp.
  - apply Ascii.eqb_eq in Hsp as ->. simpl.
    intros [_ Hrest]%andb_prop. by rewrite (IH _ Hrest).
  - intros [[Hws _]%andb_prop Hrest]%andb_prop.
    rewrite (IH _ Hrest). destruct (Ascii.eqb c "013") eqn:Hcr; [|done].
    apply Ascii.eqb_eq in Hcr as ->. done.
Qed.

Lemma tidy_collapse afterSpace inRun text :
  tidy afterSpace text = true → afterSpace = true ∨ inRun = false →
  collapse inRun text = text.
Proof.
  revert afterSpace inRun.
  induction text as [|c text IH]; intros afterSpace inRun; simpl; [done|].
  destruct (Ascii.eqb c " ") eqn:Hsp.
  - rewrite (space_isWhiteSpace _ Hsp). apply Ascii.eqb_eq in Hsp as ->.
    intros [Hafter Hrest]%andb_prop [->| ->]; [done|].
    by rewrite (IH true true) by auto.
  - intros [[Hws _]%andb_prop Hrest]%andb_prop _.
    apply negb_true_iff in Hws as ->.
    by rewrite (IH false false) by auto.
Qed.

Lemma tidy_trimStart text : tidy true text = true → trimStart text = text.
Proof.
  destruct text as [|c text]; simpl; [done|].
  destruct (Ascii.eqb c " "); [done|].
  intros [[Hws _]%andb_prop _]%andb_prop.
  by apply negb_true_iff in Hws as ->.
Qed.

Lemma tidy_trimEnd afterSpace text :
  tidy afterSpace text = true → trimEnd text = text.
Proof.
  revert afterSpace. induction text as [|c text IH]; intros afterSpace; simpl;
    [done|].
  destruct (Ascii.eqb c " ") eqn:Hsp.
  - intros [_ Hrest]%andb_prop. rewrite (IH _ Hrest).
    by destruct text.
  - intros [[Hws _]%andb_prop Hrest]%andb_prop. rewrite (IH _ Hrest).
    apply negb_true_iff in Hws as ->. by destruct text.
Qed.

Lemma clean_cleanText text : clean text = true → cleanText (Some text) = text.
Proof.
  unfold clean, cleanText. destruct (decide _) as [->|Hne]; [done|].
  destruct text as [|c text]; [done|]. intros Htidy. cbv zeta. unfold trim.
  rewrite (tidy_removeNul _ _ Htidy), (tidy_crToLf _ _ Htidy).
  rewrite (tidy_collapse true false _ Htidy) by auto.
  by rewrite (tidy_trimStart _ Htidy), (tidy_trimEnd _ _ Htidy).
Qed.

(** [cleanText] yields a text in its clean form (no NUL, no white space
    but single spaces between the words, none at the ends), and leaves such
    a text as it is: cleaning twice is cleaning once. *)
Theorem cleanText_idempotent (text : option string) :
  clean (cleanText text) = true ∧
  cleanText (Some (cleanText text)) = cleanText text.
Proof.
  split; [apply cleanText_clean|]. apply clean_cleanText, cleanText_clean.
Qed.

(** The stages keep the visible characters. *)
Lemma visible_removeNul text : visible (removeNul text) = visible text.
Proof.
  induction text as [|c text IH]; simpl; [done|].
  destruct (Ascii.eqb c "000") eqn:Hc; simpl.
  - by rewrite orb_true_r.
  - by rewrite Hc, IH.
Qed.

Lemma visible_crToLf text : visible (crToLf text) = visible text.
Proof.
  induction text as [|c text IH]; simpl; [done|].
  destruct (Ascii.eqb c "013") eqn:Hc.
  - apply Ascii.eqb_eq in Hc as ->. simpl. done.
  - by rewrite IH.
Qed.

Lemma visible_collapse inRun text : visible (collapse inRun text) = visible text.
Proof.
  revert inRun. induction text as [|c text IH]; intros inRun; simpl; [done|].
  destruct (isWhiteSpace c) eqn:Hws; simpl.
  - destruct inRun; simpl; apply IH.
  - by rewrite Hws, IH.
Qed.

Lemma visible_trimStart text : visible (trimStart text) = visible text.
Proof.
  induction text as [|c text IH]; simpl; [done|].
  destruct (isWhiteSpace c) eqn:Hws; simpl; [done|]. by rewrite Hws.
Qed.

Lemma visible_trimEnd text : visible (trimEnd text) = visible text.
Proof.
  induction text as [|c text IH]; simpl; [done|].
  destruct (trimEnd text) as [|d kept] eqn:Hkept.
  - destruct (isWhiteSpace c) eqn:Hws; simpl; [done|].
    rewrite Hws. simpl. by rewrite <- IH.
  - by rewrite <- IH.
Qed.

Lemma length_removeNul text : String.length (removeNul text) ≤ String.length text.
Proof.
  induction text as [|c text IH]; simpl; [done|].
  destruct (Ascii.eqb c "000"); simpl; lia.
Qed.

Lemma length_crToLf text : String.length (crToLf text) = String.length text.
Proof. induction text as [|c text IH]; simpl; [done|]. by rewrite IH. Qed.

Lemma length_collapse inRun text :
  String.length (collapse inRun text) ≤ String.length text.
Proof.
  revert inRun. induction text as [|c text IH]; intros inRun; simpl; [done|].
  pose proof (IH true). pose proof (IH false).
  destruct (isWhiteSpace c), inRun; simpl; lia.
Qed.

Lemma length_trimStart text : String.length (trimStart text) ≤ String.length text.
Proof.
  induction text as [|c text IH]; simpl; [done|].
  destruct (isWhiteSpace c); simpl; lia.
Qed.

Lemma length_trimEnd text : String.length (trimEnd text) ≤ String.length text.
Proof.
  induction text as [|c text IH]; simpl; [done|].
  destruct (trimEnd text); [destruct (isWhiteSpace c)|]; simpl in *; lia.
Qed.

(** [cleanText] loses no visible character and adds none: the characters
    that are neither white space nor NUL are those of the input, in the
    same order; the text does not get longer. *)
Theorem cleanText_visible (text : string) :
  visible (cleanText (Some text)) = visible text ∧
  Js.length (cleanText (Some text)) ≤ Js.length text.
Proof.
  unfold cleanText, Js.length. destruct (decide _) as [->|_]; [done|].
  cbv zeta. unfold trim. split.
  - by rewrite visible_trimEnd, visible_trimStart, visible_collapse,
      visible_crToLf, visible_removeNul.
  - pose proof (length_trimEnd (trimStart (collapse false (crToLf (removeNul text))))).
    pose proof (length_trimStart (collapse false (crToLf (removeNul text)))).
    pose proof (length_collapse false (crToLf (removeNul text))).
    pose proof (length_crToLf (removeNul text)).
    pose proof (length_removeNul text). lia.
Qed.

(** *** [splitTextIntoChunks] *)

Lemma substring_0_all n s : String.length s ≤ n → String.substring 0 n s = s.
Proof.
  revert n. induction s as [|c s IH]; intros [|n] H; simpl in *; try done; try lia.
  f_equal. apply IH. lia.
Qed.

Lemma substring_split a n s :
  String.substring 0 a s +:+ String.substring a n s = String.substring 0 (a + n) s.
Proof.
  revert a n. induction s as [|c s IH]; intros a n.
  - by destruct a, n.
  - destruct a as [|a]; simpl.
    + done.
    + by rewrite <- IH.
Qed.

Lemma length_substring a n s :
  String.length (String.substring a n s) = n `min` (String.length s - a).
Proof.
  revert a n. induction s as [|c s IH]; intros a n.
  - by destruct a, n.
  - destruct a as [|a]; simpl.
    + destruct n as [|n]; simpl; [done|]. rewrite IH. lia.
    + apply IH.
Qed.

Lemma append_cons c s t : String c s +:+ t = String c (s +:+ t).
Proof. done. Qed.

Lemma append_empty_r s : s +:+ EmptyString = s.
Proof. induction s as [|c s IH]; [done|]. by rewrite append_cons, IH. Qed.

Lemma append_assoc s t u : (s +:+ t) +:+ u = s +:+ (t +:+ u).
Proof. induction s as [|c s IH]; [done|]. by rewrite !append_cons, IH. Qed.

Lemma length_append s t :
  String.length (s +:+ t) = String.length s + String.length t.
Proof. induction s as [|c s IH]; [done|]. rewrite append_cons. simpl. by rewrite IH. Qed.

Lemma join_empty_cons chunk chunks :
  Js.join EmptyString (chunk :: chunks) = chunk +:+ Js.join EmptyString chunks.
Proof. destruct chunks; [symmetry; apply append_empty_r|done]. Qed.

Lemma join_empty_snoc chunks chunk :
  Js.join EmptyString (chunks ++ [chunk]) = Js.join EmptyString chunks +:+ chunk.
Proof.
  induction chunks as [|c chunks IH]; [done|].
  change ((c :: chunks) ++ [chunk]) with (c :: (chunks ++ [chunk])).
  by rewrite !join_empty_cons, IH, append_assoc.
Qed.

Lemma lastIndexOf_spec text c from k :
  lastIndexOf text c from = Some k → k ≤ from ∧ String.get k text = Some c.
Proof.
  induction from as [|from IH]; simpl.
  - destruct (decide _); [|done]. by intros [= <-].
  - destruct (decide _); [by intros [= <-]|].
    intros [? ?]%IH. split; [lia|done].
Qed.

(** The double of [0.7] is 6305039478318694 / 2^53, a little less than
    7/10. *)
Lemma binary64_07 : Js.binary64 0.7 = (6305039478318694 # 9007199254740992)%Q.
Proof. by vm_compute. Qed.

(** Rounding does not take a number below an integer that it has
    reached. *)
Lemma roundHalfEven_floor x : (Qfloor x ≤ Js.roundHalfEven x)%Z.
Proof.
  unfold Js.roundHalfEven. destruct (_ ?= _)%Q; [destruct (Z.even _)|..]; lia.
Qed.

Lemma binary64_ge (K : Z) (x : Q) :
  (inject_Z K <= x)%Q → (inject_Z K <= Js.binary64 x)%Q.
Proof.
  intros HK. unfold Js.binary64.
  destruct (Qle_bool x 0); [done|]. destruct (Qle_bool (2 ^ 53) x); [done|].
  set (k := Z.max 0 (52 - Js.exponent x)).
  assert (0 < 2 ^ k)%Z as Hpos by (apply Z.pow_pos_nonneg; lia).
  unfold Qle. cbn [Qnum Qden inject_Z]. rewrite Z2Pos.id by done.
  pose proof (roundHalfEven_floor (x * inject_Z (2 ^ k))) as Hround.
  assert (K * 2 ^ k ≤ Qfloor (x * inject_Z (2 ^ k)))%Z as Hfloor.
  { rewrite <- (Qfloor_Z (K * 2 ^ k)). apply Qfloor_resp_le.
    rewrite inject_Z_mult. apply Qmult_le_compat_r; [done|].
    unfold Qle. simpl. lia. }
  lia.
Qed.

(** The rounding on sums and products that JavaScript prints as
    0.30000000000000004, 62.99999999999999, 118.99999999999999 and 21000. *)
Lemma binary64_examples :
  (Js.binary64 (Js.binary64 0.1 + Js.binary64 0.2)
   == 5404319552844596 # 18014398509481984)%Q ∧
  (Js.binary64 (90 * Js.binary64 0.7) == 8866461766385663 # 140737488355328)%Q ∧
  (Js.binary64 (170 * Js.binary64 0.7) == 8373880557142015 # 70368744177664)%Q ∧
  (Js.binary64 (30000 * Js.binary64 0.7) == 21000)%Q ∧
  (Js.binary64 (64 + Js.binary64 (90 * Js.binary64 0.7)) == 127)%Q.
Proof. by vm_compute. Qed.

(** A question mark beyond the threshold lies more than the integer part
    of [chunkSize * 0.7] after [start]. *)
Lemma beyond_threshold start chunkSize questionBreak :
  beyondThreshold questionBreak start chunkSize = true →
  (Z.of_nat start + Z.of_nat chunkSize * 6305039478318694 / 2 ^ 53
   < Z.of_nat questionBreak)%Z.
Proof.
  unfold beyondThreshold.
  rewrite negb_true_iff, <- not_true_iff_false, Qle_bool_iff, binary64_07.
  intros Hbeyond.
  set (part := (Z.of_nat chunkSize * 6305039478318694 / 2 ^ 53)%Z).
  assert (inject_Z part <=
          Js.binary64 (inject_Z (Z.of_nat chunkSize)
                       * (6305039478318694 # 9007199254740992)))%Q as Hproduct.
  { apply binary64_ge. unfold Qle, Qmult. cbn [Qnum Qden inject_Z].
    change (Z.pos (1 * 9007199254740992)) with (2 ^ 53)%Z.
    pose proof (Z.mul_div_le (Z.of_nat chunkSize * 6305039478318694) (2 ^ 53)
                  ltac:(lia)) as Hdiv.
    fold part in Hdiv. lia. }
  assert (inject_Z (Z.of_nat start + part) <=
          Js.binary64 (inject_Z (Z.of_nat start)
                       + Js.binary64 (inject_Z (Z.of_nat chunkSize)
                                      * (6305039478318694 # 9007199254740992))))%Q
    as Hsum.
  { apply binary64_ge. rewrite inject_Z_plus. by apply Qplus_le_r. }
  destruct (Z.le_gt_cases (Z.of_nat questionBreak) (Z.of_nat start + part))
    as [Hle|Hgt]; [|done].
  exfalso. apply Hbeyond. eapply Qle_trans; [|exact Hsum]. by rewrite <- Zle_Qle.
Qed.

Lemma beyond_threshold_start start chunkSize questionBreak :
  beyondThreshold questionBreak start chunkSize = true → start < questionBreak.
Proof.
  intros Hbeyond%beyond_threshold.
  assert (0 ≤ Z.of_nat chunkSize * 6305039478318694 / 2 ^ 53)%Z
    by (apply Z.div_pos; lia).
  lia.
Qed.

Lemma beyond_threshold_share start chunkSize questionBreak :
  (Z.of_nat chunkSize < 2 ^ 53)%Z →
  beyondThreshold questionBreak start chunkSize = true →
  7 * chunkSize < 10 * (questionBreak + 1 - start).
Proof.
  intros Hsize Hbeyond%beyond_threshold.
  pose proof (Z.mul_succ_div_gt (Z.of_nat chunkSize * 6305039478318694) (2 ^ 53)
                ltac:(lia)) as Hdiv.
  set (part := (Z.of_nat chunkSize * 6305039478318694 / 2 ^ 53)%Z) in *.
  assert (0 ≤ part)%Z by (apply Z.div_pos; lia).
  change (2 ^ 53)%Z with 9007199254740992%Z in *. lia.
Qed.

Lemma chunkEnd_spec text chunkSize start :
  0 < chunkSize → start < String.length text →
  let end_ := chunkEnd text chunkSize start in
  let chunk := Js.substring text start end_ in
  start < end_ ∧
  chunk = String.substring start (end_ `min` String.length text - start) text ∧
  0 < String.length chunk ≤ chunkSize + 1 ∧
  (end_ < String.length text → (Z.of_nat (String.length text) < 2 ^ 53)%Z →
   wholeChunk chunkSize chunk).
Proof.
  intros Hpos Hstart end_ chunk.
  assert (start < end_ ∧ end_ ≤ start + chunkSize + 1 ∧
          (end_ < String.length text →
           (Z.of_nat (String.length text) < 2 ^ 53)%Z →
           end_ = start + chunkSize
           ∨ (7 * chunkSize < 10 * (end_ - start) ∧
              String.get (end_ - 1) text = Some "?"%char))) as (Hlt & Hle & Hwhole).
  { unfold end_, chunkEnd, Js.length.
    destruct (Nat.ltb_spec (start + chunkSize) (String.length text)) as [Hin|Hout];
      [|lia].
    destruct (lastIndexOf _ _ _) as [k|] eqn:Hk; [|split; [lia|split; [lia|auto]]].
    apply lastIndexOf_spec in Hk as [Hk Hget].
    destruct (beyondThreshold _ _ _) eqn:Hbeyond; [|split; [lia|split; [lia|auto]]].
    pose proof (beyond_threshold_start _ _ _ Hbeyond) as Hafter.
    split; [lia|]. split; [lia|]. intros _ Hsize. right.
    replace (k + 1 - 1) with k by lia. split; [|done].
    apply beyond_threshold_share; [lia|done]. }
  assert (chunk = String.substring start (end_ `min` String.length text - start) text)
    as Hchunk.
  { unfold chunk, Js.substring. f_equal; lia. }
  split; [done|]. split; [done|].
  assert (String.length chunk = end_ `min` String.length text - start) as Hlen.
  { rewrite Hchunk, length_substring. lia. }
  split; [lia|]. intros Hin Hsize. unfold wholeChunk. rewrite Hlen.
  destruct (Hwhole Hin Hsize) as [->|[Hbeyond Hget]].
  - split; [lia|]. left. lia.
  - split; [lia|]. right. rewrite Hchunk.
    rewrite String.substring_correct1 by lia.
    rewrite <- Hget. f_equal. lia.
Qed.

Lemma splitTextIntoChunks_loop_unfold fuel text chunkSize start chunks :
  splitTextIntoChunks_loop fuel text chunkSize start chunks =
  if start <? Js.length text then
    match fuel with
    | 0 => None
    | S fuel =>
        splitTextIntoChunks_loop fuel text chunkSize (chunkEnd text chunkSize start)
          (chunks ++ [Js.substring text start (chunkEnd text chunkSize start)])
    end
  else Some chunks.
Proof. by destruct fuel. Qed.

Lemma splitTextIntoChunks_loop_spec text chunkSize fuel start chunks :
  0 < chunkSize → String.length text - start ≤ fuel →
  Js.join EmptyString chunks = String.substring 0 start text →
  Forall (λ chunk, 0 < String.length chunk ≤ chunkSize + 1) chunks →
  (start < String.length text → (Z.of_nat (String.length text) < 2 ^ 53)%Z →
   Forall (wholeChunk chunkSize) chunks) →
  ((Z.of_nat (String.length text) < 2 ^ 53)%Z →
   allButLast (wholeChunk chunkSize) chunks) →
  ∃ result,
    splitTextIntoChunks_loop fuel text chunkSize start chunks = Some result ∧
    Js.join EmptyString result = text ∧
    Forall (λ chunk, 0 < String.length chunk ≤ chunkSize + 1) result ∧
    ((Z.of_nat (String.length text) < 2 ^ 53)%Z →
     allButLast (wholeChunk chunkSize) result).
Proof.
  intros Hpos. revert start chunks.
  induction fuel as [|fuel IH]; intros start chunks Hfuel Hjoin Hlen Hwhole Hlast;
    rewrite splitTextIntoChunks_loop_unfold; unfold Js.length;
    (destruct (Nat.ltb_spec start (String.length text)) as [Hin|Hout];
     [|exists chunks; rewrite Hjoin, substring_0_all by lia; done]).
  - lia.
  - destruct (chunkEnd_spec text chunkSize start Hpos Hin)
      as (Hlt & Hchunk & Hchunk_len & Hchunk_whole).
    set (end_ := chunkEnd text chunkSize start) in *.
    apply IH.
    + lia.
    + rewrite join_empty_snoc, Hjoin, Hchunk, substring_split.
      destruct (decide (end_ ≤ String.length text)).
      * f_equal. lia.
      * rewrite !substring_0_all by lia. done.
    + apply Forall_app. split; [done|]. by constructor.
    + intros Hend Hsize. apply Forall_app. split; [auto|].
      constructor; [|done]. by apply Hchunk_whole.
    + intros Hsize i x Hx Hi. rewrite length_app in Hi. simpl in Hi.
      rewrite lookup_app_l in Hx by lia.
      specialize (Hwhole Hin Hsize). rewrite Forall_lookup in Hwhole.
      by eapply Hwhole.
Qed.

Lemma splitTextIntoChunks_loop_more fuel fuel' text chunkSize start chunks result :
  splitTextIntoChunks_loop fuel text chunkSize start chunks = Some result →
  fuel ≤ fuel' →
  splitTextIntoChunks_loop fuel' text chunkSize start chunks = Some result.
Proof.
  revert fuel' start chunks.
  induction fuel as [|fuel IH]; intros fuel' start chunks Hrun Hle;
    rewrite splitTextIntoChunks_loop_unfold in Hrun;
    rewrite (splitTextIntoChunks_loop_unfold fuel');
    destruct (start <? Js.length text); try done.
  destruct fuel' as [|fuel']; [lia|].
  apply IH; [done|lia].
Qed.

Lemma splitTextIntoChunks_returns text chunkSize :
  0 < chunkSize →
  ∃ chunks,
    (∀ fuel, String.length text ≤ fuel →
             splitTextIntoChunks fuel text chunkSize = Some chunks) ∧
    Js.join EmptyString chunks = text ∧
    Forall (λ chunk, 0 < String.length chunk ≤ chunkSize + 1) chunks ∧
    ((Z.of_nat (String.length text) < 2 ^ 53)%Z →
     allButLast (wholeChunk chunkSize) chunks).
Proof.
  intros Hpos.
  assert (Js.join EmptyString [] = String.substring 0 0 text) as Hstart
    by (by destruct text).
  assert (allButLast (wholeChunk chunkSize) []) as Hnone by (by intros i x [=]).
  destruct (splitTextIntoChunks_loop_spec text chunkSize (String.length text) 0 []
              Hpos ltac:(lia) Hstart ltac:(constructor) ltac:(constructor)
              ltac:(done))
    as (chunks & Hrun & Hjoin & Hlen & Hwhole).
  exists chunks. split; [|done].
  intros fuel Hfuel. by eapply splitTextIntoChunks_loop_more.
Qed.

(** With a positive chunk size [splitTextIntoChunks] returns (within
    [text.length] iterations) chunks that, put end to end, are the text:
    nothing is lost or repeated.  No chunk is empty or longer than
    [chunkSize + 1].  In a text that the language can hold (fewer than 2^53
    characters) every chunk but the last is exactly [chunkSize] long, or
    is longer than 70% of [chunkSize] and ends with a question mark.  The
    threshold is the rounded [start + chunkSize * 0.7] of the program. *)
Theorem splitTextIntoChunks_partition (text : string) (chunkSize : nat) :
  0 < chunkSize →
  ∃ chunks,
    (∀ fuel, Js.length text ≤ fuel →
             splitTextIntoChunks fuel text chunkSize = Some chunks) ∧
    Js.join EmptyString chunks = text ∧
    Forall (λ chunk, 0 < Js.length chunk ≤ chunkSize + 1) chunks ∧
    ((Z.of_nat (Js.length text) < 2 ^ 53)%Z →
     ∀ i chunk, chunks !! i = Some chunk → S i < length chunks →
       7 * chunkSize < 10 * Js.length chunk ∧
       (Js.length chunk = chunkSize
        ∨ Js.charAt chunk (Js.length chunk - 1) = Some "?"%char)).
Proof. apply splitTextIntoChunks_returns. Qed.

(** A question mark at position 63 ends a chunk of size 90 that starts at
    0: the threshold [0 + 90 * 0.7] is 62.99999999999999, below 63. *)
Lemma splitTextIntoChunks_partition_witness :
  (∃ chunks,
     (∀ fuel, Js.length thresholdText ≤ fuel →
              splitTextIntoChunks fuel thresholdText 90 = Some chunks) ∧
     Js.join EmptyString chunks = thresholdText ∧
     Forall (λ chunk, 0 < Js.length chunk ≤ 90 + 1) chunks ∧
     ((Z.of_nat (Js.length thresholdText) < 2 ^ 53)%Z →
      ∀ i chunk, chunks !! i = Some chunk → S i < length chunks →
        7 * 90 < 10 * Js.length chunk ∧
        (Js.length chunk = 90
         ∨ Js.charAt chunk (Js.length chunk - 1) = Some "?"%char))) ∧
  (λ chunks : list string, Js.length <$> chunks)
    <$> splitTextIntoChunks 164 thresholdText 90 = Some [64; 90; 10].
Proof.
  split.
  - apply (splitTextIntoChunks_partition thresholdText 90). lia.
  - by vm_compute.
Defined.

(** With [chunkSize = 0] the loop does not advance on a non-empty text:
    no number of iterations is enough. *)
Lemma splitTextIntoChunks_loop_stuck fuel text start chunks :
  start < String.length text →
  splitTextIntoChunks_loop fuel text 0 start chunks = None.
Proof.
  intros Hin. revert chunks. induction fuel as [|fuel IH]; intros chunks;
    rewrite splitTextIntoChunks_loop_unfold; unfold Js.length;
    rewrite (proj2 (Nat.ltb_lt _ _) Hin); [done|].
  assert (chunkEnd text 0 start = start) as ->; [|apply IH].
  unfold chunkEnd, Js.length. rewrite Nat.add_0_r, (proj2 (Nat.ltb_lt _ _) Hin).
  destruct (lastIndexOf _ _ _) as [k|] eqn:Hk; [|done].
  apply lastIndexOf_spec in Hk as [Hk _].
  destruct (beyondThreshold _ _ _) eqn:Hbeyond; [|done].
  apply beyond_threshold_start in Hbeyond. lia.
Qed.

(** *** [extractQuestionsFromPDF] *)

Lemma renumber_app n questions more :
  renumber n (questions ++ more) =
  renumber n questions ++ renumber (n + length questions) more.
Proof.
  unfold renumber. rewrite imap_app. f_equal.
  apply imap_ext. intros i q _. simpl. f_equal. lia.
Qed.

Lemma renumber_length n questions : length (renumber n questions) = length questions.
Proof. apply length_imap. Qed.

Lemma renumber_ids n questions :
  Question.id <$> renumber n questions =
  (λ i, IdNum (Z.of_nat i)) <$> seq n (length questions).
Proof.
  revert n. induction questions as [|q questions IH]; intros n; [done|].
  change (q :: questions) with ([q] ++ questions).
  rewrite renumber_app. simpl. rewrite Nat.add_0_r. f_equal.
  rewrite IH. f_equal. f_equal. lia.
Qed.

Lemma collectChunk_fold acc results :
  foldl collectChunk acc results =
  (acc.1 ++ renumber acc.2 (concat (questionsOf <$> results)),
   acc.2 + length (concat (questionsOf <$> results))).
Proof.
  revert acc. induction results as [|result results IH]; intros [qs n]; simpl.
  - by rewrite app_nil_r, Nat.add_0_r.
  - rewrite IH. destruct result as [questions|error]; simpl; [|done].
    rewrite renumber_app, length_app, <- app_assoc. f_equal.
    symmetry. apply Nat.add_assoc.
Qed.

Section Chunks.
Context (processTextChunk : nat → ChunkCall → settled (list Question.t)).
Context (chunks : list string).

Lemma chunk_batches_fold batches calls acc :
  foldl (λ '(calls, acc) batch,
           let batchCalls := chunkCalls chunks batch in
           let batchResults :=
             imap (λ i call, processTextChunk (length calls + i) call) batchCalls in
           (calls ++ batchCalls, foldl collectChunk acc batchResults))
        (calls, acc) batches =
  let more := chunkCalls chunks (concat batches) in
  let results := imap (λ i call, processTextChunk (length calls + i) call) more in
  (calls ++ more,
   (acc.1 ++ renumber acc.2 (concat (questionsOf <$> results)),
    acc.2 + length (concat (questionsOf <$> results)))).
Proof.
  revert calls acc. induction batches as [|batch batches IH]; intros calls [qs n].
  - simpl. by rewrite !app_nil_r, Nat.add_0_r.
  - cbn [foldl concat]. rewrite IH, collectChunk_fold. cbv zeta. cbn [fst snd].
    assert (chunkCalls chunks (batch ++ concat batches) =
            chunkCalls chunks batch ++ chunkCalls chunks (concat batches)) as ->
      by apply fmap_app.
    set (B := chunkCalls chunks batch).
    set (M := chunkCalls chunks (concat batches)).
    assert (imap (λ i call, processTextChunk (length calls + i) call) (B ++ M) =
            imap (λ i call, processTextChunk (length calls + i) call) B
            ++ imap (λ i call, processTextChunk (length (calls ++ B) + i) call) M)
      as ->.
    { rewrite imap_app. f_equal. apply imap_ext. intros i call _. simpl.
      rewrite length_app. f_equal. lia. }
    rewrite fmap_app, concat_app, renumber_app, length_app, <- !app_assoc.
    f_equal. f_equal. rewrite length_app. lia.
Qed.

End Chunks.

Lemma property_keys_distinct n m :
  NoDup ((λ i, propertyKey (IdNum (Z.of_nat i))) <$> seq n m).
Proof.
  apply NoDup_fmap_2; [|apply NoDup_seq].
  intros i j Hij. simpl in Hij. apply (inj pretty) in Hij. lia.
Qed.

Lemma extractQuestionsInChunksParallel_spec
    (processTextChunk : nat → ChunkCall → settled (list Question.t))
    (pdfText : string) (chunkSize fuel : nat) :
  0 < chunkSize → Js.length pdfText ≤ fuel →
  ∃ chunks calls questions,
    splitTextIntoChunks fuel pdfText chunkSize = Some chunks ∧
    extractQuestionsInChunksParallel fuel processTextChunk pdfText chunkSize
      = Some (calls, questions) ∧
    calls = chunkCalls chunks chunks ∧
    questions = renumber 1 (concat (questionsOf <$> imap processTextChunk calls)) ∧
    Question.id <$> questions =
      (λ i, IdNum (Z.of_nat i)) <$> seq 1 (length questions) ∧
    NoDup (propertyKey ∘ Question.id <$> questions).
Proof.
  intros Hpos Hfuel.
  destruct (splitTextIntoChunks_returns pdfText chunkSize Hpos) as (chunks & Hrun & _).
  specialize (Hrun fuel Hfuel).
  exists chunks, (chunkCalls chunks chunks),
    (renumber 1 (concat (questionsOf <$>
                           imap processTextChunk (chunkCalls chunks chunks)))).
  split; [done|]. split.
  - unfold extractQuestionsInChunksParallel. rewrite Hrun.
    cbn [mbind option_bind]. rewrite chunk_batches_fold. cbv zeta.
    rewrite OrchestratorFacts.createBatches_concat by lia. done.
  - split; [done|]. split; [done|].
    assert (Question.id <$> renumber 1 (concat (questionsOf <$>
              imap processTextChunk (chunkCalls chunks chunks))) =
            (λ i, IdNum (Z.of_nat i)) <$>
              seq 1 (length (renumber 1 (concat (questionsOf <$>
                imap processTextChunk (chunkCalls chunks chunks)))))) as Hids.
    { by rewrite renumber_ids, renumber_length. }
    split; [done|].
    rewrite list_fmap_compose, Hids, <- list_fmap_compose.
    apply property_keys_distinct.
Qed.

(** With a positive chunk size [extractQuestionsInChunksParallel] returns:
    it calls [processTextChunk] once per chunk, in the order of the chunks,
    and returns the questions of the chunks that were answered, in that
    order, renumbered 1, 2, 3, ...: the ids of the questions it returns are
    pairwise distinct, whatever ids the model gave. *)
Theorem extractQuestionsInChunksParallel_renumbers
    (processTextChunk : nat → ChunkCall → settled (list Question.t))
    (pdfText : string) (chunkSize fuel : nat) :
  0 < chunkSize → Js.length pdfText ≤ fuel →
  ∃ chunks calls questions,
    splitTextIntoChunks fuel pdfText chunkSize = Some chunks ∧
    extractQuestionsInChunksParallel fuel processTextChunk pdfText chunkSize
      = Some (calls, questions) ∧
    calls = chunkCalls chunks chunks ∧
    questions = renumber 1 (concat (questionsOf <$> imap processTextChunk calls)) ∧
    Question.id <$> questions =
      (λ i, IdNum (Z.of_nat i)) <$> seq 1 (length questions) ∧
    NoDup (propertyKey ∘ Question.id <$> questions).
Proof. apply extractQuestionsInChunksParallel_spec. Qed.

Lemma extractQuestionsInChunksParallel_renumbers_witness :
  ∃ chunks calls questions,
    splitTextIntoChunks 40 "Is it so? Yes. And then? Done" 12 = Some chunks ∧
    extractQuestionsInChunksParallel 40
      (λ n call, if decide (n = 1) then rejected (ApiError 500 "Failed")
                 else fulfilled [sampleQuestion 7; sampleQuestion 7])
      "Is it so? Yes. And then? Done" 12
      = Some (calls, questions) ∧
    calls = chunkCalls chunks chunks ∧
    questions =
      renumber 1 (concat (questionsOf <$>
        imap (λ n call, if decide (n = 1) then rejected (ApiError 500 "Failed")
                        else fulfilled [sampleQuestion 7; sampleQuestion 7])
             calls)) ∧
    Question.id <$> questions =
      (λ i, IdNum (Z.of_nat i)) <$> seq 1 (length questions) ∧
    NoDup (propertyKey ∘ Question.id <$> questions).
Proof.
  apply (extractQuestionsInChunksParallel_renumbers
           (λ n call, if decide (n = 1) then rejected (ApiError 500 "Failed")
                      else fulfilled [sampleQuestion 7; sampleQuestion 7])
           "Is it so? Yes. And then? Done" 12 40).
  - lia.
  - simpl. lia.
Defined.

(** [extractQuestionsFromPDF] returns for every text.  A text of at most
    30,000 characters is sent whole, in one call.  Of a text of 30,001 to
    60,000 characters only the first 30,000 are sent (with the marker
    appended): what follows is never read.  A longer text is sent in
    chunks that together are the whole text.  No call carries more than
    30,014 characters. *)
Theorem extractQuestionsFromPDF_coverage
    (processTextChunk : nat → ChunkCall → settled (list Question.t))
    (pdfText : string) (fuel : nat) :
  Js.length pdfText ≤ fuel →
  ∃ calls result,
    extractQuestionsFromPDF fuel processTextChunk pdfText = Some (calls, result) ∧
    Forall (λ call, Js.length (chunkText call) ≤ maxTextLength + 14) calls ∧
    (Js.length pdfText ≤ maxTextLength →
     calls = [mkChunkCall pdfText 1 1] ∧
     result = processTextChunk 0 (mkChunkCall pdfText 1 1)) ∧
    (maxTextLength < Js.length pdfText ≤ 2 * maxTextLength →
     ∃ call, calls = [call] ∧ result = processTextChunk 0 call ∧
             chunkText call = String.substring 0 maxTextLength pdfText
                              +:+ "...[truncated]") ∧
    (2 * maxTextLength < Js.length pdfText →
     Js.join EmptyString (chunkText <$> calls) = pdfText ∧
     ∃ questions, result = fulfilled questions ∧
                  NoDup (propertyKey ∘ Question.id <$> questions)).
Proof.
  intros Hfuel. unfold extractQuestionsFromPDF.
  assert (0 < maxTextLength) as Hpos by (unfold maxTextLength; lia).
  destruct (Nat.ltb_spec (maxTextLength * 2) (Js.length pdfText)) as [Hlarge|Hsmall].
  - destruct (extractQuestionsInChunksParallel_spec processTextChunk pdfText
                maxTextLength fuel Hpos Hfuel)
      as (chunks & calls & questions & Hsplit & -> & Hcalls & _ & _ & Hdistinct).
    cbn [mbind option_bind fst snd].
    exists calls, (fulfilled questions). split; [done|].
    destruct (splitTextIntoChunks_returns pdfText maxTextLength Hpos)
      as (chunks' & Hrun & Hjoin & Hlen & _).
    rewrite (Hrun fuel Hfuel) in Hsplit. injection Hsplit as ->.
    assert (chunkText <$> calls = chunks) as Htexts.
    { rewrite Hcalls. unfold chunkCalls. rewrite <- list_fmap_compose.
      apply list_fmap_id. }
    split.
    { rewrite <- Htexts, Forall_fmap in Hlen.
      eapply Forall_impl; [exact Hlen|]. cbn beta. intros call ?.
      unfold Js.length, compose in *. lia. }
    split; [intros ?; lia|]. split; [intros ?; lia|].
    intros _. rewrite Htexts. split; [done|]. by exists questions.
  - destruct (Nat.ltb_spec maxTextLength (Js.length pdfText)) as [Hmedium|Htiny].
    + eexists _, _. split; [done|]. split.
      { constructor; [|done]. cbn [chunkText]. unfold Js.length, Js.substring.
        rewrite length_append, length_substring.
        change (String.length "...[truncated]") with 14. lia. }
      split; [intros ?; lia|]. split; [|intros ?; lia].
      intros _. eexists. split; [done|]. split; [done|]. cbn [chunkText].
      unfold Js.substring. f_equal. unfold Js.length in *. f_equal; lia.
    + eexists _, _. split; [done|]. split.
      { constructor; [|done]. cbn [chunkText]. lia. }
      split; [done|]. split; intros ?; lia.
Qed.

Lemma extractQuestionsFromPDF_coverage_witness :
  ∃ calls result,
    extractQuestionsFromPDF 5 (λ _ _, fulfilled [sampleQuestion 1]) "Why?"
      = Some (calls, result) ∧
    calls = [mkChunkCall "Why?" 1 1] ∧ result = fulfilled [sampleQuestion 1].
Proof.
  destruct (extractQuestionsFromPDF_coverage
              (λ _ _, fulfilled [sampleQuestion 1]) "Why?" 5)
    as (calls & result & Hrun & _ & Hsmall & _);
    [unfold Js.length; cbn [String.length]; lia|].
  exists calls, result. split; [done|]. apply Hsmall.
  unfold maxTextLength, Js.length. cbn [String.length]. lia.
Defined.

End TextFacts.

(** ** The policy index *)

Module IndexFacts.
Import Orchestrator Ranker Hash Store Index.

(** *** Sorting the keywords *)

Lemma precedes_compareStrings a b :
  Js.precedes compareStrings a b ↔ String.le a b.
Proof.
  unfold Js.precedes, Js.cmp_le, compareStrings, String.le, String.leb.
  destruct (String.compare a b); simpl; split; done.
Qed.

Lemma sort_strings (l : list string) :
  Js.sort compareStrings l = merge_sort String.le l.
Proof.
  apply (@StronglySorted_unique string String.le _).
  - eapply JsFacts.StronglySorted_mono;
      [| apply (JsFacts.sort_sorted _ (λ _, True)); [..| by apply Forall_true]].
    + intros x y. apply precedes_compareStrings.
    + intros x y _ _. rewrite !precedes_compareStrings. apply total, _.
    + intros x y z _ _ _. rewrite !precedes_compareStrings. apply transitivity.
  - apply StronglySorted_merge_sort; apply _.
  - by rewrite JsFacts.sort_perm, merge_sort_Permutation.
Qed.

Lemma sort_strings_perm (l l' : list string) :
  l ≡ₚ l' → Js.sort compareStrings l = Js.sort compareStrings l'.
Proof.
  intros Hperm. rewrite !sort_strings.
  apply (@StronglySorted_unique string String.le _).
  - apply StronglySorted_merge_sort; apply _.
  - apply StronglySorted_merge_sort; apply _.
  - by rewrite !merge_sort_Permutation.
Qed.

(** *** The score does not depend on the order of the keywords *)

Lemma scoreOf_perm question question' policy :
  Question.keywords question ≡ₚ Question.keywords question' →
  Question.category question = Question.category question' →
  Question.text question = Question.text question' →
  Question.description question = Question.description question' →
  scoreOf question policy = scoreOf question' policy.
Proof.
  intros Hk Hc Ht Hd. unfold scoreOf, normalizeQuestion, normalizePolicy.
  rewrite Hc, Ht, Hd.
  rewrite !RankerFacts.calculateRelevanceScore_sum, !RankerLaws.scoreKeywordPairs_sum.
  unfold otherBonuses. simpl. rewrite !RankerLaws.count_if_sum.
  assert (Js.toLowerCase <$> Question.keywords question
          ≡ₚ Js.toLowerCase <$> Question.keywords question') as Hlow
    by (by apply fmap_Permutation).
  rewrite (RankerLaws.sumZ_perm _ _ _ Hlow).
  rewrite (RankerLaws.sumZ_perm
             (λ x, if Js.includes _ x then _ else _) _ _ Hlow).
  by rewrite (RankerLaws.sumZ_perm
                (λ x, if Js.includes _ x || _ then _ else _) _ _ Hlow).
Qed.

Lemma createQuestionSignature_keeps question :
  let sorted := (createQuestionSignature question).2 in
  Question.keywords sorted ≡ₚ Question.keywords question ∧
  Question.keywords sorted = Js.sort compareStrings (Question.keywords question) ∧
  Question.id sorted = Question.id question ∧
  Question.category sorted = Question.category question ∧
  Question.text sorted = Question.text question ∧
  Question.description sorted = Question.description question.
Proof. simpl. split; [apply JsFacts.sort_perm|done]. Qed.

(** Two questions that differ only in the order of their keywords have the
    same signature, hence share one entry of the relevance cache; and they
    have the same score against every policy. *)
Theorem createQuestionSignature_keyword_order (question question' : Question.t)
    (policy : Policy.t) :
  Question.keywords question ≡ₚ Question.keywords question' →
  Question.category question = Question.category question' →
  Question.text question = Question.text question' →
  Question.description question = Question.description question' →
  (createQuestionSignature question).1 = (createQuestionSignature question').1 ∧
  scoreOf question policy = scoreOf question' policy ∧
  scoreOf (createQuestionSignature question).2 policy = scoreOf question policy.
Proof.
  intros Hk Hc Ht Hd. split; [|split].
  - unfold createQuestionSignature. simpl.
    by rewrite (sort_strings_perm _ _ Hk), Hc, Ht, Hd.
  - by apply scoreOf_perm.
  - apply scoreOf_perm; try done. apply JsFacts.sort_perm.
Qed.

Lemma createQuestionSignature_keyword_order_witness :
  let question := sampleQuestion 1 in
  let question' :=
    Question.mk (IdNum 2) "Does the P&P state the retention period?"
                "Privacy & Security" ["retention"; "privacy"] "Retention" true in
  let policy := samplePolicy "a.pdf" 0 in
  (createQuestionSignature question).1 = (createQuestionSignature question').1 ∧
  scoreOf question policy = scoreOf question' policy ∧
  scoreOf (createQuestionSignature question).2 policy = scoreOf question policy.
Proof.
  intros question question' policy.
  apply (createQuestionSignature_keyword_order question question' policy);
    [apply Permutation_swap|reflexivity..].
Defined.

(** *** [findRelevantPolicies] *)

Lemma byScore_precedes a b :
  Js.precedes byScore a b ↔ (Policy.score b ≤ Policy.score a)%Z.
Proof. unfold Js.precedes, Js.cmp_le, byScore. rewrite Z.leb_le. lia. Qed.

Lemma sort_byScore_sorted l :
  StronglySorted (λ a b, Policy.score b ≤ Policy.score a)%Z (Js.sort byScore l).
Proof.
  eapply JsFacts.StronglySorted_mono;
    [| apply (JsFacts.sort_sorted _ (λ _, True)); [..| by apply Forall_true]].
  - intros x y. apply byScore_precedes.
  - intros x y _ _. rewrite !byScore_precedes. lia.
  - intros x y z _ _ _. rewrite !byScore_precedes. lia.
Qed.

(** The first [k] elements of a sorted list are the best. *)
Lemma take_sorted_best {A} (R : relation A) (l : list A) (k : nat) x :
  StronglySorted R l → x ∈ l →
  x ∈ take k l ∨ (length (take k l) = k ∧ ∀ y, y ∈ take k l → R y x).
Proof.
  intros Hsorted Hx. rewrite <- (take_drop k l) in Hx, Hsorted.
  apply elem_of_app in Hx as [Hx|Hx]; [by left|]. right. split.
  - rewrite length_take. destruct (decide (k ≤ length l)); [lia|].
    rewrite drop_ge in Hx by lia. by apply elem_of_nil in Hx.
  - intros y Hy. by eapply StronglySorted_app_1_elem_of.
Qed.

Lemma findRelevantPolicies_miss service question maxResults :
  isLoaded service = true → policyIndex service ≠ [] →
  Cache.read (relevanceScoringCache service) (createQuestionSignature question).1
    = None →
  let sorted := (createQuestionSignature question).2 in
  let ranked :=
    take maxResults
      (Js.sort byScore
         (filter (λ p, (0 < Policy.score p)%Z)
                 ((λ policy, withScore policy (scoreOf sorted policy))
                    <$> policyIndex service))) in
  findRelevantPolicies service question maxResults =
  (setRelevanceScoringCache service
     (cacheSet Cache.RelevanceScoring (createQuestionSignature question).1 ranked
               (relevanceScoringCache service)),
   sorted, fulfilled ranked).
Proof.
  intros Hloaded Hindex Hmiss. unfold findRelevantPolicies.
  rewrite Hloaded. simpl negb. cbv iota.
  destruct (policyIndex service) as [|policy index] eqn:Hpolicies; [done|].
  cbn [length Nat.eqb].
  destruct (createQuestionSignature question) as [signature sorted] eqn:Hsig.
  simpl in Hmiss. by rewrite Hmiss.
Qed.

(** On a loaded, non-empty index, for a question whose signature is not in
    the cache, [findRelevantPolicies] returns at most [maxResults]
    policies of the index, each with its score (that of the question as
    given), all scores positive, in descending order of score, and no
    policy left out scores higher than one returned; the list is stored in
    the cache under the signature. *)
Theorem findRelevantPolicies_ranked (service : Service) (question : Question.t)
    (maxResults : nat) :
  isLoaded service = true → policyIndex service ≠ [] →
  Cache.read (relevanceScoringCache service) (createQuestionSignature question).1
    = None →
  ∃ service' ranked,
    findRelevantPolicies service question maxResults =
      (service', (createQuestionSignature question).2, fulfilled ranked) ∧
    length ranked ≤ maxResults ∧
    (∀ p, p ∈ ranked →
       (0 < Policy.score p)%Z ∧
       ∃ policy, policy ∈ policyIndex service ∧
                 p = withScore policy (scoreOf question policy)) ∧
    StronglySorted (λ a b, Policy.score b ≤ Policy.score a)%Z ranked ∧
    (∀ policy, policy ∈ policyIndex service → (0 < scoreOf question policy)%Z →
       withScore policy (scoreOf question policy) ∈ ranked
       ∨ (length ranked = maxResults ∧
          ∀ p, p ∈ ranked → (scoreOf question policy ≤ Policy.score p)%Z)) ∧
    Cache.read (relevanceScoringCache service') (createQuestionSignature question).1
      = Some ranked.
Proof.
  intros Hloaded Hindex Hmiss.
  rewrite (findRelevantPolicies_miss _ _ _ Hloaded Hindex Hmiss). cbv zeta.
  assert (∀ policy, scoreOf (createQuestionSignature question).2 policy
                    = scoreOf question policy) as Hscore.
  { intros policy. apply scoreOf_perm; try done. apply JsFacts.sort_perm. }
  rewrite (list_fmap_ext _ (λ policy, withScore policy (scoreOf question policy))
             (policyIndex service)) by (intros ? policy _; by rewrite Hscore).
  set (scored := (λ policy, withScore policy (scoreOf question policy))
                   <$> policyIndex service).
  set (positive := filter (λ p, (0 < Policy.score p)%Z) scored).
  eexists _, _. split; [done|]. split; [rewrite length_take; lia|].
  assert (∀ p, p ∈ Js.sort byScore positive ↔
               (0 < Policy.score p)%Z ∧ p ∈ scored) as Hin.
  { intros p. rewrite JsFacts.sort_perm. unfold positive.
    by rewrite list_elem_of_filter. }
  split; [|split; [|split]].
  - intros p Hp%elem_of_take. destruct Hp as (i & Hp & _).
    apply list_elem_of_lookup_2, Hin in Hp as [Hpos Hp].
    split; [done|]. unfold scored in Hp.
    apply list_elem_of_fmap in Hp as (policy & -> & Hpolicy). eauto.
  - pose proof (sort_byScore_sorted positive) as Hsorted.
    rewrite <- (take_drop maxResults (Js.sort byScore positive)) in Hsorted.
    by apply StronglySorted_app_1_l in Hsorted.
  - intros policy Hpolicy Hpos.
    apply (take_sorted_best (λ a b, Policy.score b ≤ Policy.score a)%Z
             (Js.sort byScore positive) maxResults
             (withScore policy (scoreOf question policy))).
    + apply sort_byScore_sorted.
    + apply Hin. split; [done|]. unfold scored.
      apply list_elem_of_fmap. eauto.
  - unfold Cache.read, cacheSet. simpl. by rewrite lookup_insert_eq.
Qed.

(** What a service answers from its cache: [maxResults] plays no part. *)
Lemma findRelevantPolicies_hit service question maxResults cached :
  isLoaded service = true → policyIndex service ≠ [] →
  Cache.read (relevanceScoringCache service) (createQuestionSignature question).1
    = Some cached →
  findRelevantPolicies service question maxResults =
  (service, (createQuestionSignature question).2, fulfilled cached).
Proof.
  intros Hloaded Hindex Hhit. unfold findRelevantPolicies.
  rewrite Hloaded. simpl negb. cbv iota.
  destruct (policyIndex service) as [|policy index] eqn:Hpolicies; [done|].
  cbn [length Nat.eqb].
  destruct (createQuestionSignature question) as [signature sorted] eqn:Hsig.
  simpl in Hhit. by rewrite Hhit.
Qed.

(** The relevance cache and [findRelevantPolicies], in every state of a
    service whose index is loaded and not empty.  While the cache holds a
    list under the signature of a question, the call returns that list and
    leaves the service as it is: the index is not scored again and
    [maxResults] is not looked at.  When the cache holds nothing under the
    signature, the call stores the list that it returns under it, and
    keeps the index, the identifier cache and every other entry of the
    relevance cache. *)
Theorem findRelevantPolicies_repeats (service : Service) :
  isLoaded service = true → policyIndex service ≠ [] →
  (∀ question maxResults cached,
     Cache.read (relevanceScoringCache service) (createQuestionSignature question).1
       = Some cached →
     findRelevantPolicies service question maxResults
     = (service, (createQuestionSignature question).2, fulfilled cached)) ∧
  (∀ question maxResults,
     Cache.read (relevanceScoringCache service) (createQuestionSignature question).1
       = None →
     ∃ service' ranked,
       findRelevantPolicies service question maxResults
       = (service', (createQuestionSignature question).2, fulfilled ranked) ∧
       Cache.read (relevanceScoringCache service')
                  (createQuestionSignature question).1 = Some ranked ∧
       (∀ key, key ≠ (createQuestionSignature question).1 →
               Cache.read (relevanceScoringCache service') key
               = Cache.read (relevanceScoringCache service) key) ∧
       isLoaded service' = true ∧
       policyIndex service' = policyIndex service ∧
       policyFileIdCache service' = policyFileIdCache service).
Proof.
  intros Hloaded Hindex. split.
  - intros question maxResults cached Hhit. by apply findRelevantPolicies_hit.
  - intros question maxResults Hmiss. eexists _, _.
    split; [by apply findRelevantPolicies_miss|].
    unfold Cache.read, cacheSet. simpl.
    split; [by rewrite lookup_insert_eq|]. split; [|done].
    intros key Hkey. by rewrite lookup_insert_ne.
Qed.

Lemma read_empty {V} key : Cache.read (@Cache.empty V) key = None.
Proof. unfold Cache.read, Cache.empty. simpl. by rewrite lookup_empty. Qed.

Lemma findRelevantPolicies_ranked_witness :
  ∃ service' ranked,
    findRelevantPolicies sampleService (sampleQuestion 1) 2 =
      (service', (createQuestionSignature (sampleQuestion 1)).2, fulfilled ranked) ∧
    length ranked ≤ 2 ∧
    (∀ p, p ∈ ranked →
       (0 < Policy.score p)%Z ∧
       ∃ policy, policy ∈ policyIndex sampleService ∧
                 p = withScore policy (scoreOf (sampleQuestion 1) policy)) ∧
    StronglySorted (λ a b, Policy.score b ≤ Policy.score a)%Z ranked ∧
    (∀ policy, policy ∈ policyIndex sampleService →
       (0 < scoreOf (sampleQuestion 1) policy)%Z →
       withScore policy (scoreOf (sampleQuestion 1) policy) ∈ ranked
       ∨ (length ranked = 2 ∧
          ∀ p, p ∈ ranked → (scoreOf (sampleQuestion 1) policy ≤ Policy.score p)%Z)) ∧
    Cache.read (relevanceScoringCache service')
               (createQuestionSignature (sampleQuestion 1)).1
      = Some ranked.
Proof.
  apply (findRelevantPolicies_ranked sampleService (sampleQuestion 1) 2).
  - reflexivity.
  - discriminate.
  - apply read_empty.
Defined.

Lemma findRelevantPolicies_repeats_witness :
  let service :=
    (findRelevantPolicies sampleService (sampleQuestion 1) 10).1.1 in
  (∀ question maxResults cached,
     Cache.read (relevanceScoringCache service) (createQuestionSignature question).1
       = Some cached →
     findRelevantPolicies service question maxResults
     = (service, (createQuestionSignature question).2, fulfilled cached)) ∧
  (∀ question maxResults,
     Cache.read (relevanceScoringCache service) (createQuestionSignature question).1
       = None →
     ∃ service' ranked,
       findRelevantPolicies service question maxResults
       = (service', (createQuestionSignature question).2, fulfilled ranked) ∧
       Cache.read (relevanceScoringCache service')
                  (createQuestionSignature question).1 = Some ranked ∧
       (∀ key, key ≠ (createQuestionSignature question).1 →
               Cache.read (relevanceScoringCache service') key
               = Cache.read (relevanceScoringCache service) key) ∧
       isLoaded service' = true ∧
       policyIndex service' = policyIndex service ∧
       policyFileIdCache service' = policyFileIdCache service).
Proof.
  apply (findRelevantPolicies_repeats
           (findRelevantPolicies sampleService (sampleQuestion 1) 10).1.1).
  - reflexivity.
  - discriminate.
Defined.

(** *** [getPolicyFileId] *)

Lemma getPolicyFileId_cached initialized listing service policyInfo fileId :
  Policy.subfolder policyInfo ≠ EmptyString →
  Policy.pdf_name policyInfo ≠ EmptyString →
  cachedFileId service policyInfo = Some fileId →
  getPolicyFileId initialized listing service (Some policyInfo)
  = (service, fulfilled fileId).
Proof.
  intros Hsub Hname Hcached. unfold getPolicyFileId.
  rewrite decide_False by (by intros [?|?]). by rewrite Hcached.
Qed.

Lemma getPolicyFileId_cases initialized listing service policyInfo :
  let result := getPolicyFileId initialized listing service policyInfo in
  (∃ fileId, result.2 = fulfilled fileId ∧
     ∃ policy, policyInfo = Some policy ∧
       Policy.subfolder policy ≠ EmptyString ∧
       Policy.pdf_name policy ≠ EmptyString ∧
       (fileId ≠ EmptyString → cachedFileId result.1 policy = Some fileId) ∧
       (cachedFileId service policy = Some fileId ∧ result.1 = service
        ∨ cachedFileId service policy = None ∧
          ∃ subfolderId file,
            folderMapping service !! Policy.subfolder policy = Some subfolderId ∧
            findPolicyFileOptimized listing (Policy.pdf_name policy) subfolderId
              = Some (Some file) ∧
            fileId = DriveFile.id file))
  ∨ (∃ error, result.2 = rejected error ∧ result.1 = service ∧
       (statusCode error = Some 400 ∨ statusCode error = Some 404
        ∨ initialized = rejected error
        ∨ (∃ cause, initialized = rejected cause ∧ statusCode cause = None
                    ∧ statusCode error = Some 500))).
Proof.
  unfold getPolicyFileId.
  destruct policyInfo as [policy|]; [|right; eexists; simpl; eauto].
  destruct (decide _) as [|Hvalid]; [right; eexists; simpl; eauto|].
  assert (Policy.subfolder policy ≠ EmptyString
          ∧ Policy.pdf_name policy ≠ EmptyString) as [Hsub Hname]
    by (split; intros ?; apply Hvalid; auto).
  destruct (cachedFileId service policy) as [fileId|] eqn:Hcached.
  { left. exists fileId. simpl. split; [done|]. exists policy. eauto 10. }
  destruct (folderMapping service !! Policy.subfolder policy) as [subfolderId|]
    eqn:Hfolder; [|right; eexists; simpl; eauto].
  destruct (decide (subfolderId = EmptyString)); [right; eexists; simpl; eauto|].
  destruct initialized as [[]|cause].
  - destruct (findPolicyFileOptimized _ _ _) as [[file|]|] eqn:Hfound;
      [|right; eexists; simpl; eauto..].
    left. exists (DriveFile.id file). simpl. split; [done|].
    exists policy. split; [done|]. split; [done|]. split; [done|]. split.
    + intros Hid. unfold cachedFileId, Cache.read, cacheSet. simpl.
      rewrite lookup_insert_eq. simpl. by rewrite decide_False.
    + right. split; [done|]. eauto.
  - right. cbv zeta. destruct (statusCode cause) eqn:Hstatus.
    + exists cause. simpl. split; [done|]. split; [done|]. right. right. by left.
    + eexists. simpl. split; [done|]. split; [done|]. right. right. right.
      exists cause. eauto.
Qed.

(** Whatever the Drive answers, [getPolicyFileId] fulfils or rejects, and
    it changes the service only when it fulfils.  When the Drive service is
    initialised every rejection carries the status 400 (invalid policy
    info) or 404: a folder listing that fails is reported as a file that
    is not found. *)
Theorem getPolicyFileId_statuses
    (listPDFFilesWithCache : string → settled (list DriveFile.t))
    (service : Service) (policyInfo : option Policy.t) (error : JsError) :
  (getPolicyFileId (fulfilled ()) listPDFFilesWithCache service policyInfo).2
    = rejected error →
  (getPolicyFileId (fulfilled ()) listPDFFilesWithCache service policyInfo).1
    = service ∧
  (statusCode error = Some 400 ∨ statusCode error = Some 404) ∧
  (∀ policy subfolderId cause,
     policyInfo = Some policy →
     Policy.subfolder policy ≠ EmptyString → Policy.pdf_name policy ≠ EmptyString →
     cachedFileId service policy = None →
     folderMapping service !! Policy.subfolder policy = Some subfolderId →
     subfolderId ≠ EmptyString →
     listPDFFilesWithCache subfolderId = rejected cause →
     statusCode error = Some 404).
Proof.
  intros Hrejected.
  destruct (getPolicyFileId_cases (fulfilled ()) listPDFFilesWithCache service
              policyInfo) as [(fileId & Hok & _)|(e & He & Hsame & Hstatus)].
  { cbv zeta in Hok. congruence. }
  cbv zeta in He, Hsame. rewrite Hrejected in He. injection He as <-.
  split; [done|].
  assert (statusCode error = Some 400 ∨ statusCode error = Some 404) as Hcode.
  { destruct Hstatus as [?|[?|[?|(cause & ? & _)]]]; auto; done. }
  split; [done|].
  intros policy subfolderId cause -> Hsub Hname Hcached Hfolder Hid Hlisting.
  unfold getPolicyFileId in Hrejected.
  rewrite decide_False in Hrejected by (by intros [?|?]).
  rewrite Hcached, Hfolder, decide_False in Hrejected by done.
  assert (findPolicyFileOptimized listPDFFilesWithCache (Policy.pdf_name policy)
            subfolderId = Some None) as Hnone.
  { unfold findPolicyFileOptimized, batchFindPolicyFiles, groupByFolder,
      batchFindPolicyFiles_in, processFolder. simpl. rewrite Hlisting. simpl.
    apply lookup_insert_eq. }
  rewrite Hnone in Hrejected. simpl in Hrejected. by injection Hrejected as <-.
Qed.

Lemma getPolicyFileId_statuses_witness :
  (getPolicyFileId (fulfilled ()) (sampleListing []) sampleService
     (Some (samplePolicy "a.pdf" 0))).2
  = rejected (ApiError 404 "Policy file not found: a.pdf in Privacy") ∧
  (getPolicyFileId (fulfilled ()) (sampleListing []) sampleService
     (Some (samplePolicy "a.pdf" 0))).1 = sampleService ∧
  (statusCode (ApiError 404 "Policy file not found: a.pdf in Privacy") = Some 400
   ∨ statusCode (ApiError 404 "Policy file not found: a.pdf in Privacy") = Some 404).
Proof.
  split; [reflexivity|].
  destruct (getPolicyFileId_statuses (sampleListing []) sampleService
              (Some (samplePolicy "a.pdf" 0))
              (ApiError 404 "Policy file not found: a.pdf in Privacy"))
    as (Hsame & Hstatus & _); [reflexivity|].
  by split.
Defined.

Lemma getPolicyFileId_miss initialized listing service policy service' fileId :
  cachedFileId service policy = None →
  getPolicyFileId initialized listing service (Some policy)
    = (service', fulfilled fileId) →
  service' = setPolicyFileIdCache service
               (cacheSet Cache.PolicyFileId (fileIdKey policy) fileId
                         (policyFileIdCache service)).
Proof.
  intros Hmiss. unfold getPolicyFileId.
  destruct (decide _); [done|]. rewrite Hmiss.
  destruct (folderMapping service !! Policy.subfolder policy) as [subfolderId|];
    [|done].
  destruct (decide (subfolderId = EmptyString)); [done|].
  destruct initialized as [[]|cause].
  - destruct (findPolicyFileOptimized _ _ _) as [[file|]|]; [|done..].
    by intros [= <- <-].
  - cbv zeta. by destruct (statusCode cause).
Qed.

(** The identifier cache and [getPolicyFileId], in every state of the
    service.  While the cache holds a (non-empty) file id under the key of
    a subfolder and a file name, the call returns that id for every policy
    with this subfolder and file name and leaves the service as it is: the
    Drive is not asked, whatever its listings hold then, and also when it
    has become unreachable.  When the cache holds no such id and the call
    returns one, the id is stored under the key, and the index, the
    relevance cache and every other entry of the identifier cache are
    kept. *)
Theorem getPolicyFileId_remembers (service : Service) (policy : Policy.t) :
  Policy.subfolder policy ≠ EmptyString →
  Policy.pdf_name policy ≠ EmptyString →
  (∀ fileId initialized listing policy',
     cachedFileId service policy = Some fileId →
     Policy.subfolder policy' = Policy.subfolder policy →
     Policy.pdf_name policy' = Policy.pdf_name policy →
     getPolicyFileId initialized listing service (Some policy')
     = (service, fulfilled fileId)) ∧
  (∀ initialized listing service' fileId,
     cachedFileId service policy = None →
     getPolicyFileId initialized listing service (Some policy)
       = (service', fulfilled fileId) →
     Cache.read (policyFileIdCache service') (fileIdKey policy) = Some fileId ∧
     (fileId ≠ EmptyString → cachedFileId service' policy = Some fileId) ∧
     (∀ key, key ≠ fileIdKey policy →
             Cache.read (policyFileIdCache service') key
             = Cache.read (policyFileIdCache service) key) ∧
     policyIndex service' = policyIndex service ∧
     folderMapping service' = folderMapping service ∧
     relevanceScoringCache service' = relevanceScoringCache service).
Proof.
  intros Hsub Hname. split.
  - intros fileId initialized listing policy' Hcached Hsub' Hname'.
    apply getPolicyFileId_cached; [congruence..|].
    unfold cachedFileId, fileIdKey in *. by rewrite Hsub', Hname'.
  - intros initialized listing service' fileId Hmiss Hcall.
    rewrite (getPolicyFileId_miss _ _ _ _ _ _ Hmiss Hcall).
    unfold cachedFileId, Cache.read, cacheSet. simpl.
    rewrite lookup_insert_eq. simpl.
    split; [done|]. split; [intros Hid; by rewrite decide_False|].
    split; [|done]. intros key Hkey. by rewrite lookup_insert_ne.
Qed.

Lemma getPolicyFileId_remembers_witness :
  let service :=
    (getPolicyFileId (fulfilled ()) (sampleListing [DriveFile.mk "f1" "a.pdf"])
       sampleService (Some (samplePolicy "a.pdf" 0))).1 in
  getPolicyFileId (rejected (ApiError 500 "Failed to initialize Google Drive API"))
    (sampleListing []) service (Some (samplePolicy "a.pdf" 7))
  = (service, fulfilled "f1").
Proof.
  apply (proj1 (getPolicyFileId_remembers
                  (getPolicyFileId (fulfilled ())
                     (sampleListing [DriveFile.mk "f1" "a.pdf"])
                     sampleService (Some (samplePolicy "a.pdf" 0))).1
                  (samplePolicy "a.pdf" 0) ltac:(discriminate) ltac:(discriminate)));
    reflexivity.
Defined.

(** *** [batchCheckPolicyExistence] *)

Lemma batchCheckFilesExist_fold (metadataCached : string → bool)
    (driveGet : nat → string → bool) (batches : list (list string)) (n : nat)
    (results : gmap string bool) :
  foldl (λ '(n, results) batch,
           let batchResults :=
             imap (λ i fileId,
                     (fileId,
                      if metadataCached fileId then true
                      else driveGet (n + i) fileId))
                  batch in
           (n + length batch,
            foldl (λ (results : gmap string bool) (result : string * bool),
                     <[result.1 := result.2]> results)
                  results batchResults))
        (n, results) batches =
  (n + length (concat batches),
   foldl (λ results result, <[result.1 := result.2]> results) results
         (imap (λ i, existence metadataCached driveGet (n + i)) (concat batches))).
Proof.
  revert n results. induction batches as [|batch batches IH]; intros n results.
  - simpl. by rewrite Nat.add_0_r.
  - cbn [foldl concat]. rewrite IH, imap_app, foldl_app, length_app. f_equal.
    + lia.
    + f_equal. apply imap_ext. intros i fileId _. simpl. f_equal. lia.
Qed.

Lemma batchCheckFilesExist_writes metadataCached driveGet fileIds :
  batchCheckFilesExist (fulfilled ()) metadataCached driveGet fileIds =
  fulfilled (foldl (λ results result, <[result.1 := result.2]> results) ∅
               (imap (existence metadataCached driveGet) fileIds)).
Proof.
  unfold batchCheckFilesExist. rewrite batchCheckFilesExist_fold. simpl.
  by rewrite OrchestratorFacts.createBatches_concat by lia.
Qed.

Lemma writes_lookup (writes : list (string * bool)) (results : gmap string bool)
    key b :
  foldl (λ results result, <[result.1 := result.2]> results) results writes !! key
    = Some b →
  (key, b) ∈ writes ∨ results !! key = Some b.
Proof.
  revert results. induction writes as [|[k v] writes IH]; intros results; simpl;
    [auto|].
  intros [Hin|Hlookup]%IH; [left; by right|].
  destruct (decide (k = key)) as [->|Hne].
  - rewrite lookup_insert_eq in Hlookup. injection Hlookup as ->. left. by left.
  - rewrite lookup_insert_ne in Hlookup by done. by right.
Qed.

Lemma writes_keep (writes : list (string * bool)) (results : gmap string bool)
    key :
  is_Some (results !! key) →
  is_Some (foldl (λ (results : gmap string bool) (result : string * bool),
                    <[result.1 := result.2]> results)
                 results writes !! key).
Proof.
  revert results. induction writes as [|[k v] writes IH]; intros results Hsome;
    simpl; [done|].
  apply IH. destruct (decide (k = key)) as [->|Hne].
  - by rewrite lookup_insert_eq.
  - by rewrite lookup_insert_ne.
Qed.

Lemma writes_is_Some (writes : list (string * bool)) (results : gmap string bool)
    key :
  key ∈ writes.*1 →
  is_Some (foldl (λ (results : gmap string bool) (result : string * bool),
                    <[result.1 := result.2]> results)
                 results writes !! key).
Proof.
  revert results. induction writes as [|[k v] writes IH]; intros results Hin;
    simpl in *; [by apply elem_of_nil in Hin|].
  apply elem_of_cons in Hin as [->|Hin]; [|by apply IH].
  apply writes_keep. by rewrite lookup_insert_eq.
Qed.

(** [batchCheckPolicyExistence] answers with one boolean per policy, in
    the order of the policies.  A policy whose file id is not in
    [policyFileIdCache] is reported as not existing, without the Drive being
    asked; a policy reported as existing has a cached file id whose
    metadata are cached or for which a request to the Drive succeeded; a
    policy with a cached file id whose metadata are cached is reported as
    existing.  The check is rejected only when the Drive service cannot be
    initialised. *)
Theorem batchCheckPolicyExistence_aligned
    (initialized : settled unit) (metadataCached : string → bool)
    (driveGet : nat → string → bool) (service : Service)
    (policies : list Policy.t) :
  let result :=
    batchCheckPolicyExistence
      (batchCheckFilesExist initialized metadataCached driveGet) service policies in
  (∀ error, result = rejected error → initialized = rejected error) ∧
  (∀ checks, result = fulfilled checks →
     length checks = length policies ∧
     ∀ i policy, policies !! i = Some policy →
       ∃ check, checks !! i = Some check ∧
         (cachedFileId service policy = None → check = false) ∧
         (check = true →
            ∃ fileId, cachedFileId service policy = Some fileId ∧
                      (metadataCached fileId = true
                       ∨ ∃ n, driveGet n fileId = true)) ∧
         (∀ fileId, cachedFileId service policy = Some fileId →
                    initialized = fulfilled () →
                    metadataCached fileId = true → check = true)).
Proof.
  cbv zeta. unfold batchCheckPolicyExistence.
  destruct (length (omap (cachedFileId service) policies) =? 0) eqn:Hnone.
  - apply Nat.eqb_eq, nil_length_inv in Hnone.
    split; [done|]. intros checks [= <-]. split; [by rewrite length_fmap|].
    intros i policy Hi. exists false. rewrite list_lookup_fmap, Hi.
    split; [done|]. split; [done|]. split; [done|].
    intros fileId Hcached.
    assert (fileId ∈ omap (cachedFileId service) policies) as Hin.
    { apply list_elem_of_omap. exists policy. split; [|done].
      by eapply list_elem_of_lookup_2. }
    rewrite Hnone in Hin. by apply elem_of_nil in Hin.
  - destruct initialized as [[]|cause]; [|split; [by intros ? [= ->]|done]].
    rewrite batchCheckFilesExist_writes. split; [done|].
    intros checks [= <-]. split; [by rewrite length_fmap|].
    intros i policy Hi. rewrite list_lookup_fmap, Hi. simpl.
    eexists. split; [done|].
    destruct (cachedFileId service policy) as [fileId|] eqn:Hcached;
      [|split; [done|]; split; [done|]; done].
    split; [done|]. split.
    + intros Htrue. exists fileId. split; [done|].
      destruct (foldl _ _ _ !! fileId) as [b|] eqn:Hlookup; [|done].
      simpl in Htrue. subst b.
      apply writes_lookup in Hlookup as [Hin|Hin]; [|by rewrite lookup_empty in Hin].
      apply elem_of_lookup_imap in Hin as (n & id & [= <- Hexists] & _).
      destruct (metadataCached fileId); [by left|]. right. eauto.
    + intros ? [= <-] _ Hmeta.
      assert (fileId ∈ (imap (existence metadataCached driveGet)
                          (omap (cachedFileId service) policies)).*1) as Hin.
      { apply list_elem_of_fmap. exists (fileId, true). split; [done|].
        assert (fileId ∈ omap (cachedFileId service) policies) as Hid.
        { apply list_elem_of_omap. exists policy. split; [|done].
          by eapply list_elem_of_lookup_2. }
        apply list_elem_of_lookup_1 in Hid as [n Hn].
        apply elem_of_lookup_imap. exists n, fileId. split; [|done].
        unfold existence. by rewrite Hmeta. }
      apply (writes_is_Some _ ∅) in Hin as [b Hb]. rewrite Hb. simpl.
      apply writes_lookup in Hb as [Hb|Hb]; [|by rewrite lookup_empty in Hb].
      apply elem_of_lookup_imap in Hb as (n & id & [= <- Hexists] & _).
      by rewrite Hmeta in Hexists.
Qed.

End IndexFacts.

(** ** The analysis cache *)

Module AnalysisFacts.
Import Orchestrator Hash Dispatcher Index Analysis.

Lemma read_cacheSet {V} site key (v : V) cache :
  Cache.read (cacheSet site key v cache) key = Some v.
Proof. unfold Cache.read, cacheSet. simpl. by rewrite lookup_insert_eq. Qed.

Lemma analyzyePolicyWithCache_hit fuel ask cache question policyText policy cached :
  Cache.read cache (analysisKey question policyText) = Some cached →
  analyzyePolicyWithCache fuel ask cache question policyText policy
  = Some (cache, Some cached).
Proof. intros Hhit. unfold analyzyePolicyWithCache. by rewrite Hhit. Qed.

Lemma analyzyePolicyWithCache_miss fuel ask cache question policyText policy cache' v :
  Cache.read cache (analysisKey question policyText) = None →
  analyzyePolicyWithCache fuel ask cache question policyText policy
    = Some (cache', Some v) →
  ∃ e, v = CachedEvidence e ∧
       cache' = cacheSet Cache.AnalysisResult (analysisKey question policyText)
                         (CachedEvidence e) cache ∧
       Evidence.docName e = Policy.pdf_name policy ∧
       Evidence.subfolder e = Policy.subfolder policy ∧
       Evidence.score e = Policy.score policy.
Proof.
  intros Hmiss. unfold analyzyePolicyWithCache, searchForComplianceEvidence.
  rewrite Hmiss.
  destruct (smartTruncatePolicyText _ _ _) as [truncated|]; [|done].
  destruct (ask _ _ _) as [analysis|error]; [|done].
  destruct (hasAnswer analysis); [|done].
  intros [= <- <-]. eexists. split; [done|]. done.
Qed.

(** An empty keyword on a text of more than 18000 characters: the loop of
    [findKeywordPositions] fills its array, the error of [push] is caught,
    and the analysis gives [null] and leaves the cache as it was. *)
Lemma analyzyePolicyWithCache_empty_keyword fuel ask cache question policyText
    policy before after :
  Question.keywords question = before ++ EmptyString :: after →
  maxLength < Js.length policyText →
  Cache.read cache (analysisKey question policyText) = None →
  searchForComplianceEvidence fuel ask question policyText policy
    = rejected RangeError ∧
  analyzyePolicyWithCache fuel ask cache question policyText policy
    = Some (cache, None).
Proof.
  intros Hk Hlong Hmiss.
  assert (searchForComplianceEvidence fuel ask question policyText policy
          = rejected RangeError) as Hsearch.
  { unfold searchForComplianceEvidence. rewrite Hk.
    by rewrite DispatcherFacts.smartTruncatePolicyText_empty_keyword. }
  split; [done|]. unfold analyzyePolicyWithCache. by rewrite Hmiss, Hsearch.
Qed.

(** The analysis cache is keyed by the hashes of the question text and of
    the first 1000 characters of the policy text, not by the policy.  In
    every state of the cache that holds a value under the key of a question
    and a policy text, every analysis whose key is the same is answered
    with that value, whatever policy it is about: the model is not asked
    and the cache stays as it is.  When the cache holds nothing under the key
    and the analysis returns evidence, the evidence names the policy of
    the call and carries its score, and it is what the cache holds under
    the key afterwards.  The key is the same as soon as the question texts
    are equal and the policy texts agree on their first 1000 characters. *)
Theorem analyzyePolicyWithCache_shares_evidence
    (cache : Cache.State CacheValue) (question : Question.t)
    (policyText : string) :
  (∀ cached fuel' ask' question' policyText' policy',
     Cache.read cache (analysisKey question policyText) = Some cached →
     analysisKey question' policyText' = analysisKey question policyText →
     analyzyePolicyWithCache fuel' ask' cache question' policyText' policy'
     = Some (cache, Some cached)) ∧
  (∀ fuel ask policy cache' v,
     Cache.read cache (analysisKey question policyText) = None →
     analyzyePolicyWithCache fuel ask cache question policyText policy
       = Some (cache', Some v) →
     ∃ e, v = CachedEvidence e ∧
          Evidence.docName e = Policy.pdf_name policy ∧
          Evidence.subfolder e = Policy.subfolder policy ∧
          Evidence.score e = Policy.score policy ∧
          cache' = cacheSet Cache.AnalysisResult (analysisKey question policyText)
                            (CachedEvidence e) cache ∧
          Cache.read cache' (analysisKey question policyText)
          = Some (CachedEvidence e)) ∧
  (∀ question' policyText',
     Question.text question' = Question.text question →
     Js.substring policyText' 0 1000 = Js.substring policyText 0 1000 →
     analysisKey question' policyText' = analysisKey question policyText).
Proof.
  split; [|split].
  - intros cached fuel' ask' question' policyText' policy' Hhit Hkey.
    apply analyzyePolicyWithCache_hit. by rewrite Hkey.
  - intros fuel ask policy cache' v Hmiss Hfirst.
    destruct (analyzyePolicyWithCache_miss _ _ _ _ _ _ _ _ Hmiss Hfirst)
      as (e & -> & -> & Hname & Hfolder & Hscore).
    exists e. repeat (split; [done|]). apply read_cacheSet.
  - intros question' policyText' Htext Hprefix. unfold analysisKey.
    by rewrite Htext, Hprefix.
Qed.

(** The evidence found in "a.pdf" answers the analysis of "b.pdf" when the
    question and the text are the same. *)
Lemma analyzyePolicyWithCache_shares_evidence_witness :
  analyzyePolicyWithCache 1 (λ _ _ _, rejected (Error "not asked")) sampleCache
    (sampleQuestion 1) "The retention period is six years."
    (samplePolicy "b.pdf" 40)
  = Some (sampleCache, Some (CachedEvidence sampleEvidence)).
Proof.
  apply (proj1 (analyzyePolicyWithCache_shares_evidence sampleCache
                  (sampleQuestion 1) "The retention period is six years.")).
  - reflexivity.
  - reflexivity.
Defined.

(** *** Texts and evidence in the one [Map] *)

Lemma prefix_inj (s t u : string) : s +:+ t = s +:+ u → t = u.
Proof. induction s as [|c s IH]; [done|]. intros [= H]. auto. Qed.

Lemma analysisKey_not_policy question policyText rest :
  analysisKey question policyText ≠ "policy_" +:+ rest.
Proof. unfold analysisKey. intros [=]. Qed.

Lemma contentKey_not_analysis policy rest :
  contentKey policy ≠ "analysis_" +:+ rest.
Proof. unfold contentKey. intros [=]. Qed.

Lemma sorted_empty : sorted Cache.empty.
Proof. intros key e. unfold Cache.empty. simpl. by rewrite lookup_empty. Qed.

Lemma sorted_cacheSet_evidence question policyText e cache :
  sorted cache →
  sorted (cacheSet Cache.AnalysisResult (analysisKey question policyText)
                   (CachedEvidence e) cache).
Proof.
  intros Hsorted key entry. unfold cacheSet. simpl.
  destruct (decide (analysisKey question policyText = key)) as [<-|Hne].
  - rewrite lookup_insert_eq. intros [= <-]. simpl. unfold analysisKey. eauto.
  - rewrite lookup_insert_ne by done. apply Hsorted.
Qed.

Lemma sorted_cacheSet_text policy content cache :
  sorted cache →
  sorted (cacheSet Cache.PolicyContent (contentKey policy) (CachedText content) cache).
Proof.
  intros Hsorted key entry. unfold cacheSet. simpl.
  destruct (decide (contentKey policy = key)) as [<-|Hne].
  - rewrite lookup_insert_eq. intros [= <-]. simpl. unfold contentKey. eauto.
  - rewrite lookup_insert_ne by done. apply Hsorted.
Qed.

Lemma sorted_read_analysis cache question policyText v :
  sorted cache → Cache.read cache (analysisKey question policyText) = Some v →
  ∃ e, v = CachedEvidence e.
Proof.
  intros Hsorted. unfold Cache.read.
  destruct (Cache.entries cache !! _) as [entry|] eqn:Hentry; [|done].
  intros [= <-]. specialize (Hsorted _ _ Hentry).
  destruct (Cache.value entry) as [content|e]; [|eauto].
  destruct Hsorted as [rest Hkey]. by apply analysisKey_not_policy in Hkey.
Qed.

Lemma sorted_read_content cache policy v :
  sorted cache → Cache.read cache (contentKey policy) = Some v →
  ∃ content, v = CachedText content.
Proof.
  intros Hsorted. unfold Cache.read.
  destruct (Cache.entries cache !! _) as [entry|] eqn:Hentry; [|done].
  intros [= <-]. specialize (Hsorted _ _ Hentry).
  destruct (Cache.value entry) as [content|e]; [eauto|].
  destruct Hsorted as [rest Hkey]. by apply contentKey_not_analysis in Hkey.
Qed.

Lemma analyzyePolicyWithCache_kind fuel ask cache question policyText policy
    cache' result :
  sorted cache →
  analyzyePolicyWithCache fuel ask cache question policyText policy
    = Some (cache', result) →
  sorted cache' ∧ ∀ v, result = Some v → ∃ e, v = CachedEvidence e.
Proof.
  intros Hsorted Hrun.
  destruct (Cache.read cache (analysisKey question policyText)) as [cached|]
    eqn:Hread.
  - rewrite (analyzyePolicyWithCache_hit _ _ _ _ _ _ _ Hread) in Hrun.
    injection Hrun as <- <-. split; [done|]. intros v [= <-].
    by eapply sorted_read_analysis.
  - destruct result as [v|].
    + destruct (analyzyePolicyWithCache_miss _ _ _ _ _ _ _ _ Hread Hrun)
        as (e & -> & -> & _).
      split; [by apply sorted_cacheSet_evidence|]. intros v [= <-]. eauto.
    + split; [|done]. unfold analyzyePolicyWithCache in Hrun.
      rewrite Hread in Hrun.
      destruct (searchForComplianceEvidence _ _ _ _ _) as [[e|]|]; simpl in Hrun;
        by simplify_eq.
Qed.

Lemma downloadPolicyCached_kind getPolicyFileId extractText cache policy :
  sorted cache →
  sorted (downloadPolicyCached getPolicyFileId extractText cache policy).1 ∧
  ∀ v, (downloadPolicyCached getPolicyFileId extractText cache policy).2 = Some v →
       ∃ content, v = CachedText content.
Proof.
  intros Hsorted. unfold downloadPolicyCached.
  destruct (Cache.read cache (contentKey policy)) as [cached|] eqn:Hread.
  - split; [done|]. intros v [= <-]. by eapply sorted_read_content.
  - destruct (getPolicyFileId policy) as [fileId|]; [|done].
    destruct (extractText fileId) as [content|]; [|done]. simpl.
    split; [by apply sorted_cacheSet_text|]. intros v [= <-]. eauto.
Qed.

Lemma use_sorted cache u cache' : sorted cache → use cache u = Some cache' → sorted cache'.
Proof.
  intros Hsorted. destruct u as [fuel ask question policyText policy|g x policy|action];
    simpl.
  - destruct (analyzyePolicyWithCache _ _ _ _ _ _) as [[c r]|] eqn:Hrun; [|done].
    intros [= <-]. by eapply analyzyePolicyWithCache_kind.
  - intros [= <-]. by apply downloadPolicyCached_kind.
  - destruct action as [site key v|i|ms|]; simpl; [done|..].
    + destruct (Cache.timers cache !! i) as [[due key]|]; [|done].
      destruct (decide _); [|done]. intros [= <-] key' e. simpl.
      intros [_ Hlookup]%lookup_delete_Some. by apply Hsorted.
    + destruct (decide _); [|done]. by intros [= <-].
    + intros [= <-] key e. simpl. by rewrite lookup_empty.
Qed.

Lemma uses_sorted us cache cache' :
  sorted cache → uses cache us = Some cache' → sorted cache'.
Proof.
  revert cache. induction us as [|u us IH]; intros cache Hsorted; simpl.
  - by intros [= <-].
  - destruct (use cache u) as [c|] eqn:Huse; [|done].
    apply IH. by eapply use_sorted.
Qed.

(** [ParallelProcessor.cache] holds the policy texts and the evidence
    objects in one [Map]; the keys of the two kinds never meet.  However
    the two functions (and the clearing of the cache) have used the cache
    so far, [analyzyePolicyWithCache] never returns a text for an evidence
    object and the download never returns an evidence object for a text. *)
Theorem cache_kinds_apart (us : list Use) (cache : Cache.State CacheValue) :
  uses Cache.empty us = Some cache →
  (∀ fuel ask question policyText policy cache' v,
     analyzyePolicyWithCache fuel ask cache question policyText policy
       = Some (cache', Some v) →
     ∃ e, v = CachedEvidence e) ∧
  (∀ getPolicyFileId extractTextFromDriveFile policy v,
     (downloadPolicyCached getPolicyFileId extractTextFromDriveFile cache policy).2
       = Some v →
     ∃ content, v = CachedText content).
Proof.
  intros Hsorted%uses_sorted; [|apply sorted_empty]. split.
  - intros fuel ask question policyText policy cache' v Hrun.
    by eapply analyzyePolicyWithCache_kind.
  - intros g x policy v. by apply downloadPolicyCached_kind.
Qed.

Lemma cache_kinds_apart_witness :
  (∀ fuel ask question policyText policy cache' v,
     analyzyePolicyWithCache fuel ask sampleCache question policyText policy
       = Some (cache', Some v) →
     ∃ e, v = CachedEvidence e) ∧
  (∀ getPolicyFileId extractTextFromDriveFile policy v,
     (downloadPolicyCached getPolicyFileId extractTextFromDriveFile
        sampleCache policy).2 = Some v →
     ∃ content, v = CachedText content).
Proof.
  apply (cache_kinds_apart
           [Download (λ _, fulfilled "f1")
                     (λ _, fulfilled "The retention period is six years.")
                     (samplePolicy "a.pdf" 120);
            Analyze 1 sampleAsk (sampleQuestion 1)
                    "The retention period is six years." (samplePolicy "a.pdf" 120)]).
  reflexivity.
Defined.

End AnalysisFacts.

(** ** The request queues *)

Module LimiterFacts.
Import Limiter.

Section Queue.
Context {R : Type} (c : Config).
Context (Hlimits : (1 ≤ initialLimit c ≤ ceiling c)%Z).

Lemma processQueue_loop_spec (queue : list R) (active max : Z)
    (started inFlight : list R) :
  ∃ taken rest,
    processQueue_loop queue active max started inFlight =
      (rest, (active + Z.of_nat (length taken))%Z, started ++ taken,
       inFlight ++ taken)
    ∧ queue = taken ++ rest
    ∧ (rest = [] ∨ (max ≤ active + Z.of_nat (length taken))%Z)
    ∧ (taken ≠ [] → (active + Z.of_nat (length taken) ≤ max)%Z).
Proof.
  revert active started inFlight.
  induction queue as [|request queue IH]; intros active started inFlight; simpl.
  - exists [], []. rewrite !app_nil_r, Z.add_0_r.
    split; [done|]. split; [done|]. split; [by left|done].
  - destruct (Z.ltb_spec active max) as [Hlt|Hge].
    + destruct (IH (active + 1)%Z (started ++ [request]) (inFlight ++ [request]))
        as (taken & rest & -> & -> & Hstop & Hmax).
      exists (request :: taken), rest. rewrite <- !app_assoc. simpl.
      split; [f_equal; f_equal; f_equal; lia|]. split; [done|].
      split; [destruct Hstop; [by left|right; lia]|].
      intros _. destruct taken as [|r taken]; [simpl; lia|].
      specialize (Hmax ltac:(done)). simpl in *. lia.
    + exists [], (request :: queue). rewrite !app_nil_r, Z.add_0_r.
      split; [done|]. split; [done|]. split; [right; lia|done].
Qed.

Lemma processQueue_steady (s : State R) :
  steady c s → steady c (processQueue s) ∧ awake (processQueue s).
Proof.
  intros [Hactive Hlimit Hbound Horder Hflight]. unfold processQueue, awake.
  destruct (processQueue_loop_spec (requestQueue s) (activeRequests s)
              (maxConcurrentRequests s) (started s) (inFlight s))
    as (taken & rest & -> & Hqueue & Hstop & Hmax).
  split; [split|]; simpl.
  - rewrite length_app, Hactive. lia.
  - done.
  - destruct taken as [|r taken]; [by rewrite Z.add_0_r|].
    specialize (Hmax ltac:(done)). lia.
  - by rewrite Horder, Hqueue, app_assoc.
  - by apply sublist_app.
  - destruct Hstop as [->|Hfull]; [by left|]. right. left.
    intros Hnone. rewrite Hactive in Hfull.
    apply app_eq_nil in Hnone as [Hnone ->]. rewrite Hnone in Hfull.
    simpl in Hfull. lia.
Qed.

Lemma initial_steady : steady (R:=R) c (initial c) ∧ awake (R:=R) (initial c).
Proof. split; [split; simpl; try done; lia|by left]. Qed.

Lemma step_steady (s : State R) e s' :
  steady c s ∧ awake s → step c s e = Some s' → steady c s' ∧ awake s'.
Proof.
  intros [[Hactive Hlimit Hbound Horder Hflight] Hawake].
  destruct e as [request|i| |limit]; simpl.
  - intros [= <-]. apply processQueue_steady. split; simpl; try done.
    by rewrite Horder, app_assoc.
  - destruct (inFlight s !! i) as [request|] eqn:Hi; [|done]. intros [= <-].
    split; [split|]; simpl; try done.
    + apply lookup_lt_Some in Hi as Hlt. rewrite length_delete by eauto. lia.
    + lia.
    + etrans; [apply sublist_delete|done].
    + right. right. simpl. lia.
  - destruct (timers s) as [|pending]; [done|]. intros [= <-].
    by apply processQueue_steady.
  - intros [= <-]. unfold awake. split; [split|]; simpl; try done. lia.
Qed.

Lemma run_steady events (s s' : State R) :
  steady c s ∧ awake s → run c s events = Some s' → steady c s' ∧ awake s'.
Proof.
  revert s. induction events as [|e events IH]; intros s Hs; simpl.
  - by intros [= <-].
  - destruct (step c s e) as [s1|] eqn:Hstep; [|done].
    apply IH. by eapply step_steady.
Qed.

(** Without a call of [adjustConcurrencyLimits] the limit stays what the
    constructor made it. *)
Lemma processQueue_below (s : State R) limit :
  (maxConcurrentRequests s = limit) → (activeRequests s ≤ limit)%Z →
  maxConcurrentRequests (processQueue s) = limit
  ∧ (activeRequests (processQueue s) ≤ limit)%Z.
Proof.
  intros Hmax Hle. unfold processQueue.
  destruct (processQueue_loop_spec (requestQueue s) (activeRequests s)
              (maxConcurrentRequests s) (started s) (inFlight s))
    as (taken & rest & -> & _ & _ & Hbound). simpl.
  split; [done|]. destruct taken as [|r taken]; [by rewrite Z.add_0_r|].
  specialize (Hbound ltac:(done)). lia.
Qed.

Lemma run_below events (s s' : State R) :
  maxConcurrentRequests s = initialLimit c →
  (activeRequests s ≤ initialLimit c)%Z →
  forallb (λ e, negb (adjusts e)) events = true →
  run c s events = Some s' →
  maxConcurrentRequests s' = initialLimit c
  ∧ (activeRequests s' ≤ initialLimit c)%Z.
Proof.
  revert s. induction events as [|e events IH]; intros s Hmax Hle; simpl.
  - by intros _ [= <-].
  - intros [He Hrest]%andb_prop.
    destruct (step c s e) as [s1|] eqn:Hstep; [|done].
    assert (maxConcurrentRequests s1 = initialLimit c
            ∧ (activeRequests s1 ≤ initialLimit c)%Z) as [? ?]; [|by apply IH].
    destruct e as [request|i| |limit]; simpl in *; try done.
    + injection Hstep as <-. by apply processQueue_below.
    + destruct (inFlight s !! i); [|done]. injection Hstep as <-. simpl. lia.
    + destruct (timers s); [done|]. injection Hstep as <-.
      by apply processQueue_below.
Qed.

Lemma processQueue_enqueued (s : State R) : enqueued (processQueue s) = enqueued s.
Proof.
  unfold processQueue. by destruct (processQueue_loop _ _ _ _ _) as [[[? ?] ?] ?].
Qed.

Lemma run_enqueued events (s s' : State R) :
  run c s events = Some s' → enqueued s' = enqueued s ++ requests events.
Proof.
  revert s. induction events as [|e events IH]; intros s; simpl.
  - intros [= <-]. by rewrite app_nil_r.
  - destruct (step c s e) as [s1|] eqn:Hstep; [|done]. intros Hrun%IH.
    rewrite Hrun. destruct e as [request|i| |limit]; simpl in *.
    + injection Hstep as <-. rewrite processQueue_enqueued. simpl.
      by rewrite <- app_assoc.
    + destruct (inFlight s !! i); [|done]. by injection Hstep as <-.
    + destruct (timers s); [done|]. injection Hstep as <-.
      by rewrite processQueue_enqueued.
    + by injection Hstep as <-.
Qed.

End Queue.

(** However requests are queued, complete and timers fire, the counter of
    active requests is the number of requests in flight and never exceeds
    the ceiling of [adjustConcurrencyLimits] (5 model calls, 10 downloads);
    as long as the limit is not adjusted it never exceeds the constructor's
    limit (3 model calls, 6 downloads). *)
Theorem active_requests_bounded {R : Type} (c : Config)
    (events : list (Event R)) (s : State R) :
  c = gemini ∨ c = drive →
  run c (initial c) events = Some s →
  activeRequests s = Z.of_nat (length (inFlight s)) ∧
  (activeRequests s ≤ ceiling c)%Z ∧
  (1 ≤ maxConcurrentRequests s ≤ ceiling c)%Z ∧
  (forallb (λ e, negb (adjusts e)) events = true →
   (activeRequests s ≤ initialLimit c)%Z).
Proof.
  intros Hc Hrun.
  assert (1 ≤ initialLimit c ≤ ceiling c)%Z as Hlimits
    by (destruct Hc as [-> | ->]; simpl; lia).
  destruct (run_steady c events _ _ (initial_steady c Hlimits) Hrun)
    as [[Hactive Hlimit Hbound _ _] _].
  split; [done|]. split; [done|]. split; [done|].
  intros Hplain.
  by destruct (run_below c events (initial c) s eq_refl ltac:(simpl; lia) Hplain Hrun).
Qed.

Lemma active_requests_bounded_witness :
  let s := sampleState in
  activeRequests s = Z.of_nat (length (inFlight s)) ∧
  (activeRequests s ≤ ceiling gemini)%Z ∧
  (1 ≤ maxConcurrentRequests s ≤ ceiling gemini)%Z ∧
  (forallb (λ e, negb (adjusts e)) sampleEvents = true →
   (activeRequests s ≤ initialLimit gemini)%Z).
Proof.
  apply (active_requests_bounded gemini sampleEvents); [by left|reflexivity].
Defined.

(** Requests are started in the order in which they were queued, each
    once: at every moment the requests queued so far are the requests
    started so far followed by the requests still waiting, and the requests
    in flight are among the started ones. *)
Theorem requests_start_in_order {R : Type} (c : Config)
    (events : list (Event R)) (s : State R) :
  c = gemini ∨ c = drive →
  run c (initial c) events = Some s →
  requests events = started s ++ requestQueue s ∧
  inFlight s `sublist_of` started s.
Proof.
  intros Hc Hrun.
  assert (1 ≤ initialLimit c ≤ ceiling c)%Z as Hlimits
    by (destruct Hc as [-> | ->]; simpl; lia).
  destruct (run_steady c events _ _ (initial_steady c Hlimits) Hrun)
    as [[_ _ _ Horder Hflight] _].
  split; [|done]. rewrite <- Horder. by rewrite (run_enqueued c events _ _ Hrun).
Qed.

Lemma requests_start_in_order_witness :
  let s := sampleState in
  requests sampleEvents = started s ++ requestQueue s ∧
  inFlight s `sublist_of` started s.
Proof.
  apply (requests_start_in_order gemini sampleEvents); [by left|reflexivity].
Defined.

(** No request is left waiting with nothing to wake the queue: whenever
    the queue is not empty, a request is in flight (its completion arms a
    timer) or a timer is pending (it runs [processQueue]).  This rests on
    [adjustConcurrencyLimits] never setting a limit below 1. *)
Theorem waiting_requests_wake {R : Type} (c : Config)
    (events : list (Event R)) (s : State R) :
  c = gemini ∨ c = drive →
  run c (initial c) events = Some s →
  requestQueue s ≠ [] → inFlight s ≠ [] ∨ 0 < timers s.
Proof.
  intros Hc Hrun Hwaiting.
  assert (1 ≤ initialLimit c ≤ ceiling c)%Z as Hlimits
    by (destruct Hc as [-> | ->]; simpl; lia).
  destruct (run_steady c events _ _ (initial_steady c Hlimits) Hrun)
    as [_ [?|?]]; done.
Qed.

Lemma waiting_requests_wake_witness :
  let s := sampleState in
  inFlight s ≠ [] ∨ 0 < timers s.
Proof.
  apply (waiting_requests_wake gemini sampleEvents); [by left|reflexivity|done].
Defined.

End LimiterFacts.

(** ** Batches, and what a run returns *)

Module OrchestratorLaws.
Import Orchestrator OrchestratorFacts Outcome.

(** *** [createBatches] *)

Lemma createBatches_loop_lookup {A} (array : list A) batchSize fuel i b :
  0 < batchSize → length array - i ≤ fuel →
  createBatches_loop fuel array batchSize i !! b =
  if decide (i + b * batchSize < length array)
  then Some (take batchSize (drop (i + b * batchSize) array)) else None.
Proof.
  intros Hsize. revert i b. induction fuel as [|fuel IH]; intros i b Hfuel; simpl.
  - rewrite decide_False by lia. done.
  - destruct (Nat.ltb_spec i (length array)) as [Hlt|Hge].
    + destruct b as [|b]; simpl.
      * rewrite decide_True by lia. unfold Js.slice. do 3 f_equal. lia.
      * rewrite IH by lia.
        replace (i + batchSize + b * batchSize) with (i + (batchSize + b * batchSize))
          by lia. done.
    + rewrite decide_False by lia. done.
Qed.

Lemma createBatches_lookup {A} (array : list A) batchSize b :
  0 < batchSize →
  createBatches array batchSize !! b =
  if decide (b * batchSize < length array)
  then Some (take batchSize (drop (b * batchSize) array)) else None.
Proof.
  intros Hsize. unfold createBatches.
  rewrite createBatches_loop_lookup by lia. done.
Qed.

Lemma batches_needed n batchSize b :
  0 < batchSize → b < (n + batchSize - 1) / batchSize ↔ b * batchSize < n.
Proof.
  intros Hsize. split.
  - intros Hb.
    pose proof (Nat.Div0.mul_div_le (n + batchSize - 1) batchSize). nia.
  - intros Hb. apply (Nat.div_le_lower_bound _ _ (S b)); [lia|]. nia.
Qed.

Lemma createBatches_length {A} (array : list A) batchSize :
  0 < batchSize →
  length (createBatches array batchSize) = (length array + batchSize - 1) / batchSize.
Proof.
  intros Hsize.
  set (n := (length array + batchSize - 1) / batchSize).
  destruct (Nat.lt_trichotomy (length (createBatches array batchSize)) n)
    as [Hlt|[Heq|Hgt]]; [|done|].
  - pose proof (lookup_ge_None_2 (createBatches array batchSize)
                  (length (createBatches array batchSize)) ltac:(lia)) as Hnone.
    rewrite createBatches_lookup in Hnone by done.
    rewrite decide_True in Hnone; [done|]. apply batches_needed; [done|].
    fold n. lia.
  - destruct (lookup_lt_is_Some_2 (createBatches array batchSize) n Hgt)
      as [batch Hbatch].
    rewrite createBatches_lookup in Hbatch by done.
    rewrite decide_False in Hbatch; [done|].
    intros Hlt%batches_needed; [|done]. fold n in Hlt. lia.
Qed.

(** With a positive batch size [createBatches] cuts the array into
    consecutive batches: put end to end they are the array; there are
    ⌈length / batchSize⌉ of them; batch number [b] holds the items from
    position [b * batchSize] on; none is empty, and all but the last hold
    exactly [batchSize] items. *)
Theorem createBatches_partition {A : Type} (array : list A) (batchSize : nat) :
  0 < batchSize →
  let batches := createBatches array batchSize in
  concat batches = array ∧
  length batches = (length array + batchSize - 1) / batchSize ∧
  ∀ b batch, batches !! b = Some batch →
    batch = take batchSize (drop (b * batchSize) array) ∧
    0 < length batch ≤ batchSize ∧
    (S b < length batches → length batch = batchSize).
Proof.
  intros Hsize batches. split; [by apply createBatches_concat|].
  split; [by apply createBatches_length|].
  intros b batch Hbatch. unfold batches in *.
  rewrite createBatches_lookup in Hbatch by done.
  destruct (decide _) as [Hb|]; [|done]. injection Hbatch as <-.
  split; [done|]. rewrite length_take, length_drop. split; [lia|].
  rewrite createBatches_length by done. intros Hnext%batches_needed; [|done]. nia.
Qed.

Lemma createBatches_partition_witness :
  let batches := createBatches [1; 2; 3; 4; 5; 6; 7] 3 in
  concat batches = [1; 2; 3; 4; 5; 6; 7] ∧
  length batches = (length [1; 2; 3; 4; 5; 6; 7] + 3 - 1) / 3 ∧
  ∀ b batch, batches !! b = Some batch →
    batch = take 3 (drop (b * 3) [1; 2; 3; 4; 5; 6; 7]) ∧
    0 < length batch ≤ 3 ∧
    (S b < length batches → length batch = 3).
Proof. apply (createBatches_partition [1; 2; 3; 4; 5; 6; 7] 3). lia. Defined.

(** *** Every policy is analysed with its own text *)

Lemma foldl_app_concat {A B} (f : A → list B) (l : list A) (acc : list B) :
  foldl (λ acc x, acc ++ f x) acc l = acc ++ concat (f <$> l).
Proof.
  revert acc. induction l as [|x l IH]; intros acc; simpl.
  - by rewrite app_nil_r.
  - by rewrite IH, app_assoc.
Qed.

Lemma batchDownloadPolicies_each w policies :
  batchDownloadPolicies w policies = downloadPolicy w <$> policies.
Proof.
  assert (∀ batches : list (list Policy.t),
            concat ((λ batch : list Policy.t, downloadPolicy w <$> batch) <$> batches)
            = (downloadPolicy w <$> concat batches)) as Hconcat.
  { induction batches as [|batch batches IH]; [done|].
    cbn [fmap list_fmap concat]. by rewrite fmap_app, <- IH. }
  unfold batchDownloadPolicies. cbv zeta.
  rewrite (foldl_app_concat (λ batch : list Policy.t, downloadPolicy w <$> batch)), Hconcat.
  rewrite createBatches_concat by (unfold maxConcurrentDownloads; lia). done.
Qed.

Lemma analyzeBatch_outcomes w question policies b batch :
  createBatches policies maxConcurrentPolicies !! b = Some batch →
  analyzeBatch w question (downloadPolicy w <$> policies) b batch =
  outcomeFor w question <$> batch.
Proof.
  intros Hbatch. rewrite createBatches_lookup in Hbatch
    by (unfold maxConcurrentPolicies; lia).
  destruct (decide _) as [Hb|]; [|done]. injection Hbatch as <-.
  unfold analyzeBatch. apply list_eq. intros i.
  rewrite list_lookup_imap, !list_lookup_fmap.
  destruct (take _ _ !! i) as [policy|] eqn:Hi; [|done]. simpl.
  apply lookup_take_Some in Hi as [Hi _]. rewrite lookup_drop in Hi.
  rewrite Hi. simpl. unfold outcomeFor.
  by destruct (downloadPolicy w policy).
Qed.

(** The loop over the policy batches, batch by batch. *)
Lemma analyzePolicies_fold w question contents (n : nat)
    (items : list (nat * list Policy.t)) acc :
  foldl (λ acc item,
           let '(b, policyBatch) := item in
           let batchResults := analyzeBatch w question contents b policyBatch in
           (acc.1 ++ [AddAnalysisTime (analysisElapsed w question b)]
                  ++ (PolicyOutcome <$> batchResults)
                  ++ (if b <? n then [Pause 500] else []),
            acc.2 ++ candidatesOf batchResults))
        acc items =
  (acc.1 ++ concat ((λ item,
                       [AddAnalysisTime (analysisElapsed w question item.1)]
                       ++ (PolicyOutcome <$> analyzeBatch w question contents
                                               item.1 item.2)
                       ++ (if item.1 <? n then [Pause 500] else [])) <$> items),
   acc.2 ++ concat ((λ item, candidatesOf (analyzeBatch w question contents
                                             item.1 item.2)) <$> items)).
Proof.
  revert acc. induction items as [|[b batch] items IH]; intros [us cs]; simpl.
  - by rewrite !app_nil_r.
  - rewrite IH. simpl. f_equal; rewrite <- !app_assoc; [|done].
    f_equal. simpl. by rewrite <- app_assoc.
Qed.

Lemma outcomesIn_app us vs : outcomesIn (us ++ vs) = outcomesIn us ++ outcomesIn vs.
Proof. apply omap_app. Qed.

Lemma outcomesIn_outcomes results : outcomesIn (PolicyOutcome <$> results) = results.
Proof.
  induction results as [|r results IH]; [done|].
  cbn [fmap list_fmap outcomesIn omap list_omap]. unfold outcomesIn in IH.
  by rewrite IH.
Qed.

Lemma candidatesOf_app rs ss :
  candidatesOf (rs ++ ss) = candidatesOf rs ++ candidatesOf ss.
Proof. apply omap_app. Qed.

Lemma analyzePolicies_outcomes w question policies :
  let run := analyzePolicies w question policies (downloadPolicy w <$> policies) in
  outcomesIn run.1 = outcomeFor w question <$> policies ∧
  run.2 = candidatesOf (outcomeFor w question <$> policies).
Proof.
  unfold analyzePolicies. cbv zeta.
  rewrite (analyzePolicies_fold w question _
             (length (createBatches policies maxConcurrentPolicies) - 1)).
  cbn [fst snd app].
  assert (∀ (batches : list (list Policy.t)) k,
            (∀ b batch, batches !! b = Some batch →
               createBatches policies maxConcurrentPolicies !! (k + b) = Some batch) →
            outcomesIn
              (concat ((λ item : nat * list Policy.t,
                          [AddAnalysisTime (analysisElapsed w question item.1)]
                          ++ (PolicyOutcome <$> analyzeBatch w question
                                (downloadPolicy w <$> policies) item.1 item.2)
                          ++ (if item.1 <?
                                 length (createBatches policies maxConcurrentPolicies) - 1
                              then [Pause 500] else []))
                         <$> imap (λ b, pair (k + b)) batches))
            = outcomeFor w question <$> concat batches
            ∧ concat ((λ item : nat * list Policy.t,
                         candidatesOf (analyzeBatch w question
                                         (downloadPolicy w <$> policies)
                                         item.1 item.2))
                        <$> imap (λ b, pair (k + b)) batches)
              = candidatesOf (outcomeFor w question <$> concat batches)) as Hbatches.
  { induction batches as [|batch batches IH]; intros k Hk; [done|].
    cbn [imap fmap list_fmap concat fst snd].
    rewrite Nat.add_0_r.
    rewrite (analyzeBatch_outcomes w question policies k batch)
      by (rewrite <- (Hk 0 batch eq_refl); f_equal; lia).
    destruct (IH (S k)) as [IH1 IH2].
    { intros b bt Hb. rewrite <- (Hk (S b) bt Hb). f_equal. lia. }
    rewrite (imap_ext _ (λ b, pair (S k + b)) batches)
      by (intros; simpl; f_equal; lia).
    split.
    - rewrite !outcomesIn_app, outcomesIn_outcomes, IH1, fmap_app. simpl.
      destruct (k <? _); simpl; by rewrite ?app_nil_r.
    - by rewrite IH2, fmap_app, candidatesOf_app. }
  specialize (Hbatches (createBatches policies maxConcurrentPolicies) 0
                (λ b batch Hb, Hb)).
  rewrite createBatches_concat in Hbatches by (unfold maxConcurrentPolicies; lia).
  done.
Qed.

(** The two partitions of [processQuestionParallel] (downloads by 8,
    analyses by 5) do not shift anything: [batchDownloadPolicies] returns
    one text per policy, in order; every existing policy is analysed once,
    in order, with its own text (not at all when the text is missing or
    empty); the candidates are the evidence of these analyses, in order. *)
Theorem analyzePolicies_own_text (w : World) (question : Question.t)
    (existingPolicies : list Policy.t) :
  let policyContents := batchDownloadPolicies w existingPolicies in
  let run := analyzePolicies w question existingPolicies policyContents in
  policyContents = downloadPolicy w <$> existingPolicies ∧
  outcomesIn run.1 = outcomeFor w question <$> existingPolicies ∧
  run.2 = candidatesOf (outcomeFor w question <$> existingPolicies).
Proof.
  cbv zeta. rewrite batchDownloadPolicies_each. split; [done|].
  apply analyzePolicies_outcomes.
Qed.

(** *** The counters count what is returned *)

Lemma interleaving_perm {A} (tasks : list (list A)) steps :
  interleaving tasks steps → steps ≡ₚ concat tasks.
Proof.
  induction 1 as [tasks Hdone|before x task after rest _ IH].
  - induction Hdone as [|task tasks -> _ IH]; [done|]. done.
  - rewrite concat_app in IH |- *. simpl in *. rewrite IH.
    by rewrite Permutation_middle.
Qed.

Lemma foundIn_app us vs : foundIn (us ++ vs) = foundIn us ++ foundIn vs.
Proof. unfold foundIn. by rewrite outcomesIn_app, candidatesOf_app. Qed.

Lemma foundIn_perm us vs : us ≡ₚ vs → foundIn us ≡ₚ foundIn vs.
Proof.
  unfold foundIn, outcomesIn, candidatesOf. intros Hperm.
  by apply omap_Permutation, omap_Permutation.
Qed.

Lemma foundIn_concat tasks : foundIn (concat tasks) = concat (foundIn <$> tasks).
Proof.
  induction tasks as [|task tasks IH]; [done|]. simpl.
  by rewrite foundIn_app, IH.
Qed.

Lemma tallied_perm stats found found' stats' :
  found ≡ₚ found' → tallied stats found stats' → tallied stats found' stats'.
Proof. intros Hperm. unfold tallied. by rewrite !Hperm. Qed.

Lemma applyUpdate_tallied stats u :
  tallied stats (foundIn [u]) (applyUpdate stats u).
Proof.
  destruct u as [ms|ms|[[e|]|error]|ms]; unfold tallied; try (simpl; lia).
  change (foundIn [PolicyOutcome (fulfilled (Some e))]) with [e].
  rewrite !filter_cons, !filter_nil. cbn [applyUpdate recordOutcome].
  destruct (decide (Evidence.answer e = "yes")) as [Hyes|Hyes].
  - rewrite decide_False by congruence. simpl. lia.
  - destruct (decide (Evidence.answer e = "no")); simpl; lia.
Qed.

Lemma run_tallied st events :
  tallied (processingStats st) (foundIn (omap updateOf events))
          (processingStats (foldl applyEvent st events)).
Proof.
  revert st. induction events as [|e events IH]; intros st.
  - unfold tallied. simpl. lia.
  - cbn [foldl]. specialize (IH (applyEvent st e)).
    destruct e as [u|question result|ms].
    + cbn [omap updateOf list_omap] in *.
      change (u :: omap updateOf events) with ([u] ++ omap updateOf events).
      rewrite foundIn_app.
      pose proof (applyUpdate_tallied (processingStats st) u) as Hu.
      change (processingStats (applyEvent st (TaskStep u)))
        with (applyUpdate (processingStats st) u) in IH.
      unfold tallied in *.
      rewrite !filter_app, !length_app. lia.
    + assert (processingStats (applyEvent st (Collected question result))
              = countProcessed (processingStats st)) as Hstats
        by (by destruct result).
      change (omap updateOf (Collected question result :: events))
        with (omap updateOf events).
      unfold tallied in *. rewrite Hstats in IH.
      unfold countProcessed in IH.
      cbn [Stats.evidenceFound Stats.compliantAnswers Stats.nonCompliantAnswers] in IH.
      done.
    + done.
Qed.

Lemma updates_of_steps (steps : list Update) :
  omap updateOf (TaskStep <$> steps) = steps.
Proof.
  induction steps as [|u steps IH]; [done|].
  cbn [fmap list_fmap omap list_omap updateOf]. by rewrite IH.
Qed.

Lemma updates_of_collectBatch w batch : omap updateOf (collectBatch w batch) = [].
Proof. unfold collectBatch. by induction batch. Qed.

Lemma runSchedule_updates w batches events :
  runSchedule w batches events →
  omap updateOf events ≡ₚ
  concat ((λ question, (processQuestionParallel w question).1) <$> concat batches).
Proof.
  induction 1 as [|batch rest events later (steps & Hsteps & ->) _ IH]; [done|].
  rewrite !omap_app, updates_of_steps, updates_of_collectBatch, IH.
  assert (omap updateOf (if bool_decide (rest = []) then [] else [Sleep 1000]) = [])
    as -> by (by destruct (bool_decide (rest = []))).
  cbn [concat app]. rewrite app_nil_r, fmap_app, concat_app.
  by rewrite (interleaving_perm _ _ Hsteps).
Qed.

(** What a question task returns is the evidence it recorded. *)
Lemma processQuestionParallel_found w question :
  stored (processQuestionParallel w question).2
  ≡ₚ foundIn (processQuestionParallel w question).1.
Proof.
  unfold processQuestionParallel.
  destruct (findRelevantPolicies w question) as [relevant|]; [|done].
  destruct (length relevant =? 0); [done|].
  destruct (batchCheckPolicyExistence w relevant) as [checks|]; [|done].
  set (existing := omap _ _).
  destruct (length existing =? 0); [done|].
  rewrite batchDownloadPolicies_each.
  destruct (analyzePolicies_outcomes w question existing) as [Houtcomes Hcandidates].
  cbv zeta in Houtcomes, Hcandidates.
  destruct (analyzePolicies w question existing (downloadPolicy w <$> existing))
    as [updates candidates].
  simpl in *. rewrite JsFacts.sort_perm. unfold foundIn. simpl.
  by rewrite Houtcomes, Hcandidates.
Qed.

Lemma returned_found w questions :
  concat (foundIn ∘ (λ question, (processQuestionParallel w question).1) <$> questions)
  ≡ₚ returned w questions.
Proof.
  unfold returned. induction questions as [|q questions IH]; [done|].
  cbn [fmap list_fmap concat compose].
  apply Permutation_app; [|done]. symmetry. apply processQuestionParallel_found.
Qed.

(** Under every schedule of a run, at the end [evidenceFound] is the
    number of evidence items the run returns over all the questions,
    [compliantAnswers] the number of those whose answer is "yes" and
    [nonCompliantAnswers] the number of those whose answer is "no". *)
Theorem counters_count_returned (w : World) (questions : list Question.t)
    (events : list Event) :
  runSchedule w (createBatches questions maxConcurrentQuestions) events →
  let stats := processingStats (processQuestionsInParallel_under questions events) in
  Stats.evidenceFound stats = length (returned w questions) ∧
  Stats.compliantAnswers stats =
    length (filter (λ e, Evidence.answer e = "yes") (returned w questions)) ∧
  Stats.nonCompliantAnswers stats =
    length (filter (λ e, Evidence.answer e = "no") (returned w questions)).
Proof.
  intros Hrun. cbv zeta. unfold processQuestionsInParallel_under.
  pose proof (run_tallied (initialState questions) events) as Htally.
  apply (tallied_perm _ _ (returned w questions)) in Htally.
  { unfold tallied in Htally. simpl in Htally. lia. }
  rewrite (foundIn_perm _ _ (runSchedule_updates _ _ _ Hrun)).
  rewrite createBatches_concat by (unfold maxConcurrentQuestions; lia).
  rewrite foundIn_concat, <- list_fmap_compose. apply returned_found.
Qed.

Lemma counters_count_returned_witness :
  let stats := processingStats (processQuestionsInParallel sampleWorld sampleQuestions) in
  Stats.evidenceFound stats = length (returned sampleWorld sampleQuestions) ∧
  Stats.compliantAnswers stats =
    length (filter (λ e, Evidence.answer e = "yes")
                   (returned sampleWorld sampleQuestions)) ∧
  Stats.nonCompliantAnswers stats =
    length (filter (λ e, Evidence.answer e = "no")
                   (returned sampleWorld sampleQuestions)).
Proof.
  apply (counters_count_returned sampleWorld sampleQuestions).
  apply sequentialSchedule_runs.
Defined.

End OrchestratorLaws.

(** ** Grouping by folder, and the answers of a batch *)

Module StoreLaws.
Import Store StoreFacts Resolution.

Lemma requestsOf_snoc folder l req :
  requestsOf folder (l ++ [req]) =
  if decide (PolicyRequest.subfolderId req = folder)
  then requestsOf folder l ++ [req] else requestsOf folder l.
Proof.
  unfold requestsOf. rewrite filter_app, filter_cons, filter_nil.
  case_decide; [done|]. by rewrite app_nil_r.
Qed.

Lemma pushRequest_folders groups req :
  (pushRequest groups req).*1 =
  if decide (PolicyRequest.subfolderId req ∈ groups.*1)
  then groups.*1 else groups.*1 ++ [PolicyRequest.subfolderId req].
Proof.
  induction groups as [|[f rs] groups IH]; [done|].
  cbn [pushRequest]. destruct (decide (f = PolicyRequest.subfolderId req)) as [->|Hf].
  - cbn [fmap list_fmap fst]. rewrite decide_True; [done|]. by left.
  - cbn [fmap list_fmap fst]. fold (fmap (M:=list) (@fst string (list PolicyRequest.t))).
    rewrite IH. destruct (decide (_ ∈ groups.*1)) as [Hin|Hin].
    + rewrite decide_True; [done|]. by right.
    + rewrite decide_False; [done|]. intros [?|?]%elem_of_cons; congruence.
Qed.

(** One more request: its folder's group gets it at the end; when the
    folder has no group yet, a new group is put last. *)
Lemma pushRequest_groups groups l req :
  NoDup groups.*1 →
  Forall (λ g, g.2 ≠ [] ∧ g.2 = requestsOf g.1 l) groups →
  (PolicyRequest.subfolderId req ∉ groups.*1 →
   requestsOf (PolicyRequest.subfolderId req) l = []) →
  Forall (λ g, g.2 ≠ [] ∧ g.2 = requestsOf g.1 (l ++ [req])) (pushRequest groups req).
Proof.
  assert (∀ requests : list PolicyRequest.t, requests ++ [req] ≠ []) as Hsnoc
    by (by intros []).
  induction groups as [|[f rs] groups IH]; intros Hnodup Hall Hnew.
  - constructor; [|done]. cbn [fst snd]. rewrite requestsOf_snoc.
    rewrite decide_True by done. rewrite Hnew by apply not_elem_of_nil. done.
  - apply NoDup_cons in Hnodup as [Hf Hnodup].
    apply Forall_cons in Hall as [[Hrs1 Hrs2] Hall]. cbn [fst snd] in *.
    cbn [pushRequest]. destruct (decide (f = PolicyRequest.subfolderId req)) as [->|Hne].
    + constructor.
      * cbn [fst snd]. rewrite requestsOf_snoc, decide_True by done.
        split; [apply Hsnoc|]. by rewrite <- Hrs2.
      * apply Forall_forall. intros g Hg.
        rewrite Forall_forall in Hall. destruct (Hall g Hg) as [? ?].
        rewrite requestsOf_snoc, decide_False; [done|].
        intros Heq. apply Hf. rewrite Heq. apply list_elem_of_fmap. by exists g.
    + constructor.
      * cbn [fst snd]. rewrite requestsOf_snoc, decide_False by done. done.
      * apply IH; [done..|]. intros Hnot. apply Hnew.
        intros [?|?]%elem_of_cons; [simpl in *; congruence|done].
Qed.

Lemma pushRequest_grouped groups l req :
  grouped l groups → grouped (l ++ [req]) (pushRequest groups req).
Proof.
  intros (Hnodup & Hall & Hcover).
  assert (PolicyRequest.subfolderId req ∉ groups.*1 →
          requestsOf (PolicyRequest.subfolderId req) l = []) as Hnew.
  { intros Hnot.
    destruct (requestsOf (PolicyRequest.subfolderId req) l) as [|r rest] eqn:Hrs;
      [done|].
    assert (r ∈ requestsOf (PolicyRequest.subfolderId req) l) as Hr
      by (rewrite Hrs; by left).
    apply list_elem_of_filter in Hr as [Hfolder Hr].
    destruct Hnot. rewrite <- Hfolder. by apply Hcover. }
  split; [|split].
  - rewrite pushRequest_folders. case_decide as Hin; [done|].
    apply NoDup_app. split; [done|]. split; [|apply NoDup_singleton].
    intros f Hf ->%list_elem_of_singleton. done.
  - by apply pushRequest_groups.
  - intros r Hr. rewrite pushRequest_folders.
    apply elem_of_app in Hr as [Hr|Hr].
    + case_decide; [by apply Hcover|]. apply elem_of_app. left. by apply Hcover.
    + apply list_elem_of_singleton in Hr as ->.
      case_decide; [done|]. apply elem_of_app. right. by left.
Qed.

Lemma groupByFolder_grouped policyRequests :
  grouped policyRequests (groupByFolder policyRequests).
Proof.
  unfold groupByFolder.
  induction policyRequests as [|req l IH] using rev_ind.
  - split; [constructor|]. split; [constructor|]. by intros r ?%elem_of_nil.
  - rewrite foldl_app. by apply pushRequest_grouped.
Qed.

(** [requestsByFolder] has one group per folder named by a request, and the
    group of a folder holds exactly the requests of that folder, in the
    order of the batch: no request is lost, repeated or put in another
    folder's group, and no group is empty. *)
Theorem groupByFolder_partition (policyRequests : list PolicyRequest.t) :
  let groups := groupByFolder policyRequests in
  NoDup groups.*1 ∧
  ∀ folder requests,
    (folder, requests) ∈ groups ↔
    requests ≠ [] ∧ requests = requestsOf folder policyRequests.
Proof.
  destruct (groupByFolder_grouped policyRequests) as (Hnodup & Hall & Hcover).
  split; [done|]. intros folder requests. split.
  - intros Hin. rewrite Forall_forall in Hall. apply (Hall _ Hin).
  - intros [Hne ->].
    destruct (requestsOf folder policyRequests) as [|r rest] eqn:Hrs; [done|].
    assert (r ∈ requestsOf folder policyRequests) as Hr by (rewrite Hrs; by left).
    apply list_elem_of_filter in Hr as [Hfolder Hr].
    specialize (Hcover r Hr). rewrite Hfolder in Hcover.
    apply list_elem_of_fmap in Hcover as ([f rs] & -> & Hin).
    rewrite Forall_forall in Hall. destruct (Hall _ Hin) as [_ Heq].
    cbn [fst snd] in *. rewrite Heq, Hrs in Hin. done.
Qed.

(** *** Every request of a batch gets its answer *)

Lemma foldl_ext_in {A B} (f g : A → B → A) (l : list B) (a : A) :
  (∀ a x, x ∈ l → f a x = g a x) → foldl f a l = foldl g a l.
Proof.
  revert a. induction l as [|x l IH]; intros a Hfg; [done|]. simpl.
  rewrite Hfg by (by left). apply IH. intros a' y Hy. apply Hfg. by right.
Qed.

Lemma processFolder_writes listPDFFilesWithCache results group :
  processFolder listPDFFilesWithCache results group =
  foldl (λ results req,
           <[resultKey req := resolutionIn listPDFFilesWithCache group.1 req]> results)
        results group.2.
Proof.
  unfold processFolder, resolutionIn. by destruct (listPDFFilesWithCache group.1).
Qed.

Lemma batchFindPolicyFiles_in_writes listPDFFilesWithCache order results :
  Forall (λ g, ∀ r, r ∈ g.2 → PolicyRequest.subfolderId r = g.1) order →
  foldl (processFolder listPDFFilesWithCache) results order =
  foldl (λ results req, <[resultKey req := resolution listPDFFilesWithCache req]> results)
        results (concat order.*2).
Proof.
  intros Horder. revert results.
  induction Horder as [|group order Hgroup _ IH]; intros results; [done|].
  cbn [foldl fmap list_fmap concat]. rewrite foldl_app, processFolder_writes, IH.
  f_equal. apply foldl_ext_in. intros res r Hr. unfold resolution.
  by rewrite (Hgroup r Hr).
Qed.

Lemma elem_of_concat {A} (x : A) (ls : list (list A)) :
  x ∈ concat ls ↔ ∃ l, x ∈ l ∧ l ∈ ls.
Proof.
  induction ls as [|l ls IH]; simpl.
  - split; [by intros ?%elem_of_nil|]. by intros (l & _ & ?%elem_of_nil).
  - rewrite elem_of_app, IH. split.
    + intros [?|(l' & ? & ?)]; [exists l; split; [done|by left]|].
      exists l'. split; [done|by right].
    + intros (l' & ? & [->|?]%elem_of_cons); [by left|]. right. by exists l'.
Qed.

(** The requests of the groups are the requests of the batch. *)
Lemma groups_requests policyRequests order r :
  order ≡ₚ groupByFolder policyRequests →
  r ∈ concat order.*2 ↔ r ∈ policyRequests.
Proof.
  intros Horder. rewrite elem_of_concat. split.
  - intros (rs & Hr & ([f rs'] & -> & Hin)%list_elem_of_fmap).
    rewrite Horder in Hin. by eapply groupByFolder_sound.
  - intros Hr. destruct (groupByFolder_complete _ _ Hr) as (rs & Hin & Hrs).
    exists rs. split; [done|]. apply list_elem_of_fmap.
    exists (PolicyRequest.subfolderId r, rs). by rewrite Horder.
Qed.

Lemma batchFindPolicyFiles_in_answer listPDFFilesWithCache policyRequests order key :
  order ≡ₚ groupByFolder policyRequests →
  batchFindPolicyFiles_in listPDFFilesWithCache order !! key =
  resolution listPDFFilesWithCache
    <$> last (filter (λ r, resultKey r = key) (concat order.*2)).
Proof.
  intros Horder. unfold batchFindPolicyFiles_in.
  rewrite batchFindPolicyFiles_in_writes.
  - rewrite write_results_lookup. by destruct (last _).
  - apply Forall_forall. intros [f rs] Hin r Hr. rewrite Horder in Hin.
    by eapply groupByFolder_sound.
Qed.

(** Whatever the order in which the folders' listings settle,
    [batchFindPolicyFiles] returns an entry for the key of every request
    and for no other key; an entry is the match of a request with that key
    in the listing of its folder, [null] when the listing of the folder was
    rejected, whatever becomes of the other folders; when no other request
    of the batch has the key, it is that of the request itself. *)
Theorem batchFindPolicyFiles_answers
    (listPDFFilesWithCache : string → settled (list DriveFile.t))
    (policyRequests : list PolicyRequest.t)
    (order : list (string * list PolicyRequest.t)) :
  order ≡ₚ groupByFolder policyRequests →
  let results := batchFindPolicyFiles_in listPDFFilesWithCache order in
  (∀ key, is_Some (results !! key) ↔
          ∃ r, r ∈ policyRequests ∧ resultKey r = key) ∧
  (∀ key answer, results !! key = Some answer →
     ∃ r, r ∈ policyRequests ∧ resultKey r = key ∧
          answer = match listPDFFilesWithCache (PolicyRequest.subfolderId r) with
                   | fulfilled allFiles => matchingFile r allFiles
                   | rejected _ => None
                   end) ∧
  (∀ req, req ∈ policyRequests →
     (∀ r, r ∈ policyRequests → resultKey r = resultKey req → r = req) →
     results !! resultKey req =
     Some (match listPDFFilesWithCache (PolicyRequest.subfolderId req) with
           | fulfilled allFiles => matchingFile req allFiles
           | rejected _ => None
           end)).
Proof.
  intros Horder results.
  assert (∀ key answer, results !! key = Some answer →
            ∃ r, r ∈ policyRequests ∧ resultKey r = key ∧
                 answer = resolution listPDFFilesWithCache r) as Hanswer.
  { intros key answer. unfold results.
    rewrite (batchFindPolicyFiles_in_answer _ policyRequests) by done.
    destruct (last _) as [r|] eqn:Hlast; [|done]. intros [= <-].
    apply last_Some_elem_of, list_elem_of_filter in Hlast as [Hkey Hr].
    exists r. split; [|done]. by apply (groups_requests policyRequests order). }
  assert (∀ r, r ∈ policyRequests → is_Some (results !! resultKey r)) as Hsome.
  { intros r Hr. unfold results.
    rewrite (batchFindPolicyFiles_in_answer _ policyRequests) by done.
    destruct (last _) as [r'|] eqn:Hlast; [done|].
    apply last_None in Hlast.
    exfalso. eapply (filter_nil_not_elem_of _ _ r); [exact Hlast|done|].
    by apply (groups_requests policyRequests order). }
  split; [|split].
  - intros key. split.
    + intros [answer Hkey]. destruct (Hanswer _ _ Hkey) as (r & ? & ? & _). eauto.
    + intros (r & Hr & <-). by apply Hsome.
  - exact Hanswer.
  - intros req Hreq Hunique. destruct (Hsome req Hreq) as [answer Hkey].
    destruct (Hanswer _ _ Hkey) as (r & Hr & Hrkey & ->).
    by rewrite Hkey, (Hunique r Hr Hrkey).
Qed.

Lemma batchFindPolicyFiles_answers_witness :
  let listing := sampleListing [DriveFile.mk "f1" "Privacy.pdf"] in
  let policyRequests := [PolicyRequest.mk "Privacy Policy.pdf" "folder1";
                         PolicyRequest.mk "Claims.pdf" "folder2";
                         PolicyRequest.mk "Appeals.pdf" "folder1"] in
  let results := batchFindPolicyFiles listing policyRequests in
  (∀ key, is_Some (results !! key) ↔
          ∃ r, r ∈ policyRequests ∧ resultKey r = key) ∧
  (∀ key answer, results !! key = Some answer →
     ∃ r, r ∈ policyRequests ∧ resultKey r = key ∧
          answer = match listing (PolicyRequest.subfolderId r) with
                   | fulfilled allFiles => matchingFile r allFiles
                   | rejected _ => None
                   end) ∧
  (∀ req, req ∈ policyRequests →
     (∀ r, r ∈ policyRequests → resultKey r = resultKey req → r = req) →
     results !! resultKey req =
     Some (match listing (PolicyRequest.subfolderId req) with
           | fulfilled allFiles => matchingFile req allFiles
           | rejected _ => None
           end)).
Proof.
  apply (batchFindPolicyFiles_answers
           (sampleListing [DriveFile.mk "f1" "Privacy.pdf"])
           [PolicyRequest.mk "Privacy Policy.pdf" "folder1";
            PolicyRequest.mk "Claims.pdf" "folder2";
            PolicyRequest.mk "Appeals.pdf" "folder1"]).
  reflexivity.
Defined.

End StoreLaws.

(** ** The pause between model calls, and the size of an excerpt *)

Module DispatcherLaws.
Import Dispatcher DispatcherFacts.

Local Open Scope Q_scope.

Lemma scaled_up (d : Q) : 500 <= d → 500 <= d * 1.5 ∧ 500 <= d * 1.2.
Proof.
  destruct d as [n p]. unfold Qle, Qmult. simpl.
  rewrite !Pos2Z.inj_mul. lia.
Qed.

Lemma scaled_down (d : Q) : d <= 5000 → d * 0.9 <= 5000.
Proof.
  destruct d as [n p]. unfold Qle, Qmult. simpl.
  rewrite !Pos2Z.inj_mul. lia.
Qed.

Lemma adjustAdaptiveDelay_range st :
  500 <= adaptiveDelay st <= 5000 →
  500 <= adaptiveDelay (adjustAdaptiveDelay st) <= 5000.
Proof.
  intros [Hlow Hhigh]. destruct (scaled_up _ Hlow) as [H15 H12].
  pose proof (scaled_down _ Hhigh) as H09.
  unfold adjustAdaptiveDelay. cbn [adaptiveDelay].
  destruct (2 <? _)%nat.
  { split; [by apply Q.min_glb|apply Q.le_min_r]. }
  destruct (num_gt _ _).
  { split; [by apply Q.min_glb|].
    apply (Qle_trans _ 3000); [apply Q.le_min_r|done]. }
  destruct (_ && _); [|done].
  split; [apply Q.le_max_r|by apply Q.max_lub].
Qed.

Lemma slice_last_snoc {A} (l : list A) (x : A) :
  Js.slice_last (Js.slice_last l 10 ++ [x]) 10 = Js.slice_last (l ++ [x]) 10.
Proof.
  unfold Js.slice_last. rewrite !length_app, !length_drop. cbn [List.length Datatypes.length].
  destruct (decide (List.length l ≤ 10)%nat) as [Hle|Hgt].
  - replace (List.length l - 10)%nat with 0%nat by lia. rewrite drop_0.
    f_equal. lia.
  - rewrite drop_app_le by (rewrite length_drop; lia). rewrite drop_drop.
    rewrite (drop_app_le l) by lia. do 2 f_equal. lia.
Qed.

Lemma completions_state completions :
  let st := foldl recordCompletion (mkDelayState [] 1000) completions in
  (500 <= adaptiveDelay st <= 5000) ∧ requestHistory st = Js.slice_last completions 10.
Proof.
  induction completions as [|entry completions IH] using rev_ind.
  { split; [split; unfold Qle; simpl; lia|done]. }
  cbv zeta in *. rewrite foldl_app. cbn [foldl].
  set (st := foldl recordCompletion _ completions) in *.
  destruct IH as [Hrange Hhistory]. split.
  - apply adjustAdaptiveDelay_range. done.
  - unfold recordCompletion, adjustAdaptiveDelay. cbn [requestHistory].
    rewrite Hhistory. apply slice_last_snoc.
Qed.

(** Whatever calls complete, and however they end, after them the pause
    between model calls lies between 500 and 5000 milliseconds, and the
    history holds the last ten completed calls (all of them when there were
    fewer), oldest first.  (The bounds do not depend on the rounding of the
    products: a clamped product is within the clamp.) *)
Theorem adaptiveDelay_bounded (completions : list HistoryEntry.t) :
  let st := foldl recordCompletion (mkDelayState [] 1000) completions in
  500 <= adaptiveDelay st ∧ adaptiveDelay st <= 5000 ∧
  requestHistory st = drop (length completions - 10) completions ∧
  (length (requestHistory st) ≤ 10)%nat.
Proof.
  destruct (completions_state completions) as [[Hlow Hhigh] Hhistory].
  cbv zeta in *. split; [done|]. split; [done|]. split; [done|].
  rewrite Hhistory. unfold Js.slice_last. rewrite length_drop. lia.
Qed.

Local Close Scope Q_scope.

(** *** The size of an excerpt *)

Lemma truncatedHead_length text :
  String.length (truncatedHead text) ≤ maxLength + String.length truncationMarker.
Proof.
  unfold truncatedHead, Js.substring.
  rewrite TextFacts.length_append, TextFacts.length_substring. lia.
Qed.

(** With non-empty keywords [smartTruncatePolicyText] returns, and what it
    returns is the text itself, or at most 18000 units long, or the first
    18000 units (fewer never arise) with the 14 units of the marker: never
    more than 18014 units go into a prompt. *)
Theorem smartTruncatePolicyText_budget (fuel : nat) (text : string)
    (keywords : list string) :
  Forall (λ k, k ≠ EmptyString) keywords → String.length text < fuel →
  ∃ excerpt,
    smartTruncatePolicyText fuel text keywords = Some excerpt ∧
    String.length excerpt ≤ maxLength + String.length truncationMarker ∧
    (String.length text ≤ maxLength → excerpt = text) ∧
    (maxLength < String.length text →
     String.length excerpt ≤ maxLength ∨ excerpt = truncatedHead text).
Proof.
  intros Hk Hfuel. unfold smartTruncatePolicyText, Js.length.
  destruct (Nat.leb_spec (String.length text) maxLength) as [Hshort|Hlong].
  { exists text. split; [done|]. split; [lia|]. split; [done|lia]. }
  rewrite gather_positions by done. cbn [mbind option_bind app].
  assert (∀ excerpt, excerpt = truncatedHead text →
            String.length excerpt ≤ maxLength + String.length truncationMarker ∧
            (String.length text ≤ maxLength → excerpt = text) ∧
            (maxLength < String.length text →
             String.length excerpt ≤ maxLength ∨ excerpt = truncatedHead text))
    as Hfallback.
  { intros excerpt ->. split; [apply truncatedHead_length|]. split; [lia|]. by right. }
  destruct (0 <? _); [|eauto].
  destruct (Nat.leb_spec (String.length (Js.join sectionSeparator
              (sectionAround text <$> Js.sort (λ a b, Some (Z.of_nat a - Z.of_nat b)%Z)
                 (allOccurrences text keywords)))) maxLength) as [Hfits|Hover];
    [|eauto].
  eexists. split; [done|]. split; [lia|]. split; [lia|]. by left.
Qed.

Lemma smartTruncatePolicyText_budget_witness :
  ∃ excerpt,
    smartTruncatePolicyText (S (String.length longText)) longText ["ab"; "a"]
      = Some excerpt ∧
    String.length excerpt ≤ maxLength + String.length truncationMarker ∧
    (String.length longText ≤ maxLength → excerpt = longText) ∧
    (maxLength < String.length longText →
     String.length excerpt ≤ maxLength ∨ excerpt = truncatedHead longText).
Proof.
  apply (smartTruncatePolicyText_budget (S (String.length longText)) longText
           ["ab"; "a"]).
  - by repeat constructor.
  - lia.
Defined.

End DispatcherLaws.
